(** * Background remover: pixel segmentation engine and RLE mask codec

    A shallow embedding of the image-processing worker
    (imageProcessor.worker.ts) and of the mask utilities (lib/maskUtils.ts),
    with the properties the specification states about them.

    Conventions of the embedding.
    - Typed arrays ([Uint8Array], [Uint8ClampedArray], [Uint32Array]) are
      lists of [Z]; an index is a [Z]; a read out of range is [None]
      (JavaScript's [undefined]) and a store out of range does nothing.
    - Values that are integers in the source (indices, coordinates, byte
      samples, counters, sums of bytes) are [Z]: they stay far below 2^53,
      where arithmetic on doubles is exact.  [Math.round(a / b)] of two such
      integers is computed exactly ([round_div]): for [a < 2^52] the rounded
      double quotient cannot cross a half-integer.
    - Values that are fractional in the source (square roots, ratios,
      thresholds scaled by 4.42 or 0.7) are IEEE-754 doubles, Rocq's
      primitive [float].
    - A threshold or tolerance handed over by the caller is a [number]:
      either an integer ([Int], what the editor's unit-step sliders send) or
      a double ([Dbl], what the Otsu estimator returns). *)

From Stdlib Require Import ZArith Floats Lia List Bool String.
From stdpp Require Import base tactics option list list_numbers.

Local Open Scope Z_scope.
Set Warnings "-inexact-float".

(** ** JavaScript numbers *)

Module JS.

(** [Number(z)]: the double nearest to the integer [z] (ties to even). *)
Definition P2F (p : positive) : float :=
  SF2Prim (binary_normalize prec emax (Zpos p) 0 false).

Definition Z2F (z : Z) : float :=
  match z with
  | Z0 => 0%float
  | Zpos p => P2F p
  | Zneg p => (- P2F p)%float
  end.

(** A finite double as [m * 2^e]; [None] for NaN and the infinities. *)
Definition mantissa_exponent (f : float) : option (Z * Z) :=
  match Prim2SF f with
  | S754_zero _ => Some (0, 0)
  | S754_finite s m e => Some (if s then Zneg m else Zpos m, e)
  | S754_infinity _ => None
  | S754_nan => None
  end.

(** [Math.floor] as an integer. *)
Definition floorZ (f : float) : option Z :=
  match mantissa_exponent f with
  | Some (m, e) => Some (if 0 <=? e then m * 2 ^ e else m / 2 ^ (- e))
  | None => None
  end.

(** [Math.round] as an integer: nearest integer, ties towards +infinity. *)
Definition roundZ (f : float) : option Z :=
  match mantissa_exponent f with
  | Some (m, e) =>
      Some (if 0 <=? e then m * 2 ^ e else (2 * m + 2 ^ (- e)) / 2 ^ (- e + 1))
  | None => None
  end.

(** Truncation towards zero ([ToIntegerOrInfinity]). *)
Definition truncZ (f : float) : option Z :=
  match mantissa_exponent f with
  | Some (m, e) => Some (if 0 <=? e then m * 2 ^ e else Z.quot m (2 ^ (- e)))
  | None => None
  end.

Definition Math_round (f : float) : float :=
  match roundZ f with Some z => Z2F z | None => f end.

Definition Math_floor (f : float) : float :=
  match floorZ f with Some z => Z2F z | None => f end.

(** [Math.min] and [Math.max]: NaN when an argument is NaN. *)
Definition Math_min (a b : float) : float :=
  if PrimFloat.is_nan a || PrimFloat.is_nan b then nan
  else if PrimFloat.ltb b a then b else a.

Definition Math_max (a b : float) : float :=
  if PrimFloat.is_nan a || PrimFloat.is_nan b then nan
  else if PrimFloat.ltb a b then b else a.

(** Storing a double into a [Uint8Array] ([ToUint8]: truncate, wrap). *)
Definition ToUint8 (f : float) : Z :=
  match truncZ f with Some z => z mod 256 | None => 0 end.

(** Storing a double into a [Uint8ClampedArray] ([ToUint8Clamp]: clamp to
    [0,255], nearest integer, ties to even). *)
Definition ToUint8Clamp (f : float) : Z :=
  match mantissa_exponent f with
  | None => if PrimFloat.ltb 0 f then 255 else 0
  | Some (m, e) =>
      if 0 <=? e then Z.max 0 (Z.min 255 (m * 2 ^ e))
      else
        let d := 2 ^ (- e) in
        let q := m / d in
        let r := 2 * (m mod d) in
        let n := if r <? d then q
                 else if d <? r then q + 1
                 else if Z.even q then q else q + 1 in
        Z.max 0 (Z.min 255 n)
  end.

(** [new Uint32Array(values)] keeps each value modulo 2^32. *)
Definition ToUint32 (z : Z) : Z := z mod 2 ^ 32.

(** [ToInt32], the operand and result type of [<<]. *)
Definition ToInt32 (z : Z) : Z := (z + 2 ^ 31) mod 2 ^ 32 - 2 ^ 31.

(** [i << 2]. *)
Definition shl2 (i : Z) : Z := ToInt32 (Z.shiftl i 2).

(** [Math.round(a / b)] for integers [0 <= a] and [0 < b]. *)
Definition round_div (a b : Z) : Z := (2 * a + b) / (2 * b).

(** A number received from the caller. *)
Inductive number :=
  | Int (z : Z)
  | Dbl (f : float).

Definition toF (n : number) : float :=
  match n with Int z => Z2F z | Dbl f => f end.

Definition nmul (a b : number) : number :=
  match a, b with
  | Int x, Int y => Int (x * y)
  | _, _ => Dbl (toF a * toF b)
  end.

Definition nltb (a b : number) : bool :=
  match a, b with
  | Int x, Int y => x <? y
  | _, _ => PrimFloat.ltb (toF a) (toF b)
  end.

Definition nleb (a b : number) : bool :=
  match a, b with
  | Int x, Int y => x <=? y
  | _, _ => PrimFloat.leb (toF a) (toF b)
  end.

End JS.

(** ** Typed arrays *)

Definition aget {A} (a : list A) (i : Z) : option A :=
  if i <? 0 then None else a !! Z.to_nat i.

Definition aset {A} (a : list A) (i : Z) (v : A) : list A :=
  if i <? 0 then a else <[Z.to_nat i := v]> a.

(** [new Uint8Array(n)]: [n] zeros; a negative length raises RangeError. *)
Definition Uint8Array_new (n : Z) : option (list Z) :=
  if n <? 0 then None else Some (replicate (Z.to_nat n) 0).

(** ** RLE mask codec (lib/maskUtils.ts; the worker carries a copy of
    [encodeMaskToRLE] and [decodeMaskFromRLE]) *)

Module RLE.

(** The scan of [encodeMaskToRLE]: [rest] is what remains of the mask from
    index [i]; [inRun], [runStart] and [runs] are the loop's variables. *)
Fixpoint encode_loop (rest : list Z) (i : Z) (inRun : bool) (runStart : Z)
    (runs : list Z) : list Z :=
  match rest with
  | [] =>
      (* here [i = mask.length]: close the final run *)
      if inRun then runs ++ [runStart; i - runStart] else runs
  | m :: rest' =>
      let isSelected := 0 <? m in
      if isSelected && negb inRun then
        encode_loop rest' (i + 1) true i runs
      else if negb isSelected && inRun then
        encode_loop rest' (i + 1) false runStart (runs ++ [runStart; i - runStart])
      else
        encode_loop rest' (i + 1) inRun runStart runs
  end.

Definition encodeMaskToRLE (mask : list Z) : list Z :=
  map JS.ToUint32 (encode_loop mask 0 false 0 []).

(** [for (j = start; j < end; j++) mask[j] = 1]. *)
Definition fill (mask : list Z) (start end_ : Z) : list Z :=
  fold_left (fun m j => aset m j 1) (seqZ start (end_ - start)) mask.

(** The outer loop of [decodeMaskFromRLE]; with an odd number of entries the
    last length is [undefined], the bound is NaN and nothing is filled. *)
Fixpoint decode_loop (rle : list Z) (maskSize : Z) (mask : list Z) : list Z :=
  match rle with
  | start :: length :: rle' =>
      let end_ := Z.min (start + length) maskSize in
      decode_loop rle' maskSize (fill mask start end_)
  | _ => mask
  end.

Definition decodeMaskFromRLE (rle : list Z) (maskSize : Z) : option (list Z) :=
  match Uint8Array_new maskSize with
  | Some mask => Some (decode_loop rle maskSize mask)
  | None => None
  end.

(** [for (i = 0; i < maskSize; i++) mask1[i] = mask1[i] | mask2[i]]; a read
    past the end gives [undefined], which [|] treats as 0. *)
Definition or_loop (mask1 mask2 : list Z) (maskSize : Z) : list Z :=
  fold_left
    (fun m i => aset m i (Z.lor (default 0 (aget m i)) (default 0 (aget mask2 i))))
    (seqZ 0 maskSize) mask1.

Definition mergeRLEMasks (rle1 rle2 : list Z) (maskSize : Z) : option (list Z) :=
  match decodeMaskFromRLE rle1 maskSize, decodeMaskFromRLE rle2 maskSize with
  | Some mask1, Some mask2 => Some (encodeMaskToRLE (or_loop mask1 mask2 maskSize))
  | _, _ => None
  end.

(** [countPixelsInRLE]: the sum of the entries at odd positions. *)
Fixpoint countPixelsInRLE (rle : list Z) : Z :=
  match rle with
  | _ :: length :: rle' => length + countPixelsInRLE rle'
  | _ => 0
  end.

End RLE.

(** ** Image buffers and colours *)

(** [ImageData]: [data] holds 4 bytes (R, G, B, A) per pixel, row-major.
    The platform guarantees [data.length = 4 * width * height]. *)
Record ImageData := mkImageData {
  width : Z;
  height : Z;
  data : list Z
}.

(** A colour [{ r, g, b }].  A channel is [None] when the source holds
    [undefined] or NaN there (a sample read past the buffer). *)
Module Color.
Record t := mk { r : option Z; g : option Z; b : option Z }.
End Color.

(** [SQUARED_COLOR_WEIGHTS = { r: 2, g: 4, b: 3 }] *)
Definition SQUARED_COLOR_WEIGHTS : Z * Z * Z := (2, 4, 3).

Definition colorDistanceSquared (r1 g1 b1 r2 g2 b2 : Z) : Z :=
  let rDiff := r1 - r2 in
  let gDiff := g1 - g2 in
  let bDiff := b1 - b2 in
  let '(wr, wg, wb) := SQUARED_COLOR_WEIGHTS in
  wr * rDiff * rDiff + wg * gDiff * gDiff + wb * bDiff * bDiff.

(** [colorDistanceSquared] on samples that may be [undefined]: the
    differences are then NaN, and so is the result ([None]). *)
Definition colorDistanceSquared_u (r1 g1 b1 r2 g2 b2 : option Z) : option Z :=
  match r1, g1, b1, r2, g2, b2 with
  | Some r1, Some g1, Some b1, Some r2, Some g2, Some b2 =>
      Some (colorDistanceSquared r1 g1 b1 r2 g2 b2)
  | _, _, _, _, _, _ => None
  end.

(** An integer-or-NaN value as a double. *)
Definition num_u (o : option Z) : float :=
  match o with Some z => JS.Z2F z | None => nan end.

(** [colorDistance = Math.sqrt(colorDistanceSquared(...))] *)
Definition colorDistance (r1 g1 b1 r2 g2 b2 : option Z) : float :=
  PrimFloat.sqrt (num_u (colorDistanceSquared_u r1 g1 b1 r2 g2 b2)).

(** ** Magic regions *)

Inductive RegionMode := keep | remove.

Record Bounds := mkBounds {
  bx : Z;       (* x *)
  by_ : Z;      (* y *)
  bwidth : Z;   (* width *)
  bheight : Z   (* height *)
}.

Module Region.
Record t := mk {
  id : string;
  maskRLE : list Z;
  bounds : Bounds;
  pixelCount : Z;
  averageColor : Color.t;
  mode : RegionMode
}.
End Region.

Abbreviation MagicRegion := Region.t.

(** ** magicSelect: the flood fill *)

Module Flood.

(** The loop's variables.  The source keeps the stack as a flat array
    [x0, y0, x1, y1, ...] and always pushes and pops two entries at a time;
    here it is a list of pairs, top first. *)
Record state := mkState {
  stack : list (Z * Z);
  visited : list Z;
  selected : list Z;
  minX : Z; maxX : Z;
  minY : Z; maxY : Z;
  totalR : Z; totalG : Z; totalB : Z;
  count : Z   (* pixelCount *)
}.

(** [if (!visited[nIdx]) { visited[nIdx] = 1; stack.push(nx, ny); }] *)
Definition visit (nIdx nx ny : Z) (vs : list Z * list (Z * Z)) : list Z * list (Z * Z) :=
  match aget (fst vs) nIdx with
  | Some v => if v =? 0 then (aset (fst vs) nIdx 1, (nx, ny) :: snd vs) else vs
  | None => (aset (fst vs) nIdx 1, (nx, ny) :: snd vs)
  end.

(** [distSq <= toleranceThresholdSq]; a NaN distance compares false. *)
Definition within (distSq : option Z) (toleranceThresholdSq : JS.number) : bool :=
  match distSq with
  | Some d => JS.nleb (JS.Int d) toleranceThresholdSq
  | None => false
  end.

(** The four neighbour checks of an accepted pixel: left, right, up, down. *)
Definition neighbours (w h x y : Z) (vs : list Z * list (Z * Z)) : list Z * list (Z * Z) :=
  let pixelIdx := y * w + x in
  let vs := if 0 <? x then visit (pixelIdx - 1) (x - 1) y vs else vs in
  let vs := if x <? w - 1 then visit (pixelIdx + 1) (x + 1) y vs else vs in
  let vs := if 0 <? y then visit (pixelIdx - w) x (y - 1) vs else vs in
  if y <? h - 1 then visit (pixelIdx + w) x (y + 1) vs else vs.

(** The state after popping the top of the stack without selecting it. *)
Definition reject (stack' : list (Z * Z)) (st : state) : state :=
  mkState stack' (visited st) (selected st) (minX st) (maxX st)
    (minY st) (maxY st) (totalR st) (totalG st) (totalB st) (count st).

(** One iteration of [while (stack.length > 0)]. *)
Definition step (img : ImageData) (seed : Color.t)
    (toleranceThresholdSq : JS.number) (st : state) : state :=
  match stack st with
  | [] => st
  | (x, y) :: stack' =>
      let idx := JS.shl2 (y * width img + x) in
      let r := aget (data img) idx in
      let g := aget (data img) (idx + 1) in
      let b := aget (data img) (idx + 2) in
      let distSq :=
        colorDistanceSquared_u r g b (Color.r seed) (Color.g seed) (Color.b seed) in
      match r, g, b with
      | Some rv, Some gv, Some bv =>
          if within distSq toleranceThresholdSq then
            let pixelIdx := y * width img + x in
            let vs := neighbours (width img) (height img) x y (visited st, stack') in
            mkState (snd vs) (fst vs) (aset (selected st) pixelIdx 1)
              (if x <? minX st then x else minX st)
              (if maxX st <? x then x else maxX st)
              (if y <? minY st then y else minY st)
              (if maxY st <? y then y else maxY st)
              (totalR st + rv) (totalG st + gv) (totalB st + bv)
              (count st + 1)
          else reject stack' st
      | _, _, _ => reject stack' st
      end
  end.

(** The [while] loop; [None] when [fuel] iterations did not empty the stack. *)
Fixpoint loop (fuel : nat) (img : ImageData) (seed : Color.t)
    (toleranceThresholdSq : JS.number) (st : state) : option state :=
  match stack st with
  | [] => Some st
  | _ :: _ =>
      match fuel with
      | O => None
      | S fuel' =>
          loop fuel' img seed toleranceThresholdSq
            (step img seed toleranceThresholdSq st)
      end
  end.

(** The state before the loop. *)
Definition init (img : ImageData) (startX startY : Z) : state :=
  let totalPixels := width img * height img in
  let visited := replicate (Z.to_nat totalPixels) 0 in
  let selected := replicate (Z.to_nat totalPixels) 0 in
  mkState [(startX, startY)] (aset visited (startY * width img + startX) 1) selected
    startX startX startY startY 0 0 0 0.

(** One row of the mask relative to the bounds:
    [for x in minX..maxX: if (selected[srcRowOffset + x]) mask[dstRowOffset + x] = 1] *)
Definition build_row (selected : list Z) (srcRowOffset dstRowOffset minX maxX : Z)
    (mask : list Z) : list Z :=
  fold_left
    (fun mask x =>
       match aget selected (srcRowOffset + x) with
       | Some v => if v =? 0 then mask else aset mask (dstRowOffset + x) 1
       | None => mask
       end)
    (seqZ minX (maxX - minX + 1)) mask.

(** [for y in minY..maxY] over [build_row], from a zeroed mask. *)
Definition build_mask (selected : list Z) (width minX maxX minY maxY : Z) : list Z :=
  let boundsWidth := maxX - minX + 1 in
  let boundsHeight := maxY - minY + 1 in
  fold_left
    (fun mask y =>
       build_row selected (y * width) ((y - minY) * boundsWidth - minX) minX maxX mask)
    (seqZ minY (maxY - minY + 1))
    (replicate (Z.to_nat (boundsWidth * boundsHeight)) 0).

End Flood.

(** [tolerance * 4.42], squared. *)
Definition toleranceThresholdSq (tolerance : JS.number) : JS.number :=
  let toleranceThreshold := JS.nmul tolerance (JS.Dbl 4.42) in
  JS.nmul toleranceThreshold toleranceThreshold.

(** The seed pixel's colour, read at [(startY * width + startX) << 2]. *)
Definition seedColor (img : ImageData) (startX startY : Z) : Color.t :=
  let seedIdx := JS.shl2 (startY * width img + startX) in
  Color.mk (aget (data img) seedIdx) (aget (data img) (seedIdx + 1))
    (aget (data img) (seedIdx + 2)).

(** [magicSelect(imageData, startX, startY, tolerance)].  [uuid] is the value
    [crypto.randomUUID()] returns; the result is [None] when the flood fill
    has not emptied its stack within [fuel] iterations. *)
Definition magicSelect (fuel : nat) (uuid : string) (img : ImageData)
    (startX startY : Z) (tolerance : JS.number) : option MagicRegion :=
  let seed := seedColor img startX startY in
  match Flood.loop fuel img seed (toleranceThresholdSq tolerance)
          (Flood.init img startX startY) with
  | None => None
  | Some st =>
      let boundsWidth := Flood.maxX st - Flood.minX st + 1 in
      let boundsHeight := Flood.maxY st - Flood.minY st + 1 in
      let mask := Flood.build_mask (Flood.selected st) (width img)
                    (Flood.minX st) (Flood.maxX st) (Flood.minY st) (Flood.maxY st) in
      let maskRLE := RLE.encodeMaskToRLE mask in
      let avg (total : Z) (seed : option Z) :=
        if 0 <? Flood.count st then Some (JS.round_div total (Flood.count st)) else seed in
      Some (Region.mk uuid maskRLE
              (mkBounds (Flood.minX st) (Flood.minY st) boundsWidth boundsHeight)
              (Flood.count st)
              (Color.mk (avg (Flood.totalR st) (Color.r seed))
                 (avg (Flood.totalG st) (Color.g seed))
                 (avg (Flood.totalB st) (Color.b seed)))
              remove)
  end.

(** ** Dominant colour and automatic threshold *)

Module Dominant.

(** One corner block: [for y in y0..y0+n-1, for x in x0..x0+n-1] push the
    sample at [(y * width + x) * 4]. *)
Definition corner (img : ImageData) (x0 y0 n : Z) : list Color.t :=
  y ← seqZ y0 n;
  x ← seqZ x0 n;
  let idx := (y * width img + x) * 4 in
  [Color.mk (aget (data img) idx) (aget (data img) (idx + 1)) (aget (data img) (idx + 2))].

(** A value of [colorMap]: [{ count, r, g, b }]. *)
Record entry := mkEntry { ecount : Z; er : option Z; eg : option Z; eb : option Z }.

(** [Math.floor(c / 8) * 8]; NaN for an undefined sample. *)
Definition quantize (c : option Z) : option Z :=
  match c with Some v => Some (v / 8 * 8) | None => None end.

(** [a + b], NaN when one of them is. *)
Definition add_u (a b : option Z) : option Z :=
  match a, b with Some x, Some y => Some (x + y) | _, _ => None end.

Definition key := (option Z * option Z * option Z)%type.

Definition key_eqb (k1 k2 : key) : bool := bool_decide (k1 = k2).

(** [colorMap.get(key)] then update in place, or [colorMap.set(key, ...)]
    at the end; a [Map] iterates in insertion order. *)
Fixpoint upsert (k : key) (sample : Color.t) (colorMap : list (key * entry)) :
    list (key * entry) :=
  match colorMap with
  | [] => [(k, mkEntry 1 (Color.r sample) (Color.g sample) (Color.b sample))]
  | (k', existing) :: colorMap' =>
      if key_eqb k k' then
        (k', mkEntry (ecount existing + 1)
               (add_u (er existing) (Color.r sample))
               (add_u (eg existing) (Color.g sample))
               (add_u (eb existing) (Color.b sample))) :: colorMap'
      else (k', existing) :: upsert k sample colorMap'
  end.

(** [Math.round(sum / count)] *)
Definition average (sum : option Z) (count : Z) : option Z :=
  match sum with Some v => Some (JS.round_div v count) | None => None end.

End Dominant.

Definition detectDominantColor (img : ImageData) : Color.t :=
  let w := width img in
  let h := height img in
  let sampleSize := Z.min 20 (Z.min w h / 10) in
  let cornerSamples :=
    Dominant.corner img 0 0 sampleSize ++
    Dominant.corner img (w - sampleSize) 0 sampleSize ++
    Dominant.corner img 0 (h - sampleSize) sampleSize ++
    Dominant.corner img (w - sampleSize) (h - sampleSize) sampleSize in
  let colorMap :=
    fold_left
      (fun colorMap sample =>
         let k := (Dominant.quantize (Color.r sample), Dominant.quantize (Color.g sample),
                   Dominant.quantize (Color.b sample)) in
         Dominant.upsert k sample colorMap)
      cornerSamples [] in
  snd (fold_left
         (fun (acc : Z * Color.t) (ke : Dominant.key * Dominant.entry) =>
            let e := snd ke in
            if fst acc <? Dominant.ecount e then
              (Dominant.ecount e,
               Color.mk (Dominant.average (Dominant.er e) (Dominant.ecount e))
                 (Dominant.average (Dominant.eg e) (Dominant.ecount e))
                 (Dominant.average (Dominant.eb e) (Dominant.ecount e)))
            else acc)
         colorMap (0, Color.mk (Some 255) (Some 255) (Some 255))).

Module Otsu.

Definition maxDistance : float := 442%float.
Definition histogramBins : Z := 256.

(** The values [i = 0, 4, 8, ...] of the sampling loop: those below
    [totalPixels = data.length / 4], that is, with [4 * i < data.length]. *)
Definition sampled (dataLength : Z) : list Z :=
  (fun k => 4 * k) <$> seqZ 0 ((dataLength + 15) / 16).

(** [histogram[binIndex]++] on a [Uint32Array]; a NaN index stores nothing. *)
Definition bump (histogram : list Z) (binIndex : option Z) : list Z :=
  match binIndex with
  | Some i =>
      match aget histogram i with
      | Some n => aset histogram i (JS.ToUint32 (n + 1))
      | None => histogram
      end
  | None => histogram
  end.

(** [Math.min(Math.floor((dist / maxDistance) * (histogramBins - 1)), histogramBins - 1)] *)
Definition binIndex (dist : float) : option Z :=
  match JS.floorZ (dist / maxDistance * JS.Z2F (histogramBins - 1))%float with
  | Some i => Some (Z.min i (histogramBins - 1))
  | None => None
  end.

(** The variables of the search loop. *)
Record state := mkState {
  sumBackground : Z;
  weightBackground : Z;
  maxVariance : float;
  optimalBin : Z;
  broke : bool   (* the loop has executed [break] *)
}.

(** One iteration, for bin [t]; the histogram has an entry for every bin,
    so that [histogram[t]] is never [undefined]. *)
Definition step (histogram : list Z) (sampledPixels sumTotal : Z) (st : state) (t : Z) : state :=
  if broke st then st else
  let wB := weightBackground st + default 0 (aget histogram t) in
  if wB =? 0 then
    mkState (sumBackground st) wB (maxVariance st) (optimalBin st) false
  else
    let wF := sampledPixels - wB in
    if wF =? 0 then
      mkState (sumBackground st) wB (maxVariance st) (optimalBin st) true
    else
      let sB := sumBackground st + t * default 0 (aget histogram t) in
      let meanBackground := (JS.Z2F sB / JS.Z2F wB)%float in
      let meanForeground := (JS.Z2F (sumTotal - sB) / JS.Z2F wF)%float in
      let diff := (meanBackground - meanForeground)%float in
      (* [Math.pow(diff, 2)] taken as [diff * diff] *)
      let variance := (JS.Z2F (wB * wF) * (diff * diff))%float in
      if PrimFloat.ltb (maxVariance st) variance then
        mkState sB wB variance t false
      else
        mkState sB wB (maxVariance st) (optimalBin st) false.

(** [Math.max(20, Math.min((optimalBin / (histogramBins - 1)) * maxDistance, 150))] *)
Definition clamp (optimalBin : Z) : float :=
  let threshold := (JS.Z2F optimalBin / JS.Z2F (histogramBins - 1) * maxDistance)%float in
  JS.Math_max 20 (JS.Math_min threshold 150).

End Otsu.

(** [calculateAutoThreshold(imageData)]: [{ threshold, dominantColor }]. *)
Definition calculateAutoThreshold (img : ImageData) : float * Color.t :=
  let dataLength := Z.of_nat (length (data img)) in
  let dominantColor := detectDominantColor img in
  let histogram0 := replicate (Z.to_nat Otsu.histogramBins) 0 in
  let '(histogram, sampledPixels) :=
    fold_left
      (fun (acc : list Z * Z) i =>
         let pixelIndex := i * 4 in
         let r := aget (data img) pixelIndex in
         let g := aget (data img) (pixelIndex + 1) in
         let b := aget (data img) (pixelIndex + 2) in
         let dist := colorDistance r g b (Color.r dominantColor)
                       (Color.g dominantColor) (Color.b dominantColor) in
         (Otsu.bump (fst acc) (Otsu.binIndex dist), snd acc + 1))
      (Otsu.sampled dataLength) (histogram0, 0) in
  let sumTotal :=
    fold_left (fun s i => s + i * default 0 (aget histogram i))
      (seqZ 0 Otsu.histogramBins) 0 in
  let final :=
    fold_left (Otsu.step histogram sampledPixels sumTotal)
      (seqZ 0 Otsu.histogramBins) (Otsu.mkState 0 0 0%float 0 false) in
  (Otsu.clamp (Otsu.optimalBin final), dominantColor).

(** ** Processing settings *)

Module Mode.
Inductive t := auto | manual | colorPicker.
End Mode.

Module EdgeMode.
Inductive t := hard | feathered | decontaminate | smooth | refine.
End EdgeMode.

Module SelectedColor.
Record t := mk { id : string; r : Z; g : Z; b : Z; tolerance : JS.number }.
End SelectedColor.

Record MagicSelectionState := mkMagicSelectionState {
  isActive : bool;
  magicTolerance : JS.number;               (* tolerance *)
  previewRegion : option MagicRegion;
  appliedRegions : list MagicRegion
}.

Record ProcessingSettings := mkSettings {
  mode : Mode.t;
  threshold : JS.number;
  autoThreshold : JS.number;
  selectedColors : list SelectedColor.t;
  edgeMode : EdgeMode.t;
  featherRadius : Z;
  magicSelection : MagicSelectionState
}.

(** ** Messages *)

(** The text of an [error] response is [error.message] of the exception
    caught.  The only exception of the functions below is the RangeError of
    [new Uint8Array(n)] for a negative [n]; its text is the engine's, and
    is left open. *)
Inductive ErrorMessage := RangeError_message.

Inductive WorkerResponse :=
  | progress (percent : float)
  | complete (imageData : ImageData)
  | autoThresholdResult (threshold : float) (dominantColor : Color.t)   (* 'autoThreshold' *)
  | magicSelectResult (magicRegion : MagicRegion)
  | cancelled
  | error (message : ErrorMessage).

(** ** Edge processing *)

Definition gaussianFalloff (distance threshold featherRadius : float) : float :=
  if PrimFloat.leb distance threshold then 0%float
  else if PrimFloat.leb (threshold + featherRadius) distance then 255%float
  else
    let t := ((distance - threshold) / featherRadius)%float in
    let smoothT := (t * t * (3 - 2 * t))%float in
    JS.Math_round (smoothT * 255).

(** Comparisons of a mask entry that may be [undefined] with a constant. *)
Definition gt_u (a : option Z) (c : Z) : bool :=
  match a with Some v => c <? v | None => false end.
Definition lt_u (a : option Z) (c : Z) : bool :=
  match a with Some v => v <? c | None => false end.
Definition le_u (a : option Z) (c : Z) : bool :=
  match a with Some v => v <=? c | None => false end.

(** [Math.min] and [Math.max] of entries that may be [undefined] (then NaN). *)
Definition min_u (a b : option Z) : option Z :=
  match a, b with Some x, Some y => Some (Z.min x y) | _, _ => None end.
Definition max_u (a b : option Z) : option Z :=
  match a, b with Some x, Some y => Some (Z.max x y) | _, _ => None end.

Definition isEdgePixel (alphaMask : list Z) (x y width height : Z) : bool :=
  let centerAlpha := aget alphaMask (y * width + x) in
  let crossing :=
    if bool_decide (centerAlpha = Some 0 \/ centerAlpha = Some 255) then
      let neighbors :=
        [ if 0 <? y then aget alphaMask ((y - 1) * width + x) else centerAlpha;
          if y <? height - 1 then aget alphaMask ((y + 1) * width + x) else centerAlpha;
          if 0 <? x then aget alphaMask (y * width + (x - 1)) else centerAlpha;
          if x <? width - 1 then aget alphaMask (y * width + (x + 1)) else centerAlpha ] in
      existsb
        (fun n => (gt_u centerAlpha 128 && le_u n 128) || (le_u centerAlpha 128 && gt_u n 128))
        neighbors
    else false in
  crossing || (gt_u centerAlpha 0 && lt_u centerAlpha 255).

Section EdgeProcessing.

(** [Math.exp], which ECMAScript leaves implementation-approximated. *)
Variable Math_exp : float -> float.

(** The normalised kernel of [smoothEdges]. *)
Definition smoothKernel (smoothRadius : Z) : list float :=
  let kernelSize := smoothRadius * 2 + 1 in
  let kernel :=
    i ← seqZ 0 kernelSize;
    j ← seqZ 0 kernelSize;
    let dx := i - smoothRadius in
    let dy := j - smoothRadius in
    let dist := PrimFloat.sqrt (JS.Z2F (dx * dx + dy * dy)) in
    [Math_exp (- (dist * dist) / JS.Z2F (2 * smoothRadius))%float] in
  let kernelSum := fold_left (fun s weight => (s + weight)%float) kernel 0%float in
  (fun weight => (weight / kernelSum)%float) <$> kernel.

Definition smoothEdges (alphaMask : list Z) (width height radius : Z) : list Z :=
  let smoothRadius := Z.max 1 (Z.min radius 5) in
  let kernel := smoothKernel smoothRadius in
  fold_left
    (fun smoothed (yx : Z * Z) =>
       let '(y, x) := yx in
       let idx := y * width + x in
       let centerAlpha := aget alphaMask idx in
       let hasVariation :=
         ((0 <? x) && negb (bool_decide (aget alphaMask (idx - 1) = centerAlpha))) ||
         ((x <? width - 1) && negb (bool_decide (aget alphaMask (idx + 1) = centerAlpha))) ||
         ((0 <? y) && negb (bool_decide (aget alphaMask (idx - width) = centerAlpha))) ||
         ((y <? height - 1) && negb (bool_decide (aget alphaMask (idx + width) = centerAlpha))) in
       if negb hasVariation then aset smoothed idx (default 0 centerAlpha)
       else
         let '(sum, _) :=
           fold_left
             (fun (acc : float * nat) (d : Z * Z) =>
                let '(dy, dx) := d in
                let nx := Z.max 0 (Z.min (width - 1) (x + dx)) in
                let ny := Z.max 0 (Z.min (height - 1) (y + dy)) in
                ((fst acc + num_u (aget alphaMask (ny * width + nx))
                            * default nan (kernel !! snd acc))%float,
                 S (snd acc)))
             (dy ← seqZ (- smoothRadius) (2 * smoothRadius + 1);
              dx ← seqZ (- smoothRadius) (2 * smoothRadius + 1); [(dy, dx)])
             (0%float, O) in
         aset smoothed idx (JS.ToUint8 (JS.Math_round sum)))
    (y ← seqZ 0 height; x ← seqZ 0 width; [(y, x)])
    (replicate (Z.to_nat (width * height)) 0).

(** The disk-shaped neighbourhood of [(x, y)] inside the image. *)
Definition disk (width height erodeRadius x y : Z) : list Z :=
  dy ← seqZ (- erodeRadius) (2 * erodeRadius + 1);
  dx ← seqZ (- erodeRadius) (2 * erodeRadius + 1);
  if erodeRadius * erodeRadius <? dx * dx + dy * dy then []
  else
    let nx := x + dx in
    let ny := y + dy in
    if (nx <? 0) || (width <=? nx) || (ny <? 0) || (height <=? ny) then []
    else [ny * width + nx].

(** One morphological pass: every pixel becomes [op] over its disk. *)
Definition morph (op : option Z -> option Z -> option Z) (src : list Z)
    (width height erodeRadius : Z) : list Z :=
  fold_left
    (fun dst (yx : Z * Z) =>
       let '(y, x) := yx in
       let idx := y * width + x in
       let v := fold_left (fun acc n => op acc (aget src n))
                  (disk width height erodeRadius x y) (aget src idx) in
       aset dst idx (default 0 v))
    (y ← seqZ 0 height; x ← seqZ 0 width; [(y, x)])
    (replicate (Z.to_nat (width * height)) 0).

Definition refineEdges (alphaMask : list Z) (width height radius : Z) : list Z :=
  let erodeRadius := Z.max 1 (Z.min radius 3) in
  let temp := morph min_u alphaMask width height erodeRadius in
  let refined := morph max_u temp width height erodeRadius in
  fold_left
    (fun smoothed (yx : Z * Z) =>
       let '(y, x) := yx in
       let idx := y * width + x in
       let center := aget refined idx in
       let at_ (k : Z) := aget refined (idx + k) in
       let interior := (0 <? x) && (x <? width - 1) && (0 <? y) && (y <? height - 1) in
       let hasEdge :=
         negb (bool_decide (at_ (-1) = center)) || negb (bool_decide (at_ 1 = center)) ||
         negb (bool_decide (at_ (- width) = center)) || negb (bool_decide (at_ width = center)) in
       if interior && hasEdge then
         let sum :=
           fold_left Dominant.add_u
             [at_ (- width); at_ (- width + 1); at_ (-1); center; at_ 1;
              at_ (width - 1); at_ width; at_ (width + 1)]
             (at_ (- width - 1)) in
         aset smoothed idx (default 0 (Dominant.average sum 9) mod 256)
       else aset smoothed idx (default 0 center))
    (y ← seqZ 0 height; x ← seqZ 0 width; [(y, x)])
    (replicate (Z.to_nat (width * height)) 0).

(** The body of [decontaminateEdges] for the pixel at [(x, y)]. *)
Definition decontaminatePixel (alphaMask : list Z) (width height : Z)
    (bgColor : Color.t) (edgeRadius : Z) (imageData : list Z) (yx : Z * Z) : list Z :=
  let '(y, x) := yx in
  let idx := y * width + x in
  let alpha := aget alphaMask idx in
  if bool_decide (alpha = Some 0) then imageData else
  let isEdge := isEdgePixel alphaMask x y width height in
  if negb isEdge && bool_decide (alpha = Some 255) then imageData else
  let pixelIdx := JS.shl2 idx in
  let r := aget imageData pixelIdx in
  let g := aget imageData (pixelIdx + 1) in
  let b := aget imageData (pixelIdx + 2) in
  let bgSimilarity :=
    (1 - JS.Math_min 1
           (colorDistance r g b (Color.r bgColor) (Color.g bgColor) (Color.b bgColor) / 200))%float in
  let bgInfluence := (1 - num_u alpha / 255)%float in
  let decontamStrength :=
    JS.Math_min 1 ((bgInfluence + bgSimilarity * 0.5) * (if isEdge then 1.2 else 0.8))%float in
  if PrimFloat.ltb 0.05 decontamStrength then
    let '(sumR, sumG, sumB, count) :=
      fold_left
        (fun (acc : option Z * option Z * option Z * Z) (d : Z * Z) =>
           let '(sumR, sumG, sumB, count) := acc in
           let '(dy, dx) := d in
           if (dx =? 0) && (dy =? 0) then acc else
           let nx := x + dx in
           let ny := y + dy in
           if (nx <? 0) || (width <=? nx) || (ny <? 0) || (height <=? ny) then acc else
           let nIdx := ny * width + nx in
           if bool_decide (aget alphaMask nIdx = Some 255)
              && negb (isEdgePixel alphaMask nx ny width height) then
             let nPixelIdx := JS.shl2 nIdx in
             (Dominant.add_u sumR (aget imageData nPixelIdx),
              Dominant.add_u sumG (aget imageData (nPixelIdx + 1)),
              Dominant.add_u sumB (aget imageData (nPixelIdx + 2)),
              count + 1)
           else acc)
        (dy ← seqZ (- edgeRadius) (2 * edgeRadius + 1);
         dx ← seqZ (- edgeRadius) (2 * edgeRadius + 1); [(dy, dx)])
        (Some 0, Some 0, Some 0, 0) in
    if 0 <? count then
      let clean (c sum bg : option Z) : Z :=
        let avg := (num_u sum / JS.Z2F count)%float in
        let v := (num_u c + (avg - num_u c) * decontamStrength * 0.7
                  - (num_u bg - num_u c) * bgSimilarity * 0.3)%float in
        JS.ToUint8Clamp (JS.Math_round (JS.Math_max 0 (JS.Math_min 255 v))) in
      let imageData := aset imageData pixelIdx (clean r sumR (Color.r bgColor)) in
      let imageData := aset imageData (pixelIdx + 1) (clean g sumG (Color.g bgColor)) in
      aset imageData (pixelIdx + 2) (clean b sumB (Color.b bgColor))
    else imageData
  else imageData.

Definition decontaminateEdges (imageData alphaMask : list Z) (width height : Z)
    (bgColor : Color.t) (radius : Z) : list Z :=
  let edgeRadius := Z.max 1 (Z.min radius 10) in
  fold_left (decontaminatePixel alphaMask width height bgColor edgeRadius)
    (y ← seqZ 0 height; x ← seqZ 0 width; [(y, x)])
    imageData.

End EdgeProcessing.

(** ** processImage *)

Definition chunkSize : Z := 250000.
Definition PROGRESS_UPDATE_INTERVAL : float := 10%float.

Definition useAdvancedEdge (edgeMode : EdgeMode.t) : bool :=
  match edgeMode with
  | EdgeMode.decontaminate | EdgeMode.smooth | EdgeMode.refine => true
  | _ => false
  end.

Definition effectiveThreshold (settings : ProcessingSettings) : JS.number :=
  match mode settings with
  | Mode.auto => autoThreshold settings
  | _ => threshold settings
  end.

(** The dominant colour [processImage] compares against. *)
Definition referenceColor (img : ImageData) (settings : ProcessingSettings) : Color.t :=
  match mode settings with
  | Mode.colorPicker => Color.mk (Some 255) (Some 255) (Some 255)
  | _ => detectDominantColor img
  end.

(** The test [distSq < limit * limit] of the classifier; a NaN distance
    compares false. *)
Definition matches (distSq : option Z) (limit : JS.number) : bool :=
  match distSq with
  | Some d => JS.nltb (JS.Int d) (JS.nmul limit limit)
  | None => false
  end.

(** What phase 1 does to a pixel that matched at squared distance [distSq]
    against the limit [limit]; the state is [(data, alphaMask)]. *)
Definition on_match (settings : ProcessingSettings) (i pixelIndex : Z)
    (distSq : option Z) (limit : JS.number) (st : list Z * option (list Z)) :
    list Z * option (list Z) :=
  let dist := PrimFloat.sqrt (num_u distSq) in
  match useAdvancedEdge (edgeMode settings), snd st with
  | true, Some alphaMask =>
      let ratio := (dist / JS.toF limit)%float in
      (fst st, Some (aset alphaMask i (JS.ToUint8 (JS.Math_round (ratio * 255)))))
  | _, _ =>
      match edgeMode settings with
      | EdgeMode.hard => (aset (fst st) (pixelIndex + 3) 0, snd st)
      | _ =>
          (aset (fst st) (pixelIndex + 3)
             (JS.ToUint8Clamp
                (gaussianFalloff dist (JS.toF limit * 0.7)%float
                   (JS.Z2F (featherRadius settings)))),
           snd st)
      end
  end.

(** [for (j = 0; j < colorPickerData.length; j++)] with [break] at the
    first match. *)
Fixpoint pickFirst (settings : ProcessingSettings) (i pixelIndex : Z)
    (r g b : option Z) (colorPickerData : list SelectedColor.t)
    (st : list Z * option (list Z)) : list Z * option (list Z) :=
  match colorPickerData with
  | [] => st
  | selected :: colorPickerData' =>
      let distSq :=
        colorDistanceSquared_u r g b (Some (SelectedColor.r selected))
          (Some (SelectedColor.g selected)) (Some (SelectedColor.b selected)) in
      if matches distSq (SelectedColor.tolerance selected) then
        on_match settings i pixelIndex distSq (SelectedColor.tolerance selected) st
      else pickFirst settings i pixelIndex r g b colorPickerData' st
  end.

(** The body of the pixel loop of phase 1, for pixel [i]. *)
Definition classifyPixel (settings : ProcessingSettings) (dominantColor : Color.t)
    (st : list Z * option (list Z)) (i : Z) : list Z * option (list Z) :=
  let pixelIndex := JS.shl2 i in
  let r := aget (fst st) pixelIndex in
  let g := aget (fst st) (pixelIndex + 1) in
  let b := aget (fst st) (pixelIndex + 2) in
  match mode settings with
  | Mode.colorPicker =>
      pickFirst settings i pixelIndex r g b (selectedColors settings) st
  | _ =>
      let distSq :=
        colorDistanceSquared_u r g b (Color.r dominantColor) (Color.g dominantColor)
          (Color.b dominantColor) in
      if matches distSq (effectiveThreshold settings) then
        on_match settings i pixelIndex distSq (effectiveThreshold settings) st
      else st
  end.

(** [for (i = chunkStart; i < chunkEnd; i++)] *)
Definition classifyChunk (settings : ProcessingSettings) (dominantColor : Color.t)
    (chunkStart chunkEnd : Z) (st : list Z * option (list Z)) : list Z * option (list Z) :=
  fold_left (classifyPixel settings dominantColor) (seqZ chunkStart (chunkEnd - chunkStart)) st.

(** The values [chunkStart] takes: 0, chunkSize, 2 chunkSize, ... below
    [totalPixels]. *)
Definition chunkStarts (totalPixels : Z) : list Z :=
  (fun k => chunkSize * k) <$> seqZ 0 ((totalPixels + chunkSize - 1) / chunkSize).

(** The variables of a running job. *)
Record job := mkJob {
  jdata : list Z;                    (* imageData.data *)
  jmask : option (list Z);           (* alphaMask *)
  lastProgressUpdate : float;
  isCancelled : bool;                (* the worker's flag *)
  yields : nat;                      (* awaits completed so far *)
  posted : list WorkerResponse       (* messages posted so far, oldest first *)
}.

Definition post (m : WorkerResponse) (j : job) : job :=
  mkJob (jdata j) (jmask j) (lastProgressUpdate j) (isCancelled j) (yields j) (posted j ++ [m]).

(** How a phase ends: the function has returned (after posting [cancelled]),
    or control goes on to what follows. *)
Inductive flow := Stop (j : job) | Go (j : job).

(** Phase 1.  [cancelAt k] tells whether the worker handles a [cancel]
    message while the job is suspended in its [k]-th [await] (counted from
    0): only then can [isCancelled] change. *)
Fixpoint phase1 (cancelAt : nat -> bool) (settings : ProcessingSettings)
    (dominantColor : Color.t) (totalPixels : Z) (starts : list Z) (j : job) : flow :=
  match starts with
  | [] => Go j
  | chunkStart :: starts' =>
      if isCancelled j then Stop (post cancelled j)
      else
        let chunkEnd := Z.min (chunkStart + chunkSize) totalPixels in
        let st := classifyChunk settings dominantColor chunkStart chunkEnd (jdata j, jmask j) in
        let processedPixels := chunkEnd in
        let fraction := (JS.Z2F processedPixels / JS.Z2F totalPixels)%float in
        let percent :=
          if useAdvancedEdge (edgeMode settings) then JS.Math_round (fraction * 50)
          else JS.Math_round (fraction * 100) in
        let report := PrimFloat.leb (lastProgressUpdate j + PROGRESS_UPDATE_INTERVAL) percent in
        let j' :=
          mkJob (fst st) (snd st)
            (if report then percent else lastProgressUpdate j)
            (* await new Promise(resolve => setTimeout(resolve, 0)) *)
            (isCancelled j || cancelAt (yields j))
            (S (yields j))
            (if report then posted j ++ [progress percent] else posted j) in
        phase1 cancelAt settings dominantColor totalPixels starts' j'
  end.

Section Pipeline.

Variable Math_exp : float -> float.

(** [for (i = 0; i < totalPixels; i++) data[(i << 2) + 3] = processedMask[i]] *)
Definition applyMask (processedMask : list Z) (totalPixels : Z) (data : list Z) : list Z :=
  fold_left
    (fun data i => aset data (JS.shl2 i + 3) (default 0 (aget processedMask i)))
    (seqZ 0 totalPixels) data.

(** Phase 2: the advanced edge modes. *)
Definition phase2 (img : ImageData) (settings : ProcessingSettings)
    (dominantColor : Color.t) (j : job) : flow :=
  match useAdvancedEdge (edgeMode settings), jmask j with
  | true, Some alphaMask =>
      if isCancelled j then Stop (post cancelled j)
      else
        let j := post (progress 60) j in
        let w := width img in
        let h := height img in
        let processedMask :=
          match edgeMode settings with
          | EdgeMode.smooth => smoothEdges Math_exp alphaMask w h (featherRadius settings)
          | EdgeMode.refine => refineEdges alphaMask w h (featherRadius settings)
          | EdgeMode.decontaminate =>
              smoothEdges Math_exp alphaMask w h (Z.max 1 (featherRadius settings / 2))
          | _ => alphaMask
          end in
        if isCancelled j then Stop (post cancelled j)
        else
          let j := post (progress 80) j in
          let data := applyMask processedMask (w * h) (jdata j) in
          let data :=
            match edgeMode settings with
            | EdgeMode.decontaminate =>
                let bgColor :=
                  match mode settings, selectedColors settings with
                  | Mode.colorPicker, c :: _ =>
                      Color.mk (Some (SelectedColor.r c)) (Some (SelectedColor.g c))
                        (Some (SelectedColor.b c))
                  | _, _ => dominantColor
                  end in
                decontaminateEdges data processedMask w h bgColor (featherRadius settings)
            | _ => data
            end in
          Go (post (progress 95)
                (mkJob data (jmask j) (lastProgressUpdate j) (isCancelled j) (yields j) (posted j)))
  | _, _ => Go j
  end.

(** Stamping one applied region onto the alpha channel; [None] when
    [decodeMaskFromRLE] raises. *)
Definition stampRegion (width : Z) (data : list Z) (region : MagicRegion) : option (list Z) :=
  let b := Region.bounds region in
  let maskWidth := bwidth b in
  let maskHeight := bheight b in
  let alphaValue := match Region.mode region with keep => 255 | remove => 0 end in
  match RLE.decodeMaskFromRLE (Region.maskRLE region) (maskWidth * maskHeight) with
  | None => None
  | Some mask =>
      Some (fold_left
              (fun data (l : Z * Z) =>
                 let '(localY, localX) := l in
                 let globalY := by_ b + localY in
                 let rowOffset := globalY * width in
                 let maskRowOffset := localY * maskWidth in
                 if gt_u (aget mask (maskRowOffset + localX)) 0 then
                   let pixelIndex := JS.shl2 (rowOffset + bx b + localX) + 3 in
                   aset data pixelIndex alphaValue
                 else data)
              (localY ← seqZ 0 maskHeight; localX ← seqZ 0 maskWidth; [(localY, localX)])
              data)
  end.

(** [for (const region of magicSelection.appliedRegions)] *)
Fixpoint stampRegions (width : Z) (regions : list MagicRegion) (data : list Z) :
    option (list Z) :=
  match regions with
  | [] => Some data
  | region :: regions' =>
      match stampRegion width data region with
      | Some data' => stampRegions width regions' data'
      | None => None
      end
  end.

(** [alphaMask]: [null] with hard or feathered edges, otherwise
    [new Uint8Array(totalPixels)] filled with 255; [None] when the
    allocation raises. *)
Definition newAlphaMask (settings : ProcessingSettings) (totalPixels : Z) :
    option (option (list Z)) :=
  if useAdvancedEdge (edgeMode settings) then
    match Uint8Array_new totalPixels with
    | Some alphaMask => Some (Some ((fun _ => 255) <$> alphaMask))   (* alphaMask.fill(255) *)
    | None => None
    end
  else Some None.

(** [processImage(imageData, settings)], started with the worker's flag
    cleared.  The result is the list of messages posted, and the message of
    the exception the function ended with, if any. *)
Definition processImage (cancelAt : nat -> bool) (img : ImageData)
    (settings : ProcessingSettings) : list WorkerResponse * option ErrorMessage :=
  let totalPixels := width img * height img in
  let dominantColor := referenceColor img settings in
  match newAlphaMask settings totalPixels with
  | None => ([], Some RangeError_message)
  | Some alphaMask =>
      let j0 := mkJob (data img) alphaMask 0%float false O [] in
      match phase1 cancelAt settings dominantColor totalPixels (chunkStarts totalPixels) j0 with
      | Stop j => (posted j, None)
      | Go j =>
          match phase2 img settings dominantColor j with
          | Stop j => (posted j, None)
          | Go j =>
              match stampRegions (width img) (appliedRegions (magicSelection settings))
                      (jdata j) with
              | None => (posted j, Some RangeError_message)
              | Some data =>
                  (posted j ++ [complete (mkImageData (width img) (height img) data)], None)
              end
          end
      end
  end.

(** ** The message handler *)

Inductive WorkerMessage :=
  | process (imageData : ImageData) (settings : ProcessingSettings)
  | calculateAutoThresholdMsg (imageData : ImageData)        (* 'calculateAutoThreshold' *)
  | magicSelectMsg (imageData : ImageData) (x y : Z) (tolerance : JS.number)   (* 'magicSelect' *)
  | cancel.

(** [self.onmessage] for one message: the messages posted in response.
    For [process], [cancelAt] is the schedule of [cancel] messages handled
    while the job is suspended.  [None] when [magicSelect] has not returned
    within [fuel] iterations. *)
Definition onmessage (fuel : nat) (uuid : string) (cancelAt : nat -> bool)
    (message : WorkerMessage) : option (list WorkerResponse) :=
  match message with
  | process imageData settings =>
      match processImage cancelAt imageData settings with
      | (out, None) => Some out
      | (out, Some errorMessage) => Some (out ++ [error errorMessage])
      end
  | calculateAutoThresholdMsg imageData =>
      let result := calculateAutoThreshold imageData in
      Some [autoThresholdResult (fst result) (snd result)]
  | magicSelectMsg imageData x y tolerance =>
      match magicSelect fuel uuid imageData x y tolerance with
      | Some magicRegion => Some [magicSelectResult magicRegion]
      | None => None
      end
  | cancel => Some []
  end.

End Pipeline.

(** ** More of lib/maskUtils.ts *)

Module MaskUtils.
Import RLE.

(** The loop of [isPixelSelectedInRLE].  [right2] is twice [right]:
    [rle.length / 2 - 1] is a half-integer when the length is odd, so
    [left <= right] is [2 * left <= right2] and
    [mid = Math.floor((left + right) / 2)] is [(2 * left + right2) / 4].
    [None] when [fuel] iterations did not end the loop. *)
Fixpoint search (fuel : nat) (rle : list Z) (index left right2 : Z) : option bool :=
  if 2 * left <=? right2 then
    match fuel with
    | O => None
    | S fuel' =>
        let mid := (2 * left + right2) / 4 in
        let runStart := aget rle (mid * 2) in
        let runLength := aget rle (mid * 2 + 1) in
        let runEnd := Dominant.add_u runStart runLength in
        if le_u runStart index && gt_u runEnd index then Some true
        else if gt_u runStart index then search fuel' rle index left ((mid - 1) * 2)
        else search fuel' rle index (mid + 1) right2
    end
  else Some false.

Definition isPixelSelectedInRLE (rle : list Z) (index : Z) : option bool :=
  search (length rle) rle index 0 (Z.of_nat (length rle) - 2).

(** [rle.byteLength] of a [Uint32Array]: four bytes an entry. *)
Definition getRLEMemorySize (rle : list Z) : Z := 4 * Z.of_nat (length rle).

Definition getRawMaskMemorySize (width height : Z) : Z := width * height.

Definition getCompressionRatio (rle : list Z) (width height : Z) : float :=
  let rawSize := getRawMaskMemorySize width height in
  let rleSize := getRLEMemorySize rle in
  if 0 <? rleSize then (JS.Z2F rawSize / JS.Z2F rleSize)%float else infinity.

(** [CompressedMask] *)
Record CompressedMask := mkCompressedMask {
  rle : list Z;
  cwidth : Z;      (* width *)
  cheight : Z;     (* height *)
  cpixelCount : Z  (* pixelCount *)
}.

Definition compressMask (mask : list Z) (width height : Z) : CompressedMask :=
  let rle := encodeMaskToRLE mask in
  let pixelCount := countPixelsInRLE rle in
  mkCompressedMask rle width height pixelCount.

Definition decompressMask (compressed : CompressedMask) : option (list Z) :=
  decodeMaskFromRLE (rle compressed) (cwidth compressed * cheight compressed).

End MaskUtils.

(** * Vocabulary of the statements *)

(** ** Masks *)

(** A binary mask: every entry is 0 or 1. *)
Definition binary (mask : list Z) : Prop := Forall (fun v => v = 0 \/ v = 1) mask.

(** [covered rle size k]: index [k] lies in a run of [rle] clipped to
    [size]. *)
Fixpoint covered (rle : list Z) (size k : Z) : bool :=
  match rle with
  | start :: length :: rle' =>
      ((start <=? k) && (k <? Z.min (start + length) size)) || covered rle' size k
  | _ => false
  end.

(** A well-formed RLE mask within [size], as the data model has it: runs
    of positive length, sorted, non-overlapping and non-adjacent, the first
    not before [lo], the last ending at or before [size]. *)
Fixpoint canonical (lo size : Z) (rle : list Z) : Prop :=
  match rle with
  | [] => True
  | start :: length :: rle' =>
      lo <= start /\ 0 < length /\ start + length <= size /\
      canonical (start + length + 1) size rle'
  | [_] => False
  end.

(** A mask as [encodeMaskToRLE] reads it: 1 where the entry is greater
    than 0, and 0 elsewhere. *)
Definition binarise (mask : list Z) : list Z :=
  (fun v => if 0 <? v then 1 else 0) <$> mask.

(** The [m]-th run of an RLE array is [[s, s + l)]. *)
Definition run_at (rle : list Z) (m s l : Z) : Prop :=
  aget rle (2 * m) = Some s /\ aget rle (2 * m + 1) = Some l.

(** ** Buffers and settings *)

(** The platform's invariant of an [ImageData]. *)
Definition wf_image (img : ImageData) : Prop :=
  0 <= width img /\ 0 <= height img /\
  Z.of_nat (length (data img)) = 4 * (width img * height img).



(** Every alpha byte (index 3 modulo 4) of the buffer is 0 or 255. *)
Definition alpha_binary (d : list Z) : Prop :=
  forall i v, aget d i = Some v -> i mod 4 = 3 -> v = 0 \/ v = 255.

Definition alpha_binaryb (d : list Z) : bool :=
  forallb
    (fun i => if i mod 4 =? 3
              then match aget d i with Some v => (v =? 0) || (v =? 255) | None => true end
              else true)
    (seqZ 0 (Z.of_nat (length d))).

(** [d] and [d0] have the same length and the same bytes outside the alpha
    positions. *)
Definition same_rgb (d0 d : list Z) : Prop :=
  length d = length d0 /\ forall i, i mod 4 <> 3 -> aget d i = aget d0 i.

(** A 4x4 buffer, white everywhere but black at (2,2); [alpha] gives the
    alpha byte of each pixel. *)
Definition scenario_image (alpha : Z -> Z) : ImageData :=
  mkImageData 4 4
    (i ← seqZ 0 16;
     if i =? 2 * 4 + 2 then [0; 0; 0; alpha i] else [255; 255; 255; alpha i]).

(** A white pixel and a black one, and the settings used below: manual
    mode, threshold 10, hard edges, no applied region. *)
Definition two_pixels (alpha : Z) : ImageData :=
  mkImageData 2 1 [255; 255; 255; 255; 0; 0; 0; alpha].

Definition manual_hard (t : Z) : ProcessingSettings :=
  mkSettings Mode.manual (JS.Int t) (JS.Int 0) [] EdgeMode.hard 2
    (mkMagicSelectionState false (JS.Int 32) None []).

(** ** Jobs *)

(** [stable ok P]: the property [P] of a buffer survives every store
    [(index, value)] that [ok] allows. *)
Definition stable (ok : Z -> Z -> Prop) (P : list Z -> Prop) : Prop :=
  forall d p v, P d -> ok p v -> P (aset d p v).

(** The stores of a [process] job: alpha indices only; in [hard] mode the
    values 0 and 255 only. *)
Definition job_store (edge : EdgeMode.t) (ok : Z -> Z -> Prop) : Prop :=
  (forall i, ok (JS.shl2 i + 3) 0) /\
  (forall i, ok (JS.shl2 i + 3) 255) /\
  (edge <> EdgeMode.hard -> forall i v, ok (JS.shl2 i + 3) v).

Definition no_complete (out : list WorkerResponse) : Prop :=
  forall img, complete img ∉ out.

(** What a phase hands on: the buffer still has the property, and no
    [complete] has been posted. *)
Definition flow_ok (P : list Z -> Prop) (f : flow) : Prop :=
  match f with
  | Stop j => no_complete (posted j)
  | Go j => P (jdata j) /\ no_complete (posted j)
  end.

(** The messages posted so far are progress reports. *)
Definition only_progress (out : list WorkerResponse) : Prop :=
  exists ps, out = progress <$> ps.

(** The test phase 1 applies to pixel [i] in auto and manual mode, on the
    buffer [d]: squared distance to the dominant colour below the squared
    threshold. *)
Definition classifiedBackground (img : ImageData) (settings : ProcessingSettings)
    (d : list Z) (i : Z) : bool :=
  let pixelIndex := JS.shl2 i in
  let dominantColor := referenceColor img settings in
  matches
    (colorDistanceSquared_u (aget d pixelIndex) (aget d (pixelIndex + 1))
       (aget d (pixelIndex + 2)) (Color.r dominantColor) (Color.g dominantColor)
       (Color.b dominantColor))
    (effectiveThreshold settings).

(** The number of pixels of [img] classified as background. *)
Definition backgroundCount (img : ImageData) (settings : ProcessingSettings) : nat :=
  length (List.filter (classifiedBackground img settings (data img))
            (seqZ 0 (width img * height img))).

(** The squared distance of pixel [i] of the buffer [d] to the colour the
    job compares against in auto and manual mode. *)
Definition referenceDistSq (img : ImageData) (settings : ProcessingSettings)
    (d : list Z) (i : Z) : option Z :=
  let pixelIndex := JS.shl2 i in
  let dominantColor := referenceColor img settings in
  colorDistanceSquared_u (aget d pixelIndex) (aget d (pixelIndex + 1))
    (aget d (pixelIndex + 2)) (Color.r dominantColor) (Color.g dominantColor)
    (Color.b dominantColor).

(** The alpha byte that phase 1 stores, with hard or feathered edges, for
    a pixel that matched at squared distance [distSq] against [limit]. *)
Definition matchedAlpha (settings : ProcessingSettings) (distSq : option Z)
    (limit : JS.number) : Z :=
  match edgeMode settings with
  | EdgeMode.hard => 0
  | _ =>
      JS.ToUint8Clamp
        (gaussianFalloff (PrimFloat.sqrt (num_u distSq)) (JS.toF limit * 0.7)%float
           (JS.Z2F (featherRadius settings)))
  end.

(** The alpha byte of pixel [i] after a job with hard or feathered edges
    in auto or manual mode: the stored value when the pixel is classified
    as background, the input's alpha byte otherwise. *)
Definition basicAlpha (img : ImageData) (settings : ProcessingSettings) (i : Z) : option Z :=
  if classifiedBackground img settings (data img) i
  then Some (matchedAlpha settings (referenceDistSq img settings (data img) i)
               (effectiveThreshold settings))
  else aget (data img) (4 * i + 3).

(** The buffer [d] of a job on [img] whose pixel loop stands at pixel [a]:
    colour bytes as in the input, alpha bytes final below [a] and as in
    the input from [a] on. *)
Definition classifiedUpTo (img : ImageData) (settings : ProcessingSettings)
    (a : Z) (d : list Z) : Prop :=
  same_rgb (data img) d /\
  forall p, 0 <= p < width img * height img ->
    aget d (4 * p + 3) = if p <? a then basicAlpha img settings p else aget (data img) (4 * p + 3).

(** ** Pixel loops and edges *)

(** The pixels [(y, x)] of a [width] x [height] image, in the order of the
    nested loops [for y ... for x ...]. *)
Definition pixels (width height : Z) : list (Z * Z) :=
  y ← seqZ 0 height; x ← seqZ 0 width; [(y, x)].

(** The 4-neighbours of [(x, y)] inside the image hold the same value as
    the pixel itself. *)
Definition flat_at (mask : list Z) (width height x y : Z) : Prop :=
  let idx := y * width + x in
  (0 < x -> aget mask (idx - 1) = aget mask idx) /\
  (x < width - 1 -> aget mask (idx + 1) = aget mask idx) /\
  (0 < y -> aget mask (idx - width) = aget mask idx) /\
  (y < height - 1 -> aget mask (idx + width) = aget mask idx).

(** No pixel can match: no colour is picked in colour-picker mode; the
    threshold in use is 0 in the other modes. *)
Definition matches_nothing (settings : ProcessingSettings) : Prop :=
  match mode settings with
  | Mode.colorPicker => selectedColors settings = []
  | _ => effectiveThreshold settings = JS.Int 0
  end.

(** Settings of the examples: manual mode, threshold [t], no applied
    region. *)
Definition manual_edge (e : EdgeMode.t) (t : Z) : ProcessingSettings :=
  mkSettings Mode.manual (JS.Int t) (JS.Int 0) [] e 2
    (mkMagicSelectionState false (JS.Int 32) None []).

(** ** Applied regions *)

(** The alpha value an applied region stamps. *)
Definition stampValue (region : MagicRegion) : Z :=
  match Region.mode region with keep => 255 | remove => 0 end.

(** [stamps width region j]: stamping [region] onto a buffer of an image
    of that width stores at index [j], the alpha index of the image pixel
    under a set pixel of the region's mask. *)
Definition stamps (width : Z) (region : MagicRegion) (j : Z) : Prop :=
  let b := Region.bounds region in
  exists mask localX localY,
    RLE.decodeMaskFromRLE (Region.maskRLE region) (bwidth b * bheight b) = Some mask /\
    0 <= localX < bwidth b /\ 0 <= localY < bheight b /\
    gt_u (aget mask (localY * bwidth b + localX)) 0 = true /\
    j = JS.shl2 ((by_ b + localY) * width + bx b + localX) + 3.

(** The area [bounds.width * bounds.height] of every region is at least 0. *)
Definition areas_ok (regions : list MagicRegion) : bool :=
  forallb (fun region =>
             0 <=? bwidth (Region.bounds region) * bheight (Region.bounds region))
    regions.

(** Every allocation of a job succeeds: the pixel count is at least 0
    where an alpha mask is allocated, and so is the area of every applied
    region. *)
Definition allocations_ok (img : ImageData) (settings : ProcessingSettings) : bool :=
  negb (useAdvancedEdge (edgeMode settings) && (width img * height img <? 0))
  && areas_ok (appliedRegions (magicSelection settings)).

(** Settings of the examples: manual mode, threshold 10, hard edges, with
    the applied regions [regions]. *)
Definition manual_regions (regions : list MagicRegion) : ProcessingSettings :=
  mkSettings Mode.manual (JS.Int 10) (JS.Int 0) [] EdgeMode.hard 2
    (mkMagicSelectionState false (JS.Int 32) None regions).

(** A region of one pixel at [(x, y)]. *)
Definition one_pixel (x y : Z) (m : RegionMode) : MagicRegion :=
  Region.mk "u" [0; 1] (mkBounds x y 1 1) 1 (Color.mk None None None) m.

(** ** Solid colours *)

(** The pixel at [(x, y)] has the colour [(r, g, b)]. *)
Definition has_color (img : ImageData) (x y r g b : Z) : Prop :=
  let idx := (y * width img + x) * 4 in
  aget (data img) idx = Some r /\ aget (data img) (idx + 1) = Some g /\
  aget (data img) (idx + 2) = Some b.

(** The side of the corner blocks that [detectDominantColor] samples. *)
Definition sampleSize (img : ImageData) : Z :=
  Z.min 20 (Z.min (width img) (height img) / 10).

(** The four corner blocks hold one colour. *)
Definition corners_solid (img : ImageData) (r g b : Z) : Prop :=
  forall x y, 0 <= x < width img -> 0 <= y < height img ->
    x < sampleSize img \/ width img - sampleSize img <= x ->
    y < sampleSize img \/ height img - sampleSize img <= y ->
    has_color img x y r g b.

(** The whole image holds one colour. *)
Definition solid (img : ImageData) (r g b : Z) : Prop :=
  forall x y, 0 <= x < width img -> 0 <= y < height img -> has_color img x y r g b.

(** An image of one colour, opaque. *)
Definition solid_image (w h r g b : Z) : ImageData :=
  mkImageData w h (_ ← seqZ 0 (w * h); [r; g; b; 255]).

(** ** Colour-picker mode *)

(** The squared distance of pixel [i] of the buffer [d] to a selected
    colour. *)
Definition selectedDistSq (d : list Z) (i : Z) (selected : SelectedColor.t) : option Z :=
  let pixelIndex := JS.shl2 i in
  colorDistanceSquared_u (aget d pixelIndex) (aget d (pixelIndex + 1))
    (aget d (pixelIndex + 2)) (Some (SelectedColor.r selected))
    (Some (SelectedColor.g selected)) (Some (SelectedColor.b selected)).

(** The first selected colour, in the order of the list, that pixel [i] of
    the buffer [d] is within tolerance of. *)
Definition pickedColor (settings : ProcessingSettings) (d : list Z) (i : Z) :
    option SelectedColor.t :=
  List.find
    (fun selected => matches (selectedDistSq d i selected) (SelectedColor.tolerance selected))
    (selectedColors settings).

(** The alpha byte of pixel [i] after a job with hard or feathered edges
    in colour-picker mode. *)
Definition pickerAlpha (img : ImageData) (settings : ProcessingSettings) (i : Z) : option Z :=
  match pickedColor settings (data img) i with
  | Some selected =>
      Some (matchedAlpha settings (selectedDistSq (data img) i selected)
              (SelectedColor.tolerance selected))
  | None => aget (data img) (4 * i + 3)
  end.

(** The buffer [d] of such a job whose pixel loop stands at pixel [a]. *)
Definition pickedUpTo (img : ImageData) (settings : ProcessingSettings)
    (a : Z) (d : list Z) : Prop :=
  same_rgb (data img) d /\
  forall p, 0 <= p < width img * height img ->
    aget d (4 * p + 3) = if p <? a then pickerAlpha img settings p else aget (data img) (4 * p + 3).

(** Settings of the examples: colour-picker mode with hard edges. *)
Definition picker_hard (colors : list SelectedColor.t) : ProcessingSettings :=
  mkSettings Mode.colorPicker (JS.Int 10) (JS.Int 0) colors EdgeMode.hard 2
    (mkMagicSelectionState false (JS.Int 32) None []).

(** ** Doubles *)

(** [W / u] rounded to the nearest integer, ties to even. *)
Definition rne (W u : Z) : Z :=
  let q := W / u in
  let r := W mod u in
  if 2 * r <? u then q
  else if u <? 2 * r then q + 1
  else if Z.even q then q else q + 1.

(** Where the remainder [r] of a division by [u] lies in its interval. *)
Definition loc_of (r u : Z) : location :=
  if r =? 0 then loc_Exact else loc_Inexact (2 * r ?= u).

(** The doubles that are not below zero: the zeros, the positive finite
    ones and the positive infinity. *)
Definition nn (x : spec_float) : bool :=
  match x with
  | S754_zero _ | S754_finite false _ _ | S754_infinity false => true
  | _ => false
  end.

(** Such a double in units of 2^-1074, the smallest positive double; the
    infinity counts as 2^1024. *)
Definition vord (x : spec_float) : Z :=
  match x with
  | S754_zero _ => 0
  | S754_finite false m e => Zpos m * 2 ^ (e + 1074)
  | S754_infinity false => 2 ^ 2098
  | _ => -1
  end.

Definition fv (f : float) : Z := vord (Prim2SF f).

(** Rounding to a double: [W] is in units of 2^-2148, the result in units
    of 2^-1074.  The unit in the last place of the result is
    [2 ^ ulp_exp W] of the latter. *)
Definition ulp_exp (W : Z) : Z := Z.max (Zdigits2 W - 1127) 0.

Definition rndv (W : Z) : Z :=
  Z.min (2 ^ 2098) (rne W (2 ^ (ulp_exp W + 1074)) * 2 ^ ulp_exp W).

(** ** Thresholds *)

(** A threshold that is not below zero. *)
Definition nonneg (t : JS.number) : Prop := JS.nleb (JS.Int 0) t = true.

(** An [Int] stands for a double, and arithmetic on it is that of the
    integers: for a threshold that holds where its square is below 2^53.
    A larger integer is a [Dbl] like any other double. *)
Definition exact_square (t : JS.number) : Prop :=
  match t with
  | JS.Int z => Z.abs z <= 2 ^ 26
  | JS.Dbl _ => True
  end.

(** ** The automatic threshold *)

(** The threshold of bin [optimalBin] lies in [20, 150]. *)
Definition clamp_in_range (optimalBin : Z) : bool :=
  PrimFloat.leb 20 (Otsu.clamp optimalBin) && PrimFloat.leb (Otsu.clamp optimalBin) 150.

(** ** Invariants of the flood fill *)

Module FloodInv.
Import Flood.

(** The number of pixels not yet visited. *)
Definition unvisited (visited : list Z) : nat := length (List.filter (Z.eqb 0) visited).

(** The measure that bounds the remaining iterations. *)
Definition measure (st : state) : nat := (length (stack st) + unvisited (visited st))%nat.

(** The pixel [(x, y)] lies inside the image. *)
Definition inside (img : ImageData) (xy : Z * Z) : Prop :=
  0 <= fst xy < width img /\ 0 <= snd xy < height img.

(** The squared distance of the pixel of row-major index [p] to the seed
    colour. *)
Definition distSqAt (img : ImageData) (seed : Color.t) (p : Z) : option Z :=
  colorDistanceSquared_u (aget (data img) (4 * p)) (aget (data img) (4 * p + 1))
    (aget (data img) (4 * p + 2)) (Color.r seed) (Color.g seed) (Color.b seed).

Definition accepted (img : ImageData) (seed : Color.t) (thr : JS.number) (p : Z) : Prop :=
  within (distSqAt img seed p) thr = true.

(** What holds of the loop's variables from the start. *)
Definition structural (img : ImageData) (st : state) : Prop :=
  Z.of_nat (length (visited st)) = width img * height img /\
  Z.of_nat (length (selected st)) = width img * height img /\
  Forall (inside img) (stack st).

(** What holds once the seed has been selected: a selected pixel passed the
    test and lies in the running box, and each side of the box is attained
    by a selected pixel. *)
Definition semantic (img : ImageData) (seed : Color.t) (thr : JS.number) (st : state) : Prop :=
  (forall p v, aget (selected st) p = Some v ->
     v = 0 \/
     (v = 1 /\ accepted img seed thr p /\
      minX st <= p mod width img <= maxX st /\ minY st <= p / width img <= maxY st)) /\
  (exists p, aget (selected st) p = Some 1 /\ p mod width img = minX st) /\
  (exists p, aget (selected st) p = Some 1 /\ p mod width img = maxX st) /\
  (exists p, aget (selected st) p = Some 1 /\ p / width img = minY st) /\
  (exists p, aget (selected st) p = Some 1 /\ p / width img = maxY st).

(** The state after selecting the pixel [(x, y)] popped from the stack. *)
Definition accept (img : ImageData) (x y : Z) (stack' : list (Z * Z)) (rv gv bv : Z)
    (st : state) : state :=
  let vs := neighbours (width img) (height img) x y (visited st, stack') in
  mkState (snd vs) (fst vs) (aset (selected st) (y * width img + x) 1)
    (if x <? minX st then x else minX st)
    (if maxX st <? x then x else maxX st)
    (if y <? minY st then y else minY st)
    (if maxY st <? y then y else maxY st)
    (totalR st + rv) (totalG st + gv) (totalB st + bv)
    (count st + 1).

(** A truthy entry of [selected]. *)
Definition is_set (o : option Z) : bool :=
  match o with Some v => negb (v =? 0) | None => false end.

(** Whether a stack entry has its row-major index inside the buffer. *)
Definition in_buffer (img : ImageData) (xy : Z * Z) : bool :=
  (0 <=? snd xy * width img + fst xy) &&
  (snd xy * width img + fst xy <? width img * height img).

(** An entry inside the buffer can push up to four entries when it is
    popped; one outside is dropped. *)
Definition weight (img : ImageData) (xy : Z * Z) : nat :=
  if in_buffer img xy then 5%nat else 1%nat.

Definition potential (img : ImageData) (visited : list Z) (stack : list (Z * Z)) : nat :=
  (sum_list_with (weight img) stack + 5 * unvisited visited)%nat.

(** No index on the stack makes [<< 2] wrap. *)
Definition no_wrap (img : ImageData) (xy : Z * Z) : Prop :=
  - 2 ^ 29 <= snd xy * width img + fst xy < 2 ^ 29.

Definition bounded (img : ImageData) (st : state) : Prop :=
  Z.of_nat (length (visited st)) = width img * height img /\ Forall (no_wrap img) (stack st).

(** The potential of a state. *)
Definition potential_of (img : ImageData) (st : state) : nat :=
  potential img (visited st) (stack st).

(** The row-major index of a stack entry. *)
Definition index (img : ImageData) (xy : Z * Z) : Z := snd xy * width img + fst xy.

(** The number of entries of a mask that are set. *)
Definition selectedCount (mask : list Z) : nat := length (List.filter (Z.ltb 0) mask).

(** [mask[i] > 0], the test of [encodeMaskToRLE], on an entry read. *)
Definition is_pos (o : option Z) : bool :=
  match o with Some v => 0 <? v | None => false end.

(** The indices of the entries of a mask that are set. *)
Definition indices (mask : list Z) : list Z :=
  filter (fun k => is_pos (aget mask k) = true) (seqZ 0 (Z.of_nat (length mask))).

(** What holds of [visited] and the stack while the neighbours of the
    pixel of index [p] are pushed; [sel] is [selected] before [p] is
    marked. *)
Definition pending (img : ImageData) (sel : list Z) (p : Z)
    (vs : list Z * list (Z * Z)) : Prop :=
  Z.of_nat (length (fst vs)) = width img * height img /\
  Forall (fun xy => inside img xy /\ aget (fst vs) (index img xy) = Some 1 /\
                    aget sel (index img xy) = Some 0 /\ index img xy <> p) (snd vs) /\
  NoDup (index img <$> snd vs) /\
  (forall q, aget (fst vs) q = Some 0 -> aget sel q = Some 0) /\
  aget (fst vs) p = Some 1.

(** Every pixel is pushed at most once and selected at most once:
    [pixelCount] is the number of entries set in [selected]. *)
Definition counted (img : ImageData) (st : state) : Prop :=
  Z.of_nat (length (visited st)) = width img * height img /\
  Z.of_nat (length (selected st)) = width img * height img /\
  Forall (fun xy => inside img xy /\ aget (visited st) (index img xy) = Some 1 /\
                    aget (selected st) (index img xy) = Some 0) (stack st) /\
  NoDup (index img <$> stack st) /\
  (forall q, aget (visited st) q = Some 0 -> aget (selected st) q = Some 0) /\
  count st = Z.of_nat (selectedCount (selected st)).


(** Two pixels are 4-neighbours. *)
Definition adjacent (a b : Z * Z) : Prop :=
  (snd b = snd a /\ (fst b = fst a - 1 \/ fst b = fst a + 1)) \/
  (fst b = fst a /\ (snd b = snd a - 1 \/ snd b = snd a + 1)).

(** The pixels a fill from [start] should select: [start] itself when it
    passes the test, and every pixel inside the image that passes the test
    and is a 4-neighbour of such a pixel. *)
Inductive connected (img : ImageData) (seed : Color.t) (thr : JS.number)
    (start : Z * Z) : Z * Z -> Prop :=
  | connected_start :
      accepted img seed thr (index img start) -> connected img seed thr start start
  | connected_step a b :
      connected img seed thr start a -> adjacent a b -> inside img b ->
      accepted img seed thr (index img b) -> connected img seed thr start b.




End FloodInv.

(** * Properties *)

(** ** Typed-array lemmas *)

Lemma aget_Some_range {A} (a : list A) i v :
  aget a i = Some v -> 0 <= i < Z.of_nat (length a).
Proof.
  unfold aget. destruct (Z.ltb_spec i 0); [done|].
  intros Hl%lookup_lt_Some. lia.
Qed.

Lemma aget_in_range {A} (a : list A) i :
  0 <= i < Z.of_nat (length a) -> is_Some (aget a i).
Proof.
  intros H. unfold aget. destruct (Z.ltb_spec i 0); [lia|].
  apply lookup_lt_is_Some. lia.
Qed.

Lemma aget_out_of_range {A} (a : list A) i :
  i < 0 \/ Z.of_nat (length a) <= i -> aget a i = None.
Proof.
  intros H. unfold aget. destruct (Z.ltb_spec i 0); [done|].
  apply lookup_ge_None. lia.
Qed.

Lemma length_aset {A} (a : list A) i v : length (aset a i v) = length a.
Proof. unfold aset. destruct (i <? 0); [done|]. apply length_insert. Qed.

Lemma aget_aset_eq {A} (a : list A) i v :
  0 <= i < Z.of_nat (length a) -> aget (aset a i v) i = Some v.
Proof.
  intros H. unfold aget, aset. destruct (Z.ltb_spec i 0); [lia|].
  apply list_lookup_insert_eq. lia.
Qed.

Lemma aget_aset_ne {A} (a : list A) i j v :
  i <> j -> aget (aset a i v) j = aget a j.
Proof.
  intros H. unfold aget, aset.
  destruct (Z.ltb_spec i 0), (Z.ltb_spec j 0); try done.
  apply list_lookup_insert_ne. lia.
Qed.

Lemma aset_out_of_range {A} (a : list A) i v :
  i < 0 \/ Z.of_nat (length a) <= i -> aset a i v = a.
Proof.
  intros H. unfold aset. destruct (Z.ltb_spec i 0); [done|].
  apply list_insert_ge. lia.
Qed.

Lemma aget_replicate {A} n (x : A) i :
  0 <= i < Z.of_nat n -> aget (replicate n x) i = Some x.
Proof.
  intros H. unfold aget. destruct (Z.ltb_spec i 0); [lia|].
  apply lookup_replicate_2. lia.
Qed.

Lemma aget_app_l {A} (a1 a2 : list A) i :
  i < Z.of_nat (length a1) -> aget (a1 ++ a2) i = aget a1 i.
Proof.
  intros H. unfold aget. destruct (Z.ltb_spec i 0); [done|].
  apply lookup_app_l. lia.
Qed.

Lemma aget_cons_0 {A} (x : A) l : aget (x :: l) 0 = Some x.
Proof. done. Qed.

Lemma aget_cons_pos {A} (x : A) l j : 0 < j -> aget (x :: l) j = aget l (j - 1).
Proof.
  intros Hj. unfold aget.
  destruct (Z.ltb_spec j 0), (Z.ltb_spec (j - 1) 0); try lia.
  replace (Z.to_nat j) with (S (Z.to_nat (j - 1))) by lia. done.
Qed.

(** Case analysis on every integer comparison in the goal. *)
Ltac zbool :=
  repeat match goal with
    | |- context [Z.ltb ?a ?b] => destruct (Z.ltb_spec a b)
    | |- context [Z.leb ?a ?b] => destruct (Z.leb_spec a b)
    | |- context [Z.eqb ?a ?b] => destruct (Z.eqb_spec a b)
    end; simpl.

(** Two arrays of the same length with the same entries are equal. *)
Lemma aget_ext {A} (a1 a2 : list A) :
  length a1 = length a2 ->
  (forall i, 0 <= i < Z.of_nat (length a1) -> aget a1 i = aget a2 i) ->
  a1 = a2.
Proof.
  intros Hlen H. apply list_eq. intros n.
  destruct (decide (n < length a1)%nat) as [Hn|Hn].
  - specialize (H (Z.of_nat n)). unfold aget in H.
    destruct (Z.ltb_spec (Z.of_nat n) 0); [lia|].
    rewrite Nat2Z.id in H. apply H. lia.
  - rewrite !lookup_ge_None_2; [done|lia..].
Qed.

(** ** The RLE codec *)

Module RLEFacts.
Import RLE.

Lemma length_fill mask s e : length (fill mask s e) = length mask.
Proof.
  unfold fill. generalize (seqZ s (e - s)). intros l. revert mask.
  induction l as [|j l IH]; intros mask; simpl; [done|].
  rewrite IH. apply length_aset.
Qed.

(** What [fill] leaves in the mask: ones on [[s, e)], the rest unchanged. *)
Lemma aget_fill mask s e i :
  0 <= s -> e <= Z.of_nat (length mask) ->
  aget (fill mask s e) i = if (s <=? i) && (i <? e) then Some 1 else aget mask i.
Proof.
  unfold fill. intros Hs He.
  destruct (Z.le_gt_cases e s) as [Hle|Hlt].
  { rewrite seqZ_nil by lia. simpl.
    destruct (Z.leb_spec s i), (Z.ltb_spec i e); simpl; try done. lia. }
  remember (Z.to_nat (e - s)) as n eqn:Hn.
  replace e with (s + Z.of_nat n) in * by lia. clear Hn Hlt.
  replace (s + Z.of_nat n - s) with (Z.of_nat n) by lia.
  revert mask He. induction n as [|n IH]; intros mask He.
  { simpl. destruct (Z.leb_spec s i), (Z.ltb_spec i (s + Z.of_nat 0)); simpl; try done. lia. }
  rewrite seqZ_S, fold_left_app. simpl.
  destruct (decide (i = s + Z.of_nat n)) as [->|Hne].
  - rewrite aget_aset_eq.
    + destruct (Z.leb_spec s (s + Z.of_nat n)), (Z.ltb_spec (s + Z.of_nat n) (s + Z.of_nat (S n)));
        simpl; try done; lia.
    + pose proof (length_fill mask s (s + Z.of_nat n)) as Hl. unfold fill in Hl.
      replace (s + Z.of_nat n - s) with (Z.of_nat n) in Hl by lia. rewrite Hl. lia.
  - rewrite aget_aset_ne by done. rewrite IH by lia.
    destruct (Z.leb_spec s i), (Z.ltb_spec i (s + Z.of_nat n)),
      (Z.ltb_spec i (s + Z.of_nat (S n))); simpl; try done; lia.
Qed.

(** The accumulator of the scan only grows at its end. *)
Lemma encode_loop_acc rest : forall i inRun rs runs,
  encode_loop rest i inRun rs runs = runs ++ encode_loop rest i inRun rs [].
Proof.
  induction rest as [|m rest IH]; intros i inRun rs runs; simpl.
  - destruct inRun; [done|]. by rewrite app_nil_r.
  - destruct (0 <? m), inRun; simpl.
    + apply IH.
    + apply IH.
    + rewrite (IH _ _ _ (runs ++ _)), (IH _ _ _ [_; _]). by rewrite <- app_assoc.
    + apply IH.
Qed.

(** Outside a run the stale [runStart] is irrelevant. *)
Lemma encode_loop_stale rest : forall i rs rs' runs,
  encode_loop rest i false rs runs = encode_loop rest i false rs' runs.
Proof.
  induction rest as [|m rest IH]; intros i rs rs' runs; simpl; [done|].
  destruct (0 <? m); simpl; [done|]. apply IH.
Qed.

(** Every entry the scan emits lies between 0 and the length of the mask. *)
Lemma encode_loop_range rest : forall i inRun rs,
  0 <= rs <= i ->
  Forall (fun v => 0 <= v <= i + Z.of_nat (length rest)) (encode_loop rest i inRun rs []).
Proof.
  induction rest as [|m rest IH]; intros i inRun rs Hrs; simpl.
  - destruct inRun; [|constructor].
    repeat constructor; lia.
  - destruct (0 <? m), inRun; simpl.
    + eapply Forall_impl; [apply IH; lia|]. simpl. intros; lia.
    + eapply Forall_impl; [apply (IH (i + 1) true i); lia|]. simpl. intros; lia.
    + rewrite encode_loop_acc. apply Forall_app. split.
      * repeat constructor; lia.
      * eapply Forall_impl; [apply (IH (i + 1) false rs); lia|]. simpl. intros; lia.
    + eapply Forall_impl; [apply (IH (i + 1) false rs); lia|]. simpl. intros; lia.
Qed.

Lemma map_ToUint32_id (l : list Z) (n : Z) :
  n < 2 ^ 32 -> Forall (fun v => 0 <= v <= n) l -> map JS.ToUint32 l = l.
Proof.
  intros Hn. induction 1 as [|v l Hv _ IH]; simpl; [done|].
  rewrite IH. f_equal. unfold JS.ToUint32. apply Z.mod_small. lia.
Qed.

(** Decoding what the scan emits.  [buf] is the mask under construction:
    zero from the pending position on; the scan stands at index [i], in a
    run that began at [rs] when [inRun]. *)
Lemma decode_encode_loop rest :
  forall (i : Z) (inRun : bool) (rs : Z) (buf : list Z) (n : Z),
  binary rest ->
  0 <= rs <= i ->
  n = i + Z.of_nat (length rest) ->
  Z.of_nat (length buf) = n ->
  (forall k, (if inRun then rs else i) <= k < n -> aget buf k = Some 0) ->
  forall k, 0 <= k < n ->
    aget (decode_loop (encode_loop rest i inRun rs []) n buf) k =
    if k <? (if inRun then rs else i) then aget buf k
    else if k <? i then Some 1
    else aget rest (k - i).
Proof.
  induction rest as [|m rest IH]; intros i inRun rs buf n Hbin Hrs Hn Hlen Hzero k Hk.
  - simpl in Hn. simpl. destruct inRun; simpl.
    + rewrite aget_fill by lia. zbool; try done; lia.
    + zbool; [done|lia].
  - apply Forall_cons in Hbin as [Hm Hbin]. simpl length in Hn.
    assert (Hn' : n = i + 1 + Z.of_nat (length rest)) by lia.
    assert (Htail : forall j, i < j -> aget (m :: rest) (j - i) = aget rest (j - (i + 1))).
    { intros j Hj. rewrite aget_cons_pos by lia. f_equal. lia. }
    assert (Hhead : aget (m :: rest) (i - i) = Some m).
    { replace (i - i) with 0 by lia. apply aget_cons_0. }
    destruct Hm as [-> | ->]; destruct inRun; simpl encode_loop.
    + (* a zero ends the run [rs, i) *)
      rewrite encode_loop_acc. simpl app. simpl decode_loop.
      rewrite (IH (i + 1) false rs _ n Hbin); try lia.
      * rewrite aget_fill by lia.
        destruct (decide (k = i)) as [->|Hne].
        -- rewrite Hhead, Hzero by lia. zbool; try done; lia.
        -- destruct (decide (i < k)) as [Hgt|Hle].
           ++ rewrite Htail by lia. zbool; try done; lia.
           ++ zbool; try done; lia.
      * rewrite length_fill. lia.
      * intros k' Hk'. rewrite aget_fill by lia. rewrite Hzero by lia. zbool; try done; lia.
    + (* a zero outside a run *)
      rewrite (IH (i + 1) false rs _ n Hbin); try lia.
      * destruct (decide (k = i)) as [->|Hne].
        -- rewrite Hhead, Hzero by lia. zbool; try done; lia.
        -- destruct (decide (i < k)) as [Hgt|Hle].
           ++ rewrite Htail by lia. zbool; try done; lia.
           ++ zbool; try done; lia.
      * intros k' Hk'. apply Hzero. lia.
    + (* a one inside a run *)
      rewrite (IH (i + 1) true rs _ n Hbin); try lia.
      * destruct (decide (k = i)) as [->|Hne].
        -- rewrite Hhead. zbool; try done; lia.
        -- destruct (decide (i < k)) as [Hgt|Hle].
           ++ rewrite Htail by lia. zbool; try done; lia.
           ++ zbool; try done; lia.
      * intros k' Hk'. apply Hzero. lia.
    + (* a one starts a run at [i] *)
      rewrite (IH (i + 1) true i _ n Hbin); try lia.
      * destruct (decide (k = i)) as [->|Hne].
        -- rewrite Hhead. zbool; try done; lia.
        -- destruct (decide (i < k)) as [Hgt|Hle].
           ++ rewrite Htail by lia. zbool; try done; lia.
           ++ zbool; try done; lia.
      * intros k' Hk'. apply Hzero. lia.
Qed.

Lemma length_decode_loop rle : forall n mask,
  length (decode_loop rle n mask) = length mask.
Proof.
  assert (H : (forall n mask, length (decode_loop rle n mask) = length mask) /\
              (forall s n mask, length (decode_loop (s :: rle) n mask) = length mask)).
  { induction rle as [|l rle [IH1 IH2]]; split; intros; simpl; try done.
    - apply IH2.
    - rewrite IH1. apply length_fill. }
  apply H.
Qed.

(** Re-encoding a mask that has less than 2^32 entries keeps every run. *)
Lemma encodeMaskToRLE_no_wrap (mask : list Z) :
  Z.of_nat (length mask) < 2 ^ 32 ->
  encodeMaskToRLE mask = encode_loop mask 0 false 0 [].
Proof.
  intros Hlen. unfold encodeMaskToRLE.
  apply (map_ToUint32_id _ (Z.of_nat (length mask))); [done|].
  apply (encode_loop_range mask 0 false 0). lia.
Qed.

(** The scan counts what it emits: the lengths of the runs add up to the
    number of selected entries seen, the open run included. *)
Lemma count_encode_loop rest : forall i inRun rs,
  countPixelsInRLE (encode_loop rest i inRun rs []) =
  (if inRun then i - rs else 0) + Z.of_nat (length (List.filter (Z.ltb 0) rest)).
Proof.
  induction rest as [|m rest IH]; intros i inRun rs; simpl.
  - destruct inRun; simpl; lia.
  - destruct (0 <? m), inRun; simpl.
    + rewrite IH. lia.
    + rewrite IH. lia.
    + rewrite encode_loop_acc. simpl. rewrite IH. lia.
    + rewrite IH. lia.
Qed.

(** [countPixelsInRLE] of the encoding of a mask is the number of selected
    (non-zero) entries of the mask, for a mask of less than 2^32 entries. *)
Theorem countPixels_encode (mask : list Z) :
  Z.of_nat (length mask) < 2 ^ 32 ->
  countPixelsInRLE (encodeMaskToRLE mask) = Z.of_nat (length (List.filter (Z.ltb 0) mask)).
Proof.
  intros Hlen. rewrite encodeMaskToRLE_no_wrap by done.
  rewrite count_encode_loop. lia.
Qed.

Lemma countPixels_encode_witness :
  countPixelsInRLE (encodeMaskToRLE [0; 1; 1; 0; 1]) =
  Z.of_nat (length (List.filter (Z.ltb 0) [0; 1; 1; 0; 1])).
Proof. apply countPixels_encode. simpl. lia. Defined.

(** [C2] RLE round trip: decoding the encoding of a binary mask at the
    mask's length gives the mask back.  The mask has less than 2^32
    entries, the range of the run fields of a [Uint32Array]. *)
Theorem rle_roundtrip (M : list Z) :
  binary M ->
  Z.of_nat (length M) < 2 ^ 32 ->
  decodeMaskFromRLE (encodeMaskToRLE M) (Z.of_nat (length M)) = Some M.
Proof.
  intros Hbin Hlen. unfold decodeMaskFromRLE, Uint8Array_new.
  destruct (Z.ltb_spec (Z.of_nat (length M)) 0); [lia|].
  f_equal. rewrite Nat2Z.id, encodeMaskToRLE_no_wrap by done.
  apply aget_ext.
  - by rewrite length_decode_loop, length_replicate.
  - intros k Hk. rewrite length_decode_loop, length_replicate in Hk.
    rewrite (decode_encode_loop M 0 false 0 _ (Z.of_nat (length M))); try done; try lia.
    + zbool; [lia|]. by rewrite Z.sub_0_r.
    + by rewrite length_replicate.
    + intros k' Hk'. apply aget_replicate. lia.
Qed.

Lemma rle_roundtrip_witness :
  decodeMaskFromRLE (encodeMaskToRLE [0; 1; 1; 0; 1]) 5 = Some [0; 1; 1; 0; 1].
Proof.
  apply (rle_roundtrip [0; 1; 1; 0; 1]).
  - unfold binary. repeat (apply Forall_cons_2; [lia|]). apply Forall_nil_2.
  - simpl. lia.
Defined.

(** *** Merging *)

Lemma aget_decode_loop rle : forall size buf k,
  Z.of_nat (length buf) = size ->
  Forall (fun v => 0 <= v) rle ->
  aget (decode_loop rle size buf) k =
  if covered rle size k then Some 1 else aget buf k.
Proof.
  assert (H : (forall size buf k, Z.of_nat (length buf) = size ->
                 Forall (fun v => 0 <= v) rle ->
                 aget (decode_loop rle size buf) k =
                 if covered rle size k then Some 1 else aget buf k) /\
              (forall s size buf k, Z.of_nat (length buf) = size ->
                 Forall (fun v => 0 <= v) (s :: rle) ->
                 aget (decode_loop (s :: rle) size buf) k =
                 if covered (s :: rle) size k then Some 1 else aget buf k)).
  { induction rle as [|l rle [IH1 IH2]]; split; intros; simpl; try done.
    - by apply IH2.
    - match goal with Hf : Forall _ _ |- _ =>
        apply Forall_cons in Hf as [Hs Hf]; apply Forall_cons in Hf as [Hl Hf] end.
      rewrite IH1; [|by rewrite length_fill|done].
      rewrite aget_fill by lia.
      destruct (covered rle size k); [by rewrite orb_true_r|].
      by rewrite orb_false_r. }
  apply H.
Qed.

Lemma length_or_loop mask1 mask2 size : length (or_loop mask1 mask2 size) = length mask1.
Proof.
  unfold or_loop. generalize (seqZ 0 size). intros l. revert mask1.
  induction l as [|i l IH]; intros mask1; simpl; [done|].
  rewrite IH. apply length_aset.
Qed.

(** The OR loop, entry by entry. *)
Lemma aget_or_loop mask1 mask2 size k :
  Z.of_nat (length mask1) = size -> 0 <= k < size ->
  aget (or_loop mask1 mask2 size) k =
  Some (Z.lor (default 0 (aget mask1 k)) (default 0 (aget mask2 k))).
Proof.
  intros Hlen Hk.
  assert (H : forall n : nat, Z.of_nat n <= size ->
            forall j, aget (or_loop mask1 mask2 (Z.of_nat n)) j =
              if (0 <=? j) && (j <? Z.of_nat n)
              then Some (Z.lor (default 0 (aget mask1 j)) (default 0 (aget mask2 j)))
              else aget mask1 j).
  { unfold or_loop. induction n as [|n IH]; intros Hn j.
    - simpl. zbool; try done; lia.
    - rewrite seqZ_S, fold_left_app. simpl. rewrite Z.add_0_l.
      destruct (decide (j = Z.of_nat n)) as [->|Hne].
      + rewrite aget_aset_eq.
        * rewrite IH by lia. zbool; try done; lia.
        * pose proof (length_or_loop mask1 mask2 (Z.of_nat n)) as Hl.
          unfold or_loop in Hl. rewrite Hl. lia.
      + rewrite aget_aset_ne by done. rewrite IH by lia. zbool; try done; lia. }
  specialize (H (Z.to_nat size)). rewrite Z2Nat.id in H by lia.
  rewrite H by lia. zbool; try done; lia.
Qed.

Lemma or_loop_comm mask1 mask2 size :
  Z.of_nat (length mask1) = size -> Z.of_nat (length mask2) = size ->
  or_loop mask1 mask2 size = or_loop mask2 mask1 size.
Proof.
  intros H1 H2. apply aget_ext.
  - rewrite !length_or_loop. lia.
  - intros k Hk. rewrite length_or_loop in Hk.
    rewrite !aget_or_loop by lia. by rewrite Z.lor_comm.
Qed.

Lemma or_loop_diag mask size :
  Z.of_nat (length mask) = size -> or_loop mask mask size = mask.
Proof.
  intros H1. apply aget_ext.
  - by rewrite length_or_loop.
  - intros k Hk. rewrite length_or_loop in Hk.
    rewrite aget_or_loop by lia. rewrite Z.lor_diag.
    destruct (aget_in_range mask k) as [v Hv]; [lia|]. by rewrite Hv.
Qed.

Lemma length_decodeMaskFromRLE rle size mask :
  decodeMaskFromRLE rle size = Some mask -> Z.of_nat (length mask) = size /\ 0 <= size.
Proof.
  unfold decodeMaskFromRLE, Uint8Array_new.
  destruct (Z.ltb_spec size 0); [done|]. intros [= <-].
  rewrite length_decode_loop, length_replicate. lia.
Qed.

Lemma mergeRLEMasks_comm a b size : mergeRLEMasks a b size = mergeRLEMasks b a size.
Proof.
  unfold mergeRLEMasks.
  destruct (decodeMaskFromRLE a size) as [m1|] eqn:H1,
           (decodeMaskFromRLE b size) as [m2|] eqn:H2; try done.
  apply length_decodeMaskFromRLE in H1 as [H1 _], H2 as [H2 _].
  by rewrite or_loop_comm.
Qed.

Lemma canonical_not_covered rle : forall lo size k,
  canonical lo size rle -> k < lo -> covered rle size k = false.
Proof.
  assert (H : (forall lo size k, canonical lo size rle -> k < lo -> covered rle size k = false) /\
              (forall s lo size k, canonical lo size (s :: rle) -> k < lo ->
                 covered (s :: rle) size k = false)).
  { induction rle as [|l rle [IH1 IH2]]; split.
    - done.
    - intros s lo size k Hc. simpl in Hc. done.
    - intros lo size k Hc Hk. by apply (IH2 l lo).
    - intros s lo size k Hc Hk. simpl in Hc |- *. destruct Hc as (? & ? & ? & Hc).
      rewrite (IH1 (s + l + 1)) by (done || lia).
      zbool; try done; lia. }
  apply H.
Qed.

Lemma canonical_nonneg rle : forall lo size,
  0 <= lo -> canonical lo size rle -> Forall (fun v => 0 <= v) rle.
Proof.
  assert (H : (forall lo size, 0 <= lo -> canonical lo size rle ->
                 Forall (fun v => 0 <= v) rle) /\
              (forall s lo size, 0 <= lo -> canonical lo size (s :: rle) ->
                 Forall (fun v => 0 <= v) (s :: rle))).
  { induction rle as [|l rle [IH1 IH2]]; split.
    - intros. apply Forall_nil_2.
    - intros s lo size Hlo Hc. simpl in Hc. done.
    - intros lo size Hlo Hc. by apply (IH2 l lo size).
    - intros s lo size Hlo Hc. simpl in Hc. destruct Hc as (? & ? & ? & Hc).
      apply Forall_cons_2; [lia|]. apply Forall_cons_2; [lia|].
      apply (IH1 (s + l + 1) size); [lia|done]. }
  apply H.
Qed.

(** Scanning a mask that holds exactly the runs of a canonical RLE gives
    that RLE back.  Outside a run the scan stands at [i] with the runs of
    [rle] ahead; inside one it stands in the run [[s, s + l)]. *)
Lemma encode_canonical size rest :
  (forall i rle rs,
     canonical i size rle -> i + Z.of_nat (length rest) = size ->
     (forall j, 0 <= j < Z.of_nat (length rest) ->
        aget rest j = Some (if covered rle size (i + j) then 1 else 0)) ->
     encode_loop rest i false rs [] = rle) /\
  (forall i s l rle,
     canonical s size (s :: l :: rle) -> s < i <= s + l ->
     i + Z.of_nat (length rest) = size ->
     (forall j, 0 <= j < Z.of_nat (length rest) ->
        aget rest j = Some (if covered (s :: l :: rle) size (i + j) then 1 else 0)) ->
     encode_loop rest i true s [] = s :: l :: rle).
Proof.
  induction rest as [|m rest [IH1 IH2]]; split.
  - intros i rle rs Hc Hlen _. simpl in *.
    destruct rle as [|s [|l rle]]; simpl in Hc; [done|done|lia].
  - intros i s l rle Hc Hi Hlen _. simpl in *. destruct_and!.
    assert (i = s + l) as -> by lia.
    destruct rle as [|s' [|l' rle]]; simpl in *; [|done|lia].
    do 2 f_equal. lia.
  - intros i rle rs Hc Hlen Hget. simpl length in Hlen, Hget.
    assert (Hm : m = if covered rle size i then 1 else 0).
    { specialize (Hget 0). rewrite aget_cons_0, Z.add_0_r in Hget.
      apply (inj Some). apply Hget. lia. }
    assert (Hrest : forall rle', (forall k, i < k -> covered rle' size k = covered rle size k) ->
              forall j, 0 <= j < Z.of_nat (length rest) ->
              aget rest j = Some (if covered rle' size (i + 1 + j) then 1 else 0)).
    { intros rle' Hsame j Hj. rewrite Hsame by lia.
      replace (i + 1 + j) with (i + (j + 1)) by lia. rewrite <- Hget by lia.
      rewrite aget_cons_pos by lia. f_equal. lia. }
    destruct rle as [|s [|l rle]]; simpl in Hc; [| done |].
    + simpl in Hm. subst m. simpl.
      apply (IH1 (i + 1) [] rs); [done|lia|]. by apply Hrest.
    + destruct Hc as (Hs & Hl & He & Hc).
      destruct (decide (i = s)) as [->|Hne].
      * replace (covered (s :: l :: rle) size s) with true in Hm
          by (simpl; zbool; try done; lia).
        subst m. simpl. apply IH2; [simpl; auto with lia|lia|lia|]. by apply Hrest.
      * rewrite (canonical_not_covered (s :: l :: rle) s size i) in Hm
          by (simpl; auto with lia).
        subst m. simpl. apply (IH1 (i + 1) _ rs); [simpl; auto with lia|lia|]. by apply Hrest.
  - intros i s l rle Hc Hi Hlen Hget. simpl length in Hlen, Hget.
    assert (Hm : m = if covered (s :: l :: rle) size i then 1 else 0).
    { specialize (Hget 0). rewrite aget_cons_0, Z.add_0_r in Hget.
      apply (inj Some). apply Hget. lia. }
    pose proof Hc as Hc'. simpl in Hc'. destruct Hc' as (_ & Hl & He & Hc').
    destruct (decide (i = s + l)) as [->|Hne].
    + assert (Hnc : covered (s :: l :: rle) size (s + l) = false).
      { simpl. rewrite (canonical_not_covered rle (s + l + 1)) by (done || lia).
        zbool; try done; lia. }
      rewrite Hnc in Hm. subst m. simpl. rewrite encode_loop_acc. simpl.
      replace (s + l - s) with l by lia. do 2 f_equal.
      apply (IH1 (s + l + 1) rle s); [done|lia|].
      intros j Hj. replace (s + l + 1 + j) with (s + l + (j + 1)) by lia.
      specialize (Hget (j + 1)). rewrite aget_cons_pos in Hget by lia.
      replace (j + 1 - 1) with j in Hget by lia. rewrite Hget by lia.
      simpl. zbool; try done; lia.
    + replace (covered (s :: l :: rle) size i) with true in Hm
        by (simpl; zbool; try done; lia).
      subst m. simpl. apply IH2; [done|lia|lia|].
      intros j Hj. replace (i + 1 + j) with (i + (j + 1)) by lia.
      rewrite <- Hget by lia. rewrite aget_cons_pos by lia. f_equal. lia.
Qed.

(** Merging a canonical mask with itself gives it back, when the mask
    lies within [size]. *)
Lemma mergeRLEMasks_idem a size :
  0 <= size < 2 ^ 32 -> canonical 0 size a -> mergeRLEMasks a a size = Some a.
Proof.
  intros Hsize Hc. unfold mergeRLEMasks.
  destruct (decodeMaskFromRLE a size) as [m|] eqn:Hd.
  2:{ unfold decodeMaskFromRLE, Uint8Array_new in Hd.
      destruct (Z.ltb_spec size 0); [lia|done]. }
  pose proof (length_decodeMaskFromRLE _ _ _ Hd) as [Hlen _].
  rewrite or_loop_diag by done. f_equal.
  rewrite encodeMaskToRLE_no_wrap by lia.
  apply (proj1 (encode_canonical size m) 0 a 0); [done|lia|].
  intros j Hj. unfold decodeMaskFromRLE, Uint8Array_new in Hd.
  destruct (Z.ltb_spec size 0); [lia|]. injection Hd as <-.
  rewrite aget_decode_loop.
  - rewrite Z.add_0_l. destruct (covered a size j); [done|].
    apply aget_replicate. lia.
  - rewrite length_replicate. lia.
  - by apply (canonical_nonneg a 0 size).
Qed.

(** [C8] Merging is commutative, for all RLE arrays and every size; and
    merging a mask with itself gives the mask back when the mask is
    canonical (runs of positive length, sorted, non-overlapping,
    non-adjacent) and lies within the size. *)
Theorem merge_comm_idem (a b : list Z) (size : Z) :
  mergeRLEMasks a b size = mergeRLEMasks b a size /\
  (0 <= size < 2 ^ 32 -> canonical 0 size a -> mergeRLEMasks a a size = Some a).
Proof. split; [apply mergeRLEMasks_comm|apply mergeRLEMasks_idem]. Qed.

Lemma merge_comm_idem_witness :
  mergeRLEMasks [1; 2; 5; 1] [0; 2] 8 = mergeRLEMasks [0; 2] [1; 2; 5; 1] 8 /\
  mergeRLEMasks [1; 2; 5; 1] [1; 2; 5; 1] 8 = Some [1; 2; 5; 1].
Proof.
  destruct (merge_comm_idem [1; 2; 5; 1] [0; 2] 8) as [Hcomm Hidem].
  split; [exact Hcomm|].
  apply Hidem; [lia|]. simpl. lia.
Defined.

(** [C8], as stated, fails for a size that cuts the mask: the run
    [[0, 5)] merged with itself at size 3 comes back as [[0, 3)]. *)
Lemma merge_idem_counterexample :
  mergeRLEMasks [0; 5] [0; 5] 3 = Some [0; 3] /\ mergeRLEMasks [0; 5] [0; 5] 3 <> Some [0; 5].
Proof. split; [reflexivity|discriminate]. Qed.

End RLEFacts.

(** ** The other mask utilities *)

Module MaskFacts.
Import RLE MaskUtils RLEFacts.

Lemma binary_binarise mask : binary (binarise mask).
Proof.
  unfold binary, binarise. apply Forall_fmap, Forall_forall. intros v _. simpl.
  destruct (0 <? v); auto.
Qed.

Lemma binarise_binary mask : binary mask -> binarise mask = mask.
Proof.
  unfold binary, binarise. induction 1 as [|v l [-> | ->] _ IH]; [done|..];
    rewrite fmap_cons; f_equal; exact IH.
Qed.

Lemma length_binarise mask : length (binarise mask) = length mask.
Proof. unfold binarise. by rewrite length_fmap. Qed.

Lemma aget_binarise mask k :
  aget (binarise mask) k = (fun v => if 0 <? v then 1 else 0) <$> aget mask k.
Proof.
  unfold aget, binarise. destruct (k <? 0); [done|]. by rewrite list_lookup_fmap.
Qed.

(** The scan only looks at whether an entry is greater than 0. *)
Lemma encode_loop_binarise rest : forall i inRun rs runs,
  encode_loop (binarise rest) i inRun rs runs = encode_loop rest i inRun rs runs.
Proof.
  induction rest as [|m rest IH]; intros i inRun rs runs; [done|].
  change (binarise (m :: rest)) with ((if 0 <? m then 1 else 0) :: binarise rest).
  cbn [encode_loop]. rewrite !IH. by destruct (0 <? m).
Qed.

Lemma encodeMaskToRLE_binarise mask :
  encodeMaskToRLE (binarise mask) = encodeMaskToRLE mask.
Proof. unfold encodeMaskToRLE. by rewrite encode_loop_binarise. Qed.

(** Decoding the scan of a binary mask, from a zeroed buffer. *)
Lemma decode_loop_encode_loop (M : list Z) :
  binary M ->
  decode_loop (encode_loop M 0 false 0 []) (Z.of_nat (length M)) (replicate (length M) 0) = M.
Proof.
  intros Hbin. apply aget_ext.
  - by rewrite length_decode_loop, length_replicate.
  - intros k Hk. rewrite length_decode_loop, length_replicate in Hk.
    rewrite (decode_encode_loop M 0 false 0 _ (Z.of_nat (length M))); try done; try lia.
    + zbool; [lia|]. by rewrite Z.sub_0_r.
    + by rewrite length_replicate.
    + intros k' Hk'. apply aget_replicate. lia.
Qed.

(** Decoding the encoding of any mask at its length. *)
Lemma decode_encode_any (M : list Z) :
  Z.of_nat (length M) < 2 ^ 32 ->
  decodeMaskFromRLE (encodeMaskToRLE M) (Z.of_nat (length M)) = Some (binarise M).
Proof.
  intros Hlen. unfold decodeMaskFromRLE, Uint8Array_new.
  destruct (Z.ltb_spec (Z.of_nat (length M)) 0); [lia|].
  f_equal. rewrite Nat2Z.id, <- encodeMaskToRLE_binarise.
  rewrite encodeMaskToRLE_no_wrap by (by rewrite length_binarise).
  rewrite <- (length_binarise M). apply decode_loop_encode_loop, binary_binarise.
Qed.

(** *** The encoder's output *)

Lemma pair_ind (P : list Z -> Prop) :
  P [] -> (forall x, P [x]) -> (forall x y l, P l -> P (x :: y :: l)) -> forall l, P l.
Proof.
  intros H0 H1 H2 l. assert (H : P l /\ forall x, P (x :: l)); [|apply H].
  induction l as [|y l [IH1 IH2]]; split; auto.
Qed.

Lemma canonical_weaken rle lo lo' size :
  lo' <= lo -> canonical lo size rle -> canonical lo' size rle.
Proof. destruct rle as [|s [|l rle]]; simpl; [done|done|]. intros ? (? & ? & ? & ?). auto with lia. Qed.

(** The runs the scan emits are canonical: outside a run, from the
    position [i] on; inside the run that began at [rs], that run comes
    first and reaches [i] at least. *)
Lemma encode_loop_canonical rest :
  (forall i rs, canonical i (i + Z.of_nat (length rest)) (encode_loop rest i false rs [])) /\
  (forall i rs, rs < i ->
     exists l rle', encode_loop rest i true rs [] = rs :: l :: rle' /\
       i - rs <= l /\ rs + l <= i + Z.of_nat (length rest) /\
       canonical (rs + l + 1) (i + Z.of_nat (length rest)) rle').
Proof.
  induction rest as [|m rest [IHA IHB]]; split.
  - done.
  - intros i rs Hrs. exists (i - rs), []. simpl. repeat split; lia.
  - intros i rs. cbn [encode_loop length]. destruct (0 <? m); simpl.
    + destruct (IHB (i + 1) i) as (l & rle' & -> & Hl & He & Hc); [lia|].
      simpl. replace (i + Z.of_nat (S (length rest))) with (i + 1 + Z.of_nat (length rest)) by lia.
      repeat split; try lia. done.
    + replace (i + Z.of_nat (S (length rest))) with (i + 1 + Z.of_nat (length rest)) by lia.
      apply (canonical_weaken _ (i + 1)); [lia|apply IHA].
  - intros i rs Hrs. cbn [encode_loop length].
    replace (i + Z.of_nat (S (length rest))) with (i + 1 + Z.of_nat (length rest)) by lia.
    destruct (0 <? m); simpl.
    + destruct (IHB (i + 1) rs) as (l & rle' & -> & Hl & He & Hc); [lia|].
      exists l, rle'. repeat split; try lia. done.
    + rewrite encode_loop_acc. exists (i - rs), (encode_loop rest (i + 1) false rs []).
      repeat split; try lia. replace (rs + (i - rs) + 1) with (i + 1) by lia. apply IHA.
Qed.

Lemma encodeMaskToRLE_canonical_aux (mask : list Z) :
  Z.of_nat (length mask) < 2 ^ 32 ->
  canonical 0 (Z.of_nat (length mask)) (encodeMaskToRLE mask).
Proof.
  intros Hlen. rewrite encodeMaskToRLE_no_wrap by done.
  apply (proj1 (encode_loop_canonical mask) 0 0).
Qed.

(** *** Runs of a canonical RLE *)

Lemma run_at_cons s0 l0 rle m s l :
  0 < m -> run_at (s0 :: l0 :: rle) m s l <-> run_at rle (m - 1) s l.
Proof.
  intros Hm. unfold run_at. rewrite !aget_cons_pos by lia.
  replace (2 * m - 1 - 1) with (2 * (m - 1)) by lia.
  replace (2 * m + 1 - 1 - 1) with (2 * (m - 1) + 1) by lia. done.
Qed.

Lemma run_at_0 s0 l0 rle s l : run_at (s0 :: l0 :: rle) 0 s l <-> s = s0 /\ l = l0.
Proof. unfold run_at. simpl. cbv [aget]. simpl. split; [by intros [[= ->] [= ->]]|by intros [-> ->]]. Qed.

Lemma canonical_run rle : forall lo size m s l,
  canonical lo size rle -> 0 <= m -> run_at rle m s l ->
  lo <= s /\ 0 < l /\ s + l <= size.
Proof.
  induction rle as [|x|s0 l0 rle IH] using pair_ind; intros lo size m s l Hc Hm Hr.
  - destruct Hr as [Hr _]. unfold aget in Hr. by destruct (_ <? _).
  - done.
  - simpl in Hc. destruct Hc as (? & ? & ? & Hc).
    destruct (decide (m = 0)) as [->|Hne].
    + apply run_at_0 in Hr as [-> ->]. lia.
    + apply run_at_cons in Hr; [|lia].
      destruct (IH _ _ (m - 1) _ _ Hc ltac:(lia) Hr). lia.
Qed.

Lemma canonical_sorted rle : forall lo size m m' s l s' l',
  canonical lo size rle -> 0 <= m < m' ->
  run_at rle m s l -> run_at rle m' s' l' -> s + l < s'.
Proof.
  induction rle as [|x|s0 l0 rle IH] using pair_ind;
    intros lo size m m' s l s' l' Hc Hm Hr Hr'.
  - destruct Hr as [Hr _]. unfold aget in Hr. by destruct (_ <? _).
  - done.
  - simpl in Hc. destruct Hc as (? & ? & ? & Hc).
    apply run_at_cons in Hr'; [|lia].
    destruct (decide (m = 0)) as [->|Hne].
    + apply run_at_0 in Hr as [-> ->].
      destruct (canonical_run _ _ _ (m' - 1) _ _ Hc ltac:(lia) Hr'). lia.
    + apply run_at_cons in Hr; [|lia].
      apply (IH _ _ (m - 1) (m' - 1) s l s' l' Hc); [lia|done|done].
Qed.

(** A canonical RLE holds whole runs. *)
Lemma canonical_runs_defined rle : forall lo size m,
  canonical lo size rle -> 0 <= m -> 2 * m <= Z.of_nat (length rle) - 2 ->
  exists s l, run_at rle m s l.
Proof.
  induction rle as [|x|s0 l0 rle IH] using pair_ind; intros lo size m Hc Hm Hlen.
  - simpl in Hlen. lia.
  - done.
  - simpl in Hc. destruct Hc as (? & ? & ? & Hc).
    destruct (decide (m = 0)) as [->|Hne].
    + exists s0, l0. by apply run_at_0.
    + destruct (IH _ _ (m - 1) Hc) as (s & l & Hr); [lia|simpl in Hlen; lia|].
      exists s, l. apply run_at_cons; [lia|done].
Qed.

Lemma covered_run rle : forall size k,
  covered rle size k = true <->
  exists m s l, 0 <= m /\ run_at rle m s l /\ s <= k < Z.min (s + l) size.
Proof.
  induction rle as [|x|s0 l0 rle IH] using pair_ind; intros size k.
  - split; [done|]. intros (m & s & l & _ & [Hr _] & _).
    unfold aget in Hr. by destruct (_ <? _).
  - split; [done|]. intros (m & s & l & Hm & [_ Hr] & _).
    unfold aget in Hr. destruct (_ <? _); [done|].
    destruct (Z.to_nat (2 * m + 1)) as [|n] eqn:Hn; [lia|]. done.
  - simpl. rewrite orb_true_iff, IH. split.
    + intros [Hk|(m & s & l & Hm & Hr & Hk)].
      * exists 0, s0, l0. split; [lia|]. split; [by apply run_at_0|].
        apply andb_true_iff in Hk as [?%Z.leb_le ?%Z.ltb_lt]. lia.
      * exists (m + 1), s, l. split; [lia|]. split; [|done].
        apply run_at_cons; [lia|]. by replace (m + 1 - 1) with m by lia.
    + intros (m & s & l & Hm & Hr & Hk). destruct (decide (m = 0)) as [->|Hne].
      * apply run_at_0 in Hr as [-> ->]. left. apply andb_true_iff.
        split; [apply Z.leb_le|apply Z.ltb_lt]; lia.
      * right. exists (m - 1), s, l. split; [lia|]. split; [|done].
        apply run_at_cons in Hr; [done|lia].
Qed.

(** *** The binary search *)

(** The search ends, whatever the array holds. *)
Lemma search_total rle index : forall fuel left right2,
  right2 - 2 * left + 2 <= 2 * Z.of_nat fuel ->
  exists b, search fuel rle index left right2 = Some b.
Proof.
  induction fuel as [|fuel IH]; intros left right2 Hm; simpl.
  - destruct (Z.leb_spec (2 * left) right2); [lia|]. by exists false.
  - destruct (Z.leb_spec (2 * left) right2) as [Hle|]; [|by exists false].
    pose proof (Z.div_mod (2 * left + right2) 4 ltac:(lia)) as Hdm.
    pose proof (Z.mod_pos_bound (2 * left + right2) 4 ltac:(lia)) as Hmod.
    destruct (_ && _); [by exists true|].
    destruct (gt_u _ _); apply IH; lia.
Qed.

(** On a canonical RLE the search answers whether a run holds the index. *)
Lemma search_canonical rle size index : forall fuel left right2,
  canonical 0 size rle ->
  0 <= left -> right2 <= Z.of_nat (length rle) - 2 ->
  right2 - 2 * left + 2 <= 2 * Z.of_nat fuel ->
  (forall m s l, 0 <= m < left -> run_at rle m s l -> s + l <= index) ->
  (forall m s l, right2 < 2 * m -> run_at rle m s l -> index < s) ->
  search fuel rle index left right2 = Some (covered rle size index).
Proof.
  induction fuel as [|fuel IH]; intros left right2 Hc Hl Hr Hm Hlow Hhigh;
    cbn [search].
  - destruct (Z.leb_spec (2 * left) right2); [lia|]. f_equal. symmetry.
    apply not_true_is_false. intros (m & s & l & Hm0 & Hrun & Hk)%covered_run.
    destruct (decide (m < left)).
    + specialize (Hlow m s l ltac:(lia) Hrun). lia.
    + specialize (Hhigh m s l ltac:(lia) Hrun). lia.
  - destruct (Z.leb_spec (2 * left) right2) as [Hle|].
    2:{ f_equal. symmetry.
        apply not_true_is_false. intros (m & s & l & Hm0 & Hrun & Hk)%covered_run.
        destruct (decide (m < left)).
        - specialize (Hlow m s l ltac:(lia) Hrun). lia.
        - specialize (Hhigh m s l ltac:(lia) Hrun). lia. }
    pose proof (Z.div_mod (2 * left + right2) 4 ltac:(lia)) as Hdm.
    pose proof (Z.mod_pos_bound (2 * left + right2) 4 ltac:(lia)) as Hmod.
    set (mid := (2 * left + right2) / 4) in *.
    destruct (canonical_runs_defined rle 0 size mid Hc) as (s & l & Hrun); [lia|lia|].
    pose proof Hrun as [Hs Hlen].
    replace (mid * 2) with (2 * mid) by lia. rewrite Hs, Hlen. simpl.
    destruct (canonical_run _ _ _ mid _ _ Hc ltac:(lia) Hrun) as (Hs0 & Hl0 & He0).
    destruct (Z.leb_spec s index), (Z.ltb_spec index (s + l)); simpl.
    + f_equal. symmetry. apply covered_run. exists mid, s, l. split; [lia|]. split; [done|lia].
    + destruct (Z.ltb_spec index s); [lia|].
      apply IH; try done; try lia.
      intros m s' l' Hm' Hrun'. destruct (decide (m = mid)) as [->|Hne].
      * destruct Hrun' as [Hs' Hl']. rewrite Hs in Hs'. rewrite Hlen in Hl'.
        injection Hs' as <-. injection Hl' as <-. lia.
      * destruct (decide (m < left)); [apply (Hlow m s' l'); [lia|done]|].
        pose proof (canonical_sorted _ _ _ m mid s' l' s l Hc ltac:(lia) Hrun' Hrun). lia.
    + destruct (Z.ltb_spec index s); [|lia].
      apply IH; try done; try lia.
      intros m s' l' Hm' Hrun'. destruct (decide (m = mid)) as [->|Hne].
      * destruct Hrun' as [Hs' Hl']. rewrite Hs in Hs'. injection Hs' as <-. lia.
      * destruct (decide (right2 < 2 * m)); [apply (Hhigh m s' l'); [lia|done]|].
        pose proof (canonical_sorted _ _ _ mid m s l s' l' Hc ltac:(lia) Hrun Hrun'). lia.
    + lia.
Qed.

Lemma isPixelSelectedInRLE_canonical rle size index :
  canonical 0 size rle -> isPixelSelectedInRLE rle index = Some (covered rle size index).
Proof.
  intros Hc. unfold isPixelSelectedInRLE. apply search_canonical; try done; try lia.
  intros m s l Hm Hrun. destruct Hrun as [_ Hl]. apply aget_Some_range in Hl. lia.
Qed.

(** *** What an encoding covers *)

Lemma decodeMaskFromRLE_covered rle size k :
  0 <= size -> Forall (fun v => 0 <= v) rle -> 0 <= k < size ->
  exists mask, decodeMaskFromRLE rle size = Some mask /\
               aget mask k = Some (if covered rle size k then 1 else 0).
Proof.
  intros Hsize Hnn Hk. unfold decodeMaskFromRLE, Uint8Array_new.
  destruct (Z.ltb_spec size 0); [lia|]. eexists. split; [done|].
  rewrite aget_decode_loop; [|rewrite length_replicate; lia|done].
  destruct (covered rle size k); [done|]. apply aget_replicate. lia.
Qed.

(** The encoding of a mask covers the entries that are greater than 0,
    whatever the size it is read at. *)
Lemma covered_encode (M : list Z) size k :
  Z.of_nat (length M) < 2 ^ 32 -> k < size ->
  covered (encodeMaskToRLE M) size k = gt_u (aget M k) 0.
Proof.
  intros Hlen Hk.
  pose proof (encodeMaskToRLE_canonical_aux M Hlen) as Hc.
  destruct (decide (0 <= k < Z.of_nat (length M))) as [Hin|Hout].
  - pose proof (decode_encode_any M Hlen) as Hd.
    destruct (decodeMaskFromRLE_covered (encodeMaskToRLE M) (Z.of_nat (length M)) k)
      as (mask & Hd' & Hget); [lia|by apply (canonical_nonneg _ 0 (Z.of_nat (length M)))|done|].
    rewrite Hd in Hd'. injection Hd' as <-. rewrite aget_binarise in Hget.
    destruct (aget_in_range M k Hin) as [v Hv]. rewrite Hv in Hget |- *. simpl in Hget |- *.
    assert (Hlenk : covered (encodeMaskToRLE M) (Z.of_nat (length M)) k = (0 <? v)).
    { destruct (covered _ _ k), (0 <? v); done. }
    rewrite <- Hlenk. apply eq_true_iff_eq. rewrite !covered_run.
    split; intros (m & s & l & Hm & Hrun & Hr); exists m, s, l;
      (split; [done|]); (split; [done|]);
      destruct (canonical_run _ _ _ m _ _ Hc Hm Hrun); lia.
  - replace (gt_u (aget M k) 0) with false.
    2:{ destruct (aget M k) as [v|] eqn:Hv; [|done]. apply aget_Some_range in Hv. lia. }
    apply not_true_is_false. intros (m & s & l & Hm & Hrun & Hr)%covered_run.
    destruct (canonical_run _ _ _ m _ _ Hc Hm Hrun). lia.
Qed.

(** *** Decoding *)

Lemma binary_fill mask s e : binary mask -> binary (fill mask s e).
Proof.
  unfold fill. generalize (seqZ s (e - s)). intros l. revert mask.
  induction l as [|j l IH]; intros mask Hb; simpl; [done|].
  apply IH. unfold aset. destruct (j <? 0); [done|].
  unfold binary. apply Forall_insert; [done|by right].
Qed.

Lemma binary_decode_loop rle : forall size mask,
  binary mask -> binary (decode_loop rle size mask).
Proof.
  induction rle as [|x|s l rle IH] using pair_ind; intros size mask Hb; simpl; try done.
  apply IH. by apply binary_fill.
Qed.

Lemma binary_replicate n : binary (replicate n 0).
Proof. unfold binary. apply Forall_replicate. by left. Qed.

Lemma binary_decodeMaskFromRLE rle size mask :
  decodeMaskFromRLE rle size = Some mask -> binary mask.
Proof.
  unfold decodeMaskFromRLE, Uint8Array_new. destruct (size <? 0); [done|].
  intros [= <-]. apply binary_decode_loop, binary_replicate.
Qed.

Lemma binary_or_loop mask1 mask2 size :
  Z.of_nat (length mask1) = size -> binary mask1 -> binary mask2 ->
  binary (or_loop mask1 mask2 size).
Proof.
  intros Hlen H1 H2. unfold binary. apply Forall_forall. intros v Hv.
  apply list_elem_of_lookup in Hv as [n Hn].
  assert (Hk : aget (or_loop mask1 mask2 size) (Z.of_nat n) = Some v).
  { unfold aget. destruct (Z.ltb_spec (Z.of_nat n) 0); [lia|]. by rewrite Nat2Z.id. }
  pose proof (aget_Some_range _ _ _ Hk) as Hr. rewrite length_or_loop in Hr.
  rewrite aget_or_loop in Hk by lia. injection Hk as <-.
  assert (Hbit : forall (m : list Z) j, binary m -> default 0 (aget m j) = 0 \/ default 0 (aget m j) = 1).
  { intros m j Hm. destruct (aget m j) as [u|] eqn:Hu; [|by left]. simpl.
    unfold aget in Hu. destruct (j <? 0); [done|].
    unfold binary in Hm. rewrite Forall_forall in Hm. apply Hm.
    by apply list_elem_of_lookup_2 in Hu. }
  destruct (Hbit mask1 (Z.of_nat n) H1) as [-> | ->],
           (Hbit mask2 (Z.of_nat n) H2) as [-> | ->]; auto.
Qed.

(** The mask [mergeRLEMasks] encodes. *)
Lemma mergeRLEMasks_decoded a b size :
  0 <= size ->
  exists ma mb, decodeMaskFromRLE a size = Some ma /\ decodeMaskFromRLE b size = Some mb /\
    mergeRLEMasks a b size = Some (encodeMaskToRLE (or_loop ma mb size)) /\
    Z.of_nat (length ma) = size /\ Z.of_nat (length mb) = size /\ binary ma /\ binary mb.
Proof.
  intros Hsize. unfold mergeRLEMasks.
  destruct (decodeMaskFromRLE a size) as [ma|] eqn:Ha.
  2:{ unfold decodeMaskFromRLE, Uint8Array_new in Ha. destruct (Z.ltb_spec size 0); [lia|done]. }
  destruct (decodeMaskFromRLE b size) as [mb|] eqn:Hb.
  2:{ unfold decodeMaskFromRLE, Uint8Array_new in Hb. destruct (Z.ltb_spec size 0); [lia|done]. }
  exists ma, mb.
  pose proof (length_decodeMaskFromRLE _ _ _ Ha) as [? _].
  pose proof (length_decodeMaskFromRLE _ _ _ Hb) as [? _].
  pose proof (binary_decodeMaskFromRLE _ _ _ Ha). pose proof (binary_decodeMaskFromRLE _ _ _ Hb).
  done.
Qed.

Lemma decode_encode_binary (M : list Z) size :
  binary M -> Z.of_nat (length M) = size -> size < 2 ^ 32 ->
  decodeMaskFromRLE (encodeMaskToRLE M) size = Some M.
Proof.
  intros Hb <- Hlen. rewrite decode_encode_any by done. by rewrite binarise_binary.
Qed.

(** Encoding the decoding of a canonical RLE gives it back. *)
Lemma encode_decode_canonical a size m :
  size < 2 ^ 32 -> canonical 0 size a -> decodeMaskFromRLE a size = Some m ->
  encodeMaskToRLE m = a.
Proof.
  intros Hsize Hc Hd.
  pose proof (length_decodeMaskFromRLE _ _ _ Hd) as [Hlen Hnn].
  rewrite encodeMaskToRLE_no_wrap by lia.
  apply (proj1 (encode_canonical size m) 0 a 0); [done|lia|].
  intros j Hj. unfold decodeMaskFromRLE, Uint8Array_new in Hd.
  destruct (Z.ltb_spec size 0); [lia|]. injection Hd as <-.
  rewrite aget_decode_loop.
  - rewrite Z.add_0_l. destruct (covered a size j); [done|].
    apply aget_replicate. lia.
  - rewrite length_replicate. lia.
  - by apply (canonical_nonneg a 0 size).
Qed.

(** *** The point query *)

(** [isPixelSelectedInRLE] returns for every array, sorted or not: the
    interval of the binary search shrinks at every iteration. *)
Theorem isPixelSelectedInRLE_returns (rle : list Z) (index : Z) :
  exists b, isPixelSelectedInRLE rle index = Some b.
Proof. apply search_total. lia. Qed.

(** On the encoding of a mask of less than 2^32 entries, the point query
    [isPixelSelectedInRLE] answers whether the entry of the mask at the
    index is greater than 0; an index outside the mask is not selected. *)
Theorem isPixelSelectedInRLE_encoded (M : list Z) (index : Z) :
  Z.of_nat (length M) < 2 ^ 32 ->
  isPixelSelectedInRLE (encodeMaskToRLE M) index = Some (gt_u (aget M index) 0).
Proof.
  intros Hlen.
  rewrite (isPixelSelectedInRLE_canonical _ (Z.of_nat (length M)))
    by (by apply encodeMaskToRLE_canonical_aux).
  f_equal. destruct (decide (index < Z.of_nat (length M))) as [Hin|Hout].
  - by apply covered_encode.
  - replace (gt_u (aget M index) 0) with false.
    2:{ destruct (aget M index) as [v|] eqn:Hv; [|done]. apply aget_Some_range in Hv. lia. }
    apply not_true_is_false. intros (m & s & l & Hm & Hrun & Hr)%covered_run. lia.
Qed.

Lemma isPixelSelectedInRLE_encoded_witness :
  isPixelSelectedInRLE (encodeMaskToRLE [0; 1; 1; 0; 1]) 2 =
  Some (gt_u (aget [0; 1; 1; 0; 1] 2) 0).
Proof. apply isPixelSelectedInRLE_encoded. simpl. lia. Defined.

(** On a canonical RLE (runs of positive length, sorted, non-overlapping,
    non-adjacent, within the size) the point query agrees with decoding:
    it answers whether the decoded mask is set at the index. *)
Theorem isPixelSelectedInRLE_decoded (rle : list Z) (size index : Z) :
  canonical 0 size rle -> 0 <= index < size ->
  exists mask, decodeMaskFromRLE rle size = Some mask /\
               isPixelSelectedInRLE rle index = Some (gt_u (aget mask index) 0).
Proof.
  intros Hc Hi.
  destruct (decodeMaskFromRLE_covered rle size index) as (mask & Hd & Hget);
    [lia|by apply (canonical_nonneg _ 0 size)|done|].
  exists mask. split; [done|]. rewrite (isPixelSelectedInRLE_canonical _ size) by done.
  rewrite Hget. by destruct (covered rle size index).
Qed.

Lemma isPixelSelectedInRLE_decoded_witness :
  exists mask, decodeMaskFromRLE [1; 2; 5; 1] 8 = Some mask /\
               isPixelSelectedInRLE [1; 2; 5; 1] 5 = Some (gt_u (aget mask 5) 0).
Proof. apply isPixelSelectedInRLE_decoded; [simpl; lia|lia]. Defined.

(** *** Round trips *)

(** Decoding the encoding of any mask of less than 2^32 entries, at the
    mask's length, gives the mask with every entry greater than 0 replaced
    by 1: the round trip normalises a mask that is not binary. *)
Theorem rle_roundtrip_normalises (M : list Z) :
  Z.of_nat (length M) < 2 ^ 32 ->
  decodeMaskFromRLE (encodeMaskToRLE M) (Z.of_nat (length M)) = Some (binarise M).
Proof. apply decode_encode_any. Qed.

Lemma rle_roundtrip_normalises_witness :
  decodeMaskFromRLE (encodeMaskToRLE [0; 7; 255; 0; 1]) 5 = Some (binarise [0; 7; 255; 0; 1]).
Proof. apply (rle_roundtrip_normalises [0; 7; 255; 0; 1]). simpl. lia. Defined.

(** [decodeMaskFromRLE] raises for a negative size; for any other size it
    returns a binary mask of that length, whatever the array holds (runs
    out of order, overlapping, past the size, or an odd number of
    entries). *)
Theorem decodeMaskFromRLE_shape (rle : list Z) (size : Z) :
  (size < 0 -> decodeMaskFromRLE rle size = None) /\
  (0 <= size -> exists mask, decodeMaskFromRLE rle size = Some mask /\
                             Z.of_nat (length mask) = size /\ binary mask).
Proof.
  split; intros Hsize; unfold decodeMaskFromRLE, Uint8Array_new.
  - destruct (Z.ltb_spec size 0); [done|lia].
  - destruct (Z.ltb_spec size 0); [lia|]. eexists. split; [done|]. split.
    + rewrite length_decode_loop, length_replicate. lia.
    + apply binary_decode_loop, binary_replicate.
Qed.

(** The encoding of a mask of less than 2^32 entries is canonical: its
    runs have positive length, are sorted, do not overlap or touch, and
    end within the mask. *)
Theorem encodeMaskToRLE_canonical (mask : list Z) :
  Z.of_nat (length mask) < 2 ^ 32 ->
  canonical 0 (Z.of_nat (length mask)) (encodeMaskToRLE mask).
Proof. apply encodeMaskToRLE_canonical_aux. Qed.

Lemma encodeMaskToRLE_canonical_witness :
  canonical 0 5 (encodeMaskToRLE [0; 1; 1; 0; 1]).
Proof. apply (encodeMaskToRLE_canonical [0; 1; 1; 0; 1]). simpl. lia. Defined.

(** *** Merging *)

(** What [mergeRLEMasks] computes: for a size from 0 to below 2^32 and any
    two arrays, the merged RLE decodes to the entry-wise OR of the two
    decoded masks. *)
Theorem mergeRLEMasks_or (a b : list Z) (size : Z) :
  0 <= size < 2 ^ 32 ->
  exists ma mb m mm,
    decodeMaskFromRLE a size = Some ma /\ decodeMaskFromRLE b size = Some mb /\
    mergeRLEMasks a b size = Some m /\ decodeMaskFromRLE m size = Some mm /\
    Z.of_nat (length mm) = size /\
    forall k x y, aget ma k = Some x -> aget mb k = Some y -> aget mm k = Some (Z.lor x y).
Proof.
  intros Hsize.
  destruct (mergeRLEMasks_decoded a b size) as (ma & mb & Ha & Hb & Hm & Hla & Hlb & Hba & Hbb);
    [lia|].
  exists ma, mb, (encodeMaskToRLE (or_loop ma mb size)), (or_loop ma mb size).
  split; [done|]. split; [done|]. split; [done|]. split.
  - apply decode_encode_binary; [by apply binary_or_loop|by rewrite length_or_loop|lia].
  - split; [by rewrite length_or_loop|].
    intros k x y Hx Hy. pose proof (aget_Some_range _ _ _ Hx).
    rewrite aget_or_loop by lia. by rewrite Hx, Hy.
Qed.

Lemma mergeRLEMasks_or_witness :
  exists ma mb m mm,
    decodeMaskFromRLE [1; 2] 8 = Some ma /\ decodeMaskFromRLE [2; 3] 8 = Some mb /\
    mergeRLEMasks [1; 2] [2; 3] 8 = Some m /\ decodeMaskFromRLE m 8 = Some mm /\
    Z.of_nat (length mm) = 8 /\
    forall k x y, aget ma k = Some x -> aget mb k = Some y -> aget mm k = Some (Z.lor x y).
Proof. apply mergeRLEMasks_or. lia. Defined.

(** [mergeRLEMasks] is associative, for a size from 0 to below 2^32 and
    any three arrays. *)
Theorem mergeRLEMasks_assoc (a b c : list Z) (size : Z) :
  0 <= size < 2 ^ 32 ->
  exists ab bc r,
    mergeRLEMasks a b size = Some ab /\ mergeRLEMasks b c size = Some bc /\
    mergeRLEMasks ab c size = Some r /\ mergeRLEMasks a bc size = Some r.
Proof.
  intros Hsize.
  destruct (mergeRLEMasks_decoded a b size) as (ma & mb & Ha & Hb & Hab & Hla & Hlb & Hba & Hbb);
    [lia|].
  destruct (mergeRLEMasks_decoded b c size) as (mb' & mc & Hb' & Hc & Hbc & _ & Hlc & _ & Hbc');
    [lia|].
  rewrite Hb in Hb'. injection Hb' as <-.
  exists (encodeMaskToRLE (or_loop ma mb size)), (encodeMaskToRLE (or_loop mb mc size)),
         (encodeMaskToRLE (or_loop (or_loop ma mb size) mc size)).
  split; [done|]. split; [done|].
  assert (Hdab : decodeMaskFromRLE (encodeMaskToRLE (or_loop ma mb size)) size =
                 Some (or_loop ma mb size)).
  { apply decode_encode_binary; [by apply binary_or_loop|by rewrite length_or_loop|lia]. }
  assert (Hdbc : decodeMaskFromRLE (encodeMaskToRLE (or_loop mb mc size)) size =
                 Some (or_loop mb mc size)).
  { apply decode_encode_binary; [by apply binary_or_loop|by rewrite length_or_loop|lia]. }
  unfold mergeRLEMasks. rewrite Hdab, Hdbc, Ha, Hc. split; [done|].
  do 2 f_equal. apply aget_ext.
  - by rewrite !length_or_loop.
  - intros k Hk. rewrite length_or_loop in Hk.
    rewrite !aget_or_loop by (rewrite ?length_or_loop; lia). simpl.
    by rewrite Z.lor_assoc.
Qed.

Lemma mergeRLEMasks_assoc_witness :
  exists ab bc r,
    mergeRLEMasks [1; 2] [2; 3] 8 = Some ab /\ mergeRLEMasks [2; 3] [7; 1] 8 = Some bc /\
    mergeRLEMasks ab [7; 1] 8 = Some r /\ mergeRLEMasks [1; 2] bc 8 = Some r.
Proof. apply mergeRLEMasks_assoc. lia. Defined.

(** The empty RLE is the unit of [mergeRLEMasks] on canonical masks that
    lie within the size. *)
Theorem mergeRLEMasks_empty (a : list Z) (size : Z) :
  0 <= size < 2 ^ 32 -> canonical 0 size a ->
  mergeRLEMasks a [] size = Some a /\ mergeRLEMasks [] a size = Some a.
Proof.
  intros Hsize Hc.
  assert (H : mergeRLEMasks a [] size = Some a).
  { destruct (mergeRLEMasks_decoded a [] size) as (ma & mz & Ha & Hz & Hm & Hla & Hlz & Hba & _);
      [lia|].
    rewrite Hm. f_equal.
    replace (or_loop ma mz size) with ma; [by apply (encode_decode_canonical a size); [lia|..]|].
    symmetry. apply aget_ext; [by rewrite length_or_loop|].
    intros k Hk. rewrite length_or_loop in Hk. rewrite aget_or_loop by lia.
    unfold decodeMaskFromRLE, Uint8Array_new in Hz. destruct (Z.ltb_spec size 0); [lia|].
    injection Hz as <-. simpl. rewrite aget_replicate by lia. simpl. rewrite Z.lor_0_r.
    destruct (aget_in_range ma k) as [v ->]; [lia|done]. }
  split; [done|]. by rewrite mergeRLEMasks_comm.
Qed.

Lemma mergeRLEMasks_empty_witness :
  mergeRLEMasks [1; 2; 5; 1] [] 8 = Some [1; 2; 5; 1] /\
  mergeRLEMasks [] [1; 2; 5; 1] 8 = Some [1; 2; 5; 1].
Proof. apply mergeRLEMasks_empty; [lia|simpl; lia]. Defined.

(** *** Compressed masks *)

(** [decompressMask] after [compressMask]: for a mask of less than 2^32
    entries and dimensions with a product of at least 0, the result has
    [width * height] entries; entry [k] is 1 where the mask holds a value
    greater than 0 at [k], and 0 elsewhere, also past the end of the mask.
    The recorded [pixelCount] is the number of entries of the mask that are
    greater than 0. *)
Theorem decompress_compress (mask : list Z) (width height : Z) :
  Z.of_nat (length mask) < 2 ^ 32 -> 0 <= width * height ->
  cpixelCount (compressMask mask width height) = Z.of_nat (FloodInv.selectedCount mask) /\
  exists out,
    decompressMask (compressMask mask width height) = Some out /\
    Z.of_nat (length out) = width * height /\
    forall k, 0 <= k < width * height ->
      aget out k = Some (if gt_u (aget mask k) 0 then 1 else 0).
Proof.
  intros Hlen Hsize. split.
  - unfold compressMask. cbn [cpixelCount].
    rewrite encodeMaskToRLE_no_wrap, count_encode_loop by done. unfold FloodInv.selectedCount. lia.
  - unfold decompressMask, compressMask. cbn [rle cwidth cheight].
    destruct (proj2 (decodeMaskFromRLE_shape (encodeMaskToRLE mask) (width * height)) Hsize)
      as (out & Hd & Hl & _).
    exists out. split; [done|]. split; [done|]. intros k Hk.
    destruct (decodeMaskFromRLE_covered (encodeMaskToRLE mask) (width * height) k)
      as (out' & Hd' & Hget); [lia| |done|].
    { apply (canonical_nonneg _ 0 (Z.of_nat (length mask))); [lia|].
      by apply encodeMaskToRLE_canonical_aux. }
    rewrite Hd in Hd'. injection Hd' as <-. rewrite Hget.
    by rewrite covered_encode by lia.
Qed.

Lemma decompress_compress_witness :
  cpixelCount (compressMask [0; 1; 1; 0; 1; 0] 3 2) =
    Z.of_nat (FloodInv.selectedCount [0; 1; 1; 0; 1; 0]) /\
  exists out,
    decompressMask (compressMask [0; 1; 1; 0; 1; 0] 3 2) = Some out /\
    Z.of_nat (length out) = 3 * 2 /\
    forall k, 0 <= k < 3 * 2 ->
      aget out k = Some (if gt_u (aget [0; 1; 1; 0; 1; 0] k) 0 then 1 else 0).
Proof. apply decompress_compress; simpl; lia. Defined.

End MaskFacts.

(** ** The scenario of the 4x4 buffer *)

(** More fuel does not change the outcome of a fill that has finished. *)
Lemma flood_loop_more img seed thr fuel : forall st st' (extra : nat),
  Flood.loop fuel img seed thr st = Some st' ->
  Flood.loop (fuel + extra) img seed thr st = Some st'.
Proof.
  induction fuel as [|fuel IH]; intros st st' extra H.
  - simpl in H. destruct (Flood.stack st) eqn:Hs; [|done].
    destruct extra; simpl; by rewrite Hs.
  - simpl in H |- *. destruct (Flood.stack st); [done|]. by apply IH.
Qed.

Lemma magicSelect_more fuel (extra : nat) uuid img x y tolerance region :
  magicSelect fuel uuid img x y tolerance = Some region ->
  magicSelect (fuel + extra) uuid img x y tolerance = Some region.
Proof.
  unfold magicSelect. intros H.
  destruct (Flood.loop fuel _ _ _ _) as [st|] eqn:Hl; [|done].
  by rewrite (flood_loop_more _ _ _ _ _ _ extra Hl).
Qed.

(** [C9] Seeded at (0,0) with tolerance 10, [magicSelect] returns the 15
    white pixels: [pixelCount = 15], bounds {0,0,4,4}, and the runs
    [[0,10)] and [[11,16)], whatever the alpha bytes; 16 iterations of the
    fill are enough. *)
Theorem scenario_magicSelect (alpha : Z -> Z) (uuid : string) (extra : nat) :
  magicSelect (16 + extra) uuid (scenario_image alpha) 0 0 (JS.Int 10) =
  Some (Region.mk uuid [0; 10; 11; 5] (mkBounds 0 0 4 4) 15
          (Color.mk (Some 255) (Some 255) (Some 255)) remove).
Proof. apply magicSelect_more. vm_compute. reflexivity. Qed.

(** ** The automatic threshold *)

Module OtsuFacts.
Import Otsu.

Lemma step_optimalBin histogram sampledPixels sumTotal st t :
  optimalBin (step histogram sampledPixels sumTotal st t) = optimalBin st \/
  optimalBin (step histogram sampledPixels sumTotal st t) = t.
Proof.
  unfold step. destruct (broke st); [by left|].
  destruct (_ =? 0); [by left|]. destruct (_ =? 0); [by left|].
  destruct (PrimFloat.ltb _ _); [by right|by left].
Qed.

(** The search never leaves the bins it visits. *)
Lemma search_optimalBin histogram sampledPixels sumTotal bins : forall st,
  0 <= optimalBin st < histogramBins ->
  Forall (fun t => 0 <= t < histogramBins) bins ->
  0 <= optimalBin (fold_left (step histogram sampledPixels sumTotal) bins st) < histogramBins.
Proof.
  induction bins as [|t bins IH]; intros st Hst Hbins; simpl; [done|].
  apply Forall_cons in Hbins as [Ht Hbins]. apply IH; [|done].
  destruct (step_optimalBin histogram sampledPixels sumTotal st t) as [-> | ->]; done.
Qed.

(** Every one of the 256 bins converts to a threshold in [20, 150]. *)
Lemma clamp_all_bins : forallb clamp_in_range (seqZ 0 histogramBins) = true.
Proof. vm_compute. reflexivity. Qed.

Lemma clamp_bounds b : 0 <= b < histogramBins -> clamp_in_range b = true.
Proof.
  intros Hb. pose proof clamp_all_bins as H.
  rewrite forallb_forall in H. apply H.
  apply list_elem_of_In, elem_of_seqZ. lia.
Qed.

End OtsuFacts.

(** The threshold returned is the conversion of one of the 256 bins. *)
Lemma calculateAutoThreshold_clamp (img : ImageData) :
  exists b, 0 <= b < Otsu.histogramBins /\ fst (calculateAutoThreshold img) = Otsu.clamp b.
Proof.
  unfold calculateAutoThreshold.
  destruct (fold_left _ (Otsu.sampled _) _) as [histogram sampledPixels].
  cbv beta iota zeta delta [fst].
  eexists; split; [|reflexivity].
  apply OtsuFacts.search_optimalBin.
  - simpl. unfold Otsu.histogramBins. lia.
  - apply Forall_seqZ. intros t Ht. lia.
Qed.

(** [C3] The threshold [calculateAutoThreshold] returns lies in [20, 150],
    for every buffer. *)
Theorem autoThreshold_bounds (img : ImageData) :
  PrimFloat.leb 20 (fst (calculateAutoThreshold img)) = true /\
  PrimFloat.leb (fst (calculateAutoThreshold img)) 150 = true.
Proof.
  destruct (calculateAutoThreshold_clamp img) as (b & Hb & ->).
  pose proof (OtsuFacts.clamp_bounds b Hb) as H.
  unfold clamp_in_range in H. by apply andb_true_iff in H.
Qed.

(** ** processImage: which bytes are written *)

(** [shl2 i] is a multiple of 4, also when it wraps around. *)
Lemma shl2_mod4 i : JS.shl2 i mod 4 = 0.
Proof.
  unfold JS.shl2, JS.ToInt32. rewrite Z.shiftl_mul_pow2 by lia.
  change (2 ^ 2) with 4. change (2 ^ 31) with 2147483648. change (2 ^ 32) with 4294967296.
  rewrite (Z.mod_eq (i * 4 + 2147483648) 4294967296) by lia.
  set (q := (i * 4 + 2147483648) / 4294967296).
  replace (i * 4 + 2147483648 - 4294967296 * q - 2147483648)
    with ((i - 1073741824 * q) * 4) by lia.
  apply Z.mod_mul. lia.
Qed.

Lemma shl2_alpha_index i : (JS.shl2 i + 3) mod 4 = 3.
Proof. rewrite Z.add_mod, shl2_mod4 by lia. reflexivity. Qed.

(** Without wrap-around, [i << 2] is [4 * i]. *)
Lemma shl2_small i : - 2 ^ 29 <= i < 2 ^ 29 -> JS.shl2 i = 4 * i.
Proof.
  intros Hi. unfold JS.shl2, JS.ToInt32. rewrite Z.shiftl_mul_pow2 by lia.
  change (2 ^ 2) with 4. rewrite Z.mod_small; lia.
Qed.

(** The allocation of [alphaMask] raises for a negative pixel count, and
    only with smooth, refined or decontaminated edges. *)
Lemma newAlphaMask_spec settings totalPixels :
  newAlphaMask settings totalPixels =
  if useAdvancedEdge (edgeMode settings) && (totalPixels <? 0) then None
  else Some (if useAdvancedEdge (edgeMode settings)
             then Some (replicate (Z.to_nat totalPixels) 255) else None).
Proof.
  unfold newAlphaMask, Uint8Array_new.
  destruct (useAdvancedEdge _); [|done]. destruct (totalPixels <? 0); [done|].
  cbn [andb]. by rewrite fmap_replicate.
Qed.

(** There is a chunk only when there is a pixel. *)
Lemma chunkStarts_nonempty totalPixels (k : nat) :
  (k < length (chunkStarts totalPixels))%nat -> 0 < totalPixels.
Proof.
  unfold chunkStarts, chunkSize. rewrite length_fmap, length_seqZ. intros Hk.
  destruct (Z.ltb_spec 0 totalPixels) as [|Hle]; [done|].
  assert ((totalPixels + 250000 - 1) / 250000 <= 0); [|lia].
  apply Z.lt_succ_r, Z.div_lt_upper_bound; lia.
Qed.

Section Writes.

Variable ok : Z -> Z -> Prop.
Variable P : list Z -> Prop.
Hypothesis P_stable : stable ok P.
Variable settings : ProcessingSettings.
Hypothesis stores : job_store (edgeMode settings) ok.

Lemma on_match_writes i distSq limit st :
  P (fst st) -> P (fst (on_match settings i (JS.shl2 i) distSq limit st)).
Proof using P_stable stores.
  intros HP. destruct stores as (H0 & _ & Hany). unfold on_match.
  destruct (useAdvancedEdge (edgeMode settings)), (snd st); try done;
    destruct (edgeMode settings) eqn:He; simpl;
    try (apply P_stable; [done|]; first [apply H0 | apply Hany; congruence]).
Qed.

Lemma pickFirst_writes i r g b colors : forall st,
  P (fst st) -> P (fst (pickFirst settings i (JS.shl2 i) r g b colors st)).
Proof using P_stable stores.
  induction colors as [|c colors IH]; intros st HP; simpl; [done|].
  destruct (matches _ _); [by apply on_match_writes|by apply IH].
Qed.

Lemma classifyPixel_writes dominantColor st i :
  P (fst st) -> P (fst (classifyPixel settings dominantColor st i)).
Proof using P_stable stores.
  intros HP. unfold classifyPixel.
  destruct (mode settings); try (by apply pickFirst_writes);
    (destruct (matches _ _); [by apply on_match_writes|done]).
Qed.

Lemma classifyChunk_writes dominantColor chunkStart chunkEnd st :
  P (fst st) -> P (fst (classifyChunk settings dominantColor chunkStart chunkEnd st)).
Proof using P_stable stores.
  unfold classifyChunk. generalize (seqZ chunkStart (chunkEnd - chunkStart)).
  intros l. revert st. induction l as [|i l IH]; intros st HP; simpl; [done|].
  apply IH. by apply classifyPixel_writes.
Qed.

Lemma no_complete_snoc out m :
  no_complete out -> (forall img, m <> complete img) -> no_complete (out ++ [m]).
Proof.
  intros Hout Hm img Hin. apply elem_of_app in Hin as [Hin|Hin].
  - by apply (Hout img).
  - apply list_elem_of_singleton in Hin. by apply (Hm img).
Qed.

Lemma phase1_writes cancelAt dominantColor totalPixels starts : forall j,
  P (jdata j) -> no_complete (posted j) ->
  flow_ok P (phase1 cancelAt settings dominantColor totalPixels starts j).
Proof using P_stable stores.
  induction starts as [|chunkStart starts IH]; intros j HP Hout; simpl; [done|].
  destruct (isCancelled j).
  - simpl. by apply no_complete_snoc.
  - apply IH; simpl.
    + by apply classifyChunk_writes.
    + destruct (PrimFloat.leb _ _); [|done]. by apply no_complete_snoc.
Qed.

Lemma applyMask_writes processedMask totalPixels d :
  edgeMode settings <> EdgeMode.hard ->
  P d -> P (applyMask processedMask totalPixels d).
Proof using P_stable stores.
  intros He. unfold applyMask. generalize (seqZ 0 totalPixels). intros l. revert d.
  induction l as [|i l IH]; intros d HP; simpl; [done|].
  apply IH. apply P_stable; [done|].
  destruct stores as (_ & _ & Hany). by apply Hany.
Qed.

Lemma stampRegion_writes w d region d' :
  P d -> stampRegion w d region = Some d' -> P d'.
Proof using P_stable stores.
  unfold stampRegion. intros HP.
  destruct (RLE.decodeMaskFromRLE _ _) as [mask|]; [|done].
  intros [= <-]. revert HP.
  generalize (localY ← seqZ 0 (bheight (Region.bounds region));
              localX ← seqZ 0 (bwidth (Region.bounds region)); [(localY, localX)]).
  intros l. revert d. induction l as [|[localY localX] l IH]; intros d HP; simpl; [done|].
  apply IH. destruct (gt_u _ _); [|done].
  apply P_stable; [done|]. destruct stores as (H0 & H255 & _).
  destruct (Region.mode region); [apply H255|apply H0].
Qed.

Lemma stampRegions_writes w regions : forall d d',
  P d -> stampRegions w regions d = Some d' -> P d'.
Proof using P_stable stores.
  induction regions as [|region regions IH]; intros d d' HP; simpl.
  - by intros [= <-].
  - destruct (stampRegion w d region) as [d1|] eqn:H1; [|done].
    apply IH. by apply (stampRegion_writes w d region).
Qed.

Lemma phase2_writes Math_exp img dominantColor j :
  edgeMode settings <> EdgeMode.decontaminate ->
  P (jdata j) -> no_complete (posted j) ->
  flow_ok P (phase2 Math_exp img settings dominantColor j).
Proof using P_stable stores.
  intros Hd HP Hout. unfold phase2.
  destruct (useAdvancedEdge (edgeMode settings)) eqn:Hadv; [|done].
  destruct (jmask j) as [alphaMask|]; [|done].
  destruct (isCancelled j) eqn:Hc.
  { simpl. by apply no_complete_snoc. }
  simpl. rewrite Hc. simpl. split.
  - assert (HA : forall pm, P (applyMask pm (width img * height img) (jdata j))).
    { intros pm. apply applyMask_writes; [|done]. intros E. by rewrite E in Hadv. }
    destruct (edgeMode settings) eqn:He; try done; apply HA.
  - repeat apply no_complete_snoc; done.
Qed.

(** The buffer of a [complete] response has every property that the input
    buffer has and that the job's stores preserve; its dimensions are the
    input's. *)
Lemma processImage_writes Math_exp cancelAt img out :
  edgeMode settings <> EdgeMode.decontaminate ->
  P (data img) ->
  complete out ∈ fst (processImage Math_exp cancelAt img settings) ->
  P (data out) /\ width out = width img /\ height out = height img.
Proof using P_stable stores.
  intros Hd HP. unfold processImage.
  destruct (newAlphaMask settings _) as [alphaMask|]; [|by intros ?%elem_of_nil].
  pose proof (phase1_writes cancelAt (referenceColor img settings)
                (width img * height img) (chunkStarts (width img * height img))
                (mkJob (data img) alphaMask 0%float false 0%nat [])) as H1.
  destruct (phase1 _ _ _ _ _ _) as [j1|j1]; simpl in H1.
  { intros Hin. exfalso. apply (H1 HP ltac:(intros ? ?%elem_of_nil; done) out Hin). }
  destruct H1 as [HP1 Hout1]; [done|intros ? ?%elem_of_nil; done|].
  pose proof (phase2_writes Math_exp img (referenceColor img settings) j1 Hd HP1 Hout1) as H2.
  destruct (phase2 _ _ _ _ _) as [j2|j2]; simpl in H2.
  { intros Hin. exfalso. by apply (H2 out). }
  destruct H2 as [HP2 Hout2].
  destruct (stampRegions _ _ _) as [d|] eqn:Hs; simpl.
  - intros Hin. apply elem_of_app in Hin as [Hin|Hin]; [by apply Hout2 in Hin|].
    apply list_elem_of_singleton in Hin. injection Hin as ->. simpl.
    split; [|done]. by apply (stampRegions_writes _ _ _ _ HP2 Hs).
  - intros Hin. exfalso. by apply (Hout2 out).
Qed.

End Writes.

(** A job during which no [cancel] is handled runs phase 1 to its end. *)
Lemma phase1_no_cancel cancelAt settings dominantColor totalPixels starts : forall j,
  (forall k, cancelAt k = false) -> isCancelled j = false ->
  exists j', phase1 cancelAt settings dominantColor totalPixels starts j = Go j' /\
             isCancelled j' = false.
Proof.
  intros j Hno. revert j.
  induction starts as [|chunkStart starts IH]; intros j Hc; simpl.
  - by exists j.
  - rewrite Hc. apply IH. simpl. by rewrite Hno.
Qed.

(** *** Hard edges *)

Lemma alpha_binaryb_spec d : alpha_binaryb d = true -> alpha_binary d.
Proof.
  unfold alpha_binaryb. rewrite forallb_forall. intros H i v Hv Hi.
  specialize (H i). rewrite Hv in H.
  apply Z.eqb_eq in Hi. rewrite Hi in H.
  assert (Hin : In i (seqZ 0 (Z.of_nat (length d)))).
  { apply list_elem_of_In, elem_of_seqZ. apply aget_Some_range in Hv. lia. }
  apply H in Hin. apply orb_true_iff in Hin as [?%Z.eqb_eq | ?%Z.eqb_eq]; auto.
Qed.

Lemma alpha_binary_stable : stable (fun _ v => v = 0 \/ v = 255) alpha_binary.
Proof.
  intros d p v Hd Hv i u Hu Hi.
  destruct (decide (i = p)) as [->|Hne].
  - destruct (decide (0 <= p < Z.of_nat (length d))) as [Hp|Hp].
    + rewrite aget_aset_eq in Hu by done. by injection Hu as <-.
    + rewrite aset_out_of_range in Hu by lia. by apply (Hd p).
  - rewrite aget_aset_ne in Hu by done. by apply (Hd i).
Qed.

(** [C6], amended: with [edgeMode = hard], if every alpha byte of the input
    buffer is 0 or 255, so is every alpha byte of the buffer that
    [processImage] posts with [complete]. *)
Theorem hard_alpha_binary Math_exp cancelAt img settings out :
  edgeMode settings = EdgeMode.hard ->
  alpha_binary (data img) ->
  complete out ∈ fst (processImage Math_exp cancelAt img settings) ->
  alpha_binary (data out).
Proof.
  intros He Hin Hout.
  apply (processImage_writes (fun _ v => v = 0 \/ v = 255) alpha_binary
           alpha_binary_stable settings) in Hout as [H _]; try done.
  - rewrite He. repeat split; auto. intros Hne. done.
  - by rewrite He.
Qed.

Lemma hard_alpha_binary_witness : alpha_binary [255; 255; 255; 0; 0; 0; 0; 255].
Proof.
  apply (hard_alpha_binary (fun x => x) (fun _ => false) (two_pixels 255) (manual_hard 10)
           (mkImageData 2 1 [255; 255; 255; 0; 0; 0; 0; 255])).
  - reflexivity.
  - apply alpha_binaryb_spec. reflexivity.
  - vm_compute. apply list_elem_of_further, list_elem_of_here.
Defined.

(** [C6], as stated, fails on a buffer that holds a translucent pixel the
    classifier does not match: its alpha byte, 128 here, is left as it is. *)
Lemma hard_alpha_counterexample :
  edgeMode (manual_hard 10) = EdgeMode.hard /\
  processImage (fun x => x) (fun _ => false) (two_pixels 128) (manual_hard 10) =
    ([progress 100; complete (mkImageData 2 1 [255; 255; 255; 0; 0; 0; 0; 128])], None) /\
  ~ alpha_binary [255; 255; 255; 0; 0; 0; 0; 128].
Proof.
  split; [reflexivity|]. split; [vm_compute; reflexivity|].
  intros H. destruct (H 7 128); [reflexivity|reflexivity|lia|lia].
Qed.

(** *** Colour bytes *)

Lemma same_rgb_stable d0 : stable (fun p _ => p mod 4 = 3) (same_rgb d0).
Proof.
  intros d p v [Hlen Hd] Hp. split.
  - by rewrite length_aset.
  - intros i Hi. rewrite aget_aset_ne by congruence. by apply Hd.
Qed.

(** [C10] In every edge mode but [decontaminate], the buffer [processImage]
    posts with [complete] has the input's length and the input's R, G and B
    bytes; only bytes at alpha positions differ. *)
Theorem rgb_unchanged Math_exp cancelAt img settings out :
  edgeMode settings <> EdgeMode.decontaminate ->
  complete out ∈ fst (processImage Math_exp cancelAt img settings) ->
  length (data out) = length (data img) /\
  forall i, i mod 4 <> 3 -> aget (data out) i = aget (data img) i.
Proof.
  intros He Hout.
  apply (processImage_writes (fun p _ => p mod 4 = 3) (same_rgb (data img))
           (same_rgb_stable (data img)) settings) in Hout as [H _]; try done.
  repeat split; intros; apply shl2_alpha_index.
Qed.

Lemma rgb_unchanged_witness :
  length [255; 255; 255; 0; 0; 0; 0; 128] = length (data (two_pixels 128)) /\
  forall i, i mod 4 <> 3 ->
    aget [255; 255; 255; 0; 0; 0; 0; 128] i = aget (data (two_pixels 128)) i.
Proof.
  apply (rgb_unchanged (fun x => x) (fun _ => false) (two_pixels 128) (manual_hard 10)
           (mkImageData 2 1 [255; 255; 255; 0; 0; 0; 0; 128])).
  - discriminate.
  - vm_compute. apply list_elem_of_further, list_elem_of_here.
Defined.

(** ** The order of doubles

    What the comparison of a squared distance with a squared threshold
    needs of IEEE-754 arithmetic: rounding to nearest is monotone, and
    exact on the integers below 2^53.  A non-negative double is measured
    in units of 2^-1074, the smallest positive double; an exact square, in
    units of 2^-2148. *)

Module FloatOrder.

(** *** Binary digits *)

Lemma digits2_pos_bounds (m : positive) :
  2 ^ (Zpos (digits2_pos m) - 1) <= Zpos m < 2 ^ Zpos (digits2_pos m).
Proof.
  induction m as [m IH|m IH|]; cbn [digits2_pos]; [| |done].
  - rewrite Pos2Z.inj_succ, (Pos2Z.inj_xI m).
    replace (Z.succ (Zpos (digits2_pos m)) - 1) with (Z.succ (Zpos (digits2_pos m) - 1)) by lia.
    rewrite !Z.pow_succ_r by lia. lia.
  - rewrite Pos2Z.inj_succ, (Pos2Z.inj_xO m).
    replace (Z.succ (Zpos (digits2_pos m)) - 1) with (Z.succ (Zpos (digits2_pos m) - 1)) by lia.
    rewrite !Z.pow_succ_r by lia. lia.
Qed.

Lemma Zdigits2_bounds (W : Z) :
  0 < W -> 2 ^ (Zdigits2 W - 1) <= W < 2 ^ Zdigits2 W.
Proof. destruct W as [|m|m]; [lia| |lia]. intros _. apply digits2_pos_bounds. Qed.

Lemma Zdigits2_pos (W : Z) : 0 < W -> 0 < Zdigits2 W.
Proof. destruct W; simpl; lia. Qed.

Lemma Zdigits2_unique (W d : Z) :
  2 ^ (d - 1) <= W < 2 ^ d -> 0 < W -> Zdigits2 W = d.
Proof.
  intros [Hlo Hhi] HW. pose proof (Zdigits2_bounds W HW) as [Hlo' Hhi'].
  pose proof (Zdigits2_pos W HW) as Hd.
  assert (Hd' : 0 < d).
  { destruct (Z.ltb_spec 0 d); [done|]. rewrite Z.pow_neg_r in Hlo by lia.
    destruct (Z.eq_dec d 0) as [->|]; [simpl in Hhi; lia|].
    rewrite Z.pow_neg_r in Hhi by lia. lia. }
  assert (H1 : Zdigits2 W - 1 < d).
  { apply (Z.pow_lt_mono_r_iff 2); lia. }
  assert (H2 : d - 1 < Zdigits2 W).
  { apply (Z.pow_lt_mono_r_iff 2); lia. }
  lia.
Qed.

Lemma Zdigits2_mul_pow2 (W k : Z) :
  0 < W -> 0 <= k -> Zdigits2 (W * 2 ^ k) = Zdigits2 W + k.
Proof.
  intros HW Hk. pose proof (Zdigits2_bounds W HW) as [Hlo Hhi].
  pose proof (Zdigits2_pos W HW) as Hd.
  assert (H2k : 0 < 2 ^ k) by (apply Z.pow_pos_nonneg; lia).
  apply Zdigits2_unique; [|nia].
  replace (Zdigits2 W + k - 1) with (Zdigits2 W - 1 + k) by lia.
  rewrite !Z.pow_add_r by lia. nia.
Qed.

Lemma Zdigits2_mono (W1 W2 : Z) : 0 <= W1 <= W2 -> Zdigits2 W1 <= Zdigits2 W2.
Proof.
  intros [H1 H12]. destruct (Z.eq_dec W1 0) as [->|Hne].
  - destruct W2; simpl; lia.
  - pose proof (Zdigits2_bounds W1 ltac:(lia)) as [Hlo1 _].
    pose proof (Zdigits2_bounds W2 ltac:(lia)) as [_ Hhi2].
    pose proof (Zdigits2_pos W1 ltac:(lia)).
    assert (Zdigits2 W1 - 1 < Zdigits2 W2); [|lia].
    apply (Z.pow_lt_mono_r_iff 2); [lia| |lia].
    pose proof (Zdigits2_pos W2 ltac:(lia)). lia.
Qed.

(** *** Rounding a quotient *)

Lemma rne_bounds W u : 0 < u -> W / u <= rne W u <= W / u + 1.
Proof. intros Hu. unfold rne. cbv zeta. repeat case_match; lia. Qed.

Lemma rne_multiple k u : 0 < u -> rne (k * u) u = k.
Proof.
  intros Hu. unfold rne. cbv zeta. rewrite Z.div_mul, Z.mod_mul by lia.
  destruct (Z.ltb_spec (2 * 0) u); [done|lia].
Qed.

Lemma rne_le_multiple W k u : 0 < u -> W <= k * u -> rne W u <= k.
Proof.
  intros Hu HW. pose proof (Z.div_mod W u ltac:(lia)) as Hdm.
  pose proof (Z.mod_pos_bound W u Hu) as Hmod.
  unfold rne. cbv zeta.
  destruct (Z.ltb_spec (2 * (W mod u)) u); [nia|].
  assert (W / u < k) by nia. repeat case_match; lia.
Qed.

Lemma rne_ge_multiple W k u : 0 < u -> k * u <= W -> k <= rne W u.
Proof.
  intros Hu HW. pose proof (Z.div_mod W u ltac:(lia)) as Hdm.
  pose proof (Z.mod_pos_bound W u Hu) as Hmod.
  pose proof (rne_bounds W u Hu). assert (k <= W / u) by nia. lia.
Qed.

Lemma rne_mono W1 W2 u : 0 < u -> W1 <= W2 -> rne W1 u <= rne W2 u.
Proof.
  intros Hu HW.
  pose proof (Z.div_mod W1 u ltac:(lia)) as Hdm1.
  pose proof (Z.mod_pos_bound W1 u Hu) as Hmod1.
  pose proof (Z.div_mod W2 u ltac:(lia)) as Hdm2.
  pose proof (Z.mod_pos_bound W2 u Hu) as Hmod2.
  destruct (Z.eq_dec (W1 / u) (W2 / u)) as [Heq|Hne].
  - assert (W1 mod u <= W2 mod u) by nia.
    unfold rne. cbv zeta. rewrite Heq.
    destruct (Z.ltb_spec (2 * (W1 mod u)) u), (Z.ltb_spec (2 * (W2 mod u)) u),
             (Z.ltb_spec u (2 * (W1 mod u))), (Z.ltb_spec u (2 * (W2 mod u)));
      try lia; destruct (Z.even (W2 / u)); lia.
  - assert (W1 / u < W2 / u) by nia.
    pose proof (rne_bounds W1 u Hu). pose proof (rne_bounds W2 u Hu). lia.
Qed.

Lemma rne_scale W u c : 0 < u -> 0 < c -> rne (W * c) (u * c) = rne W u.
Proof.
  intros Hu Hc. unfold rne. cbv zeta.
  rewrite Z.div_mul_cancel_r, Z.mul_mod_distr_r by lia.
  destruct (Z.ltb_spec (2 * (W mod u * c)) (u * c)), (Z.ltb_spec (2 * (W mod u)) u);
    try nia; try done.
  destruct (Z.ltb_spec (u * c) (2 * (W mod u * c))), (Z.ltb_spec u (2 * (W mod u)));
    try nia; done.
Qed.

Lemma rne_one W : rne W 1 = W.
Proof. unfold rne. cbv zeta. rewrite Z.div_1_r, Z.mod_1_r. done. Qed.

(** *** Shifting a mantissa right *)

Lemma shr_1_nonneg m r s :
  0 <= m -> shr_1 (Build_shr_record m r s) = Build_shr_record (m / 2) (Z.odd m) (r || s).
Proof.
  intros Hm. destruct m as [|[p|p|]|p]; [done| | |done|lia].
  - cbn [shr_1]. f_equal. rewrite (Pos2Z.inj_xI p).
    apply (Z.div_unique _ _ _ 1); lia.
  - cbn [shr_1]. f_equal. rewrite (Pos2Z.inj_xO p).
    apply (Z.div_unique _ _ _ 0); lia.
Qed.

Lemma iter_pos_nat {A} (f : A -> A) (p : positive) : forall x,
  SpecFloat.iter_pos f p x = Nat.iter (Pos.to_nat p) f x.
Proof.
  induction p as [p IH|p IH|]; intros x; cbn [SpecFloat.iter_pos]; [| |done].
  - rewrite !IH, Pos2Nat.inj_xI, <- Nat.iter_add.
    replace (Pos.to_nat p + Pos.to_nat p)%nat with (2 * Pos.to_nat p)%nat by lia.
    by rewrite Nat.iter_succ_r.
  - rewrite !IH, Pos2Nat.inj_xO, <- Nat.iter_add.
    by replace (Pos.to_nat p + Pos.to_nat p)%nat with (2 * Pos.to_nat p)%nat by lia.
Qed.

(** After [k] steps the record holds the quotient by [2^k] and the
    location of the remainder. *)
Lemma shr_steps (M : Z) (k : nat) :
  0 <= M ->
  let mrs := Nat.iter k shr_1 (Build_shr_record M false false) in
  shr_m mrs = M / 2 ^ Z.of_nat k /\
  loc_of_shr_record mrs = loc_of (M mod 2 ^ Z.of_nat k) (2 ^ Z.of_nat k).
Proof.
  intros HM. induction k as [|k IH]; cbv zeta.
  - simpl. rewrite Z.div_1_r, Z.mod_1_r. done.
  - cbv zeta in IH. rewrite Nat.iter_succ.
    destruct (Nat.iter k shr_1 _) as [m r s]. cbn [shr_m] in IH. destruct IH as [Hm Hloc].
    set (u := 2 ^ Z.of_nat k) in *.
    assert (Hu : 0 < u) by (apply Z.pow_pos_nonneg; lia).
    assert (Hu2 : 2 ^ Z.of_nat (S k) = 2 * u).
    { rewrite Nat2Z.inj_succ, Z.pow_succ_r by lia. done. }
    rewrite Hu2.
    pose proof (Z.div_mod M u ltac:(lia)) as Hdm.
    pose proof (Z.mod_pos_bound M u Hu) as Hmod.
    assert (Hm0 : 0 <= m) by (subst m; apply Z.div_pos; lia).
    pose proof (Z.div_mod m 2 ltac:(lia)) as Hdm2.
    pose proof (Z.mod_pos_bound m 2 ltac:(lia)) as Hmod2.
    assert (Hq : M / (2 * u) = m / 2).
    { subst m. rewrite (Z.mul_comm 2 u), <- Z.div_div by lia. done. }
    assert (Hr : M mod (2 * u) = M mod u + u * (m mod 2)).
    { symmetry. apply (Z.mod_unique_pos _ _ (m / 2)); nia. }
    rewrite shr_1_nonneg by done. cbn [shr_m]. split; [done|].
    rewrite Hr, (Zmod_odd m).
    assert (Hs : r || s = negb (M mod u =? 0)).
    { unfold loc_of in Hloc. destruct (Z.eqb_spec (M mod u) 0), r, s; done. }
    rewrite Hs. unfold loc_of.
    destruct (Z.odd m), (Z.eqb_spec (M mod u) 0) as [H0|H0]; cbn [negb loc_of_shr_record].
    + rewrite H0. destruct (Z.eqb_spec (0 + u * 1) 0); [lia|].
      by rewrite (proj2 (Z.compare_eq_iff _ _)) by lia.
    + destruct (Z.eqb_spec (M mod u + u * 1) 0); [lia|].
      by rewrite (proj2 (Z.compare_gt_iff _ _)) by lia.
    + rewrite H0. by destruct (Z.eqb_spec (0 + u * 0) 0); [|lia].
    + destruct (Z.eqb_spec (M mod u + u * 0) 0); [lia|].
      by rewrite (proj2 (Z.compare_lt_iff _ _)) by lia.
Qed.

Lemma shr_exact (M E n : Z) :
  0 <= M -> 0 <= n ->
  exists mrs,
    shr (shr_record_of_loc M loc_Exact) E n = (mrs, E + n) /\
    round_nearest_even (shr_m mrs) (loc_of_shr_record mrs) = rne M (2 ^ n).
Proof.
  intros HM Hn. destruct n as [|p|p]; [| |lia].
  - eexists. split; [cbn [shr]; by rewrite Z.add_0_r|].
    cbn [shr_record_of_loc shr_m loc_of_shr_record round_nearest_even].
    by rewrite rne_one.
  - eexists. split; [reflexivity|]. cbn [shr_record_of_loc].
    rewrite iter_pos_nat.
    destruct (shr_steps M (Pos.to_nat p) HM) as [Hm Hloc].
    rewrite positive_nat_Z in Hm, Hloc. rewrite Hm, Hloc.
    set (u := 2 ^ Z.pos p). assert (Hu : 0 < u) by (apply Z.pow_pos_nonneg; lia).
    pose proof (Z.mod_pos_bound M u Hu) as Hmod.
    unfold loc_of, rne. cbv zeta.
    destruct (Z.eqb_spec (M mod u) 0) as [H0|H0].
    + rewrite H0. cbn [round_nearest_even]. destruct (Z.ltb_spec (2 * 0) u); [done|lia].
    + destruct (Z.compare_spec (2 * (M mod u)) u); cbn [round_nearest_even].
      * destruct (Z.ltb_spec (2 * (M mod u)) u); [lia|].
        destruct (Z.ltb_spec u (2 * (M mod u))); [lia|done].
      * destruct (Z.ltb_spec (2 * (M mod u)) u); [done|lia].
      * destruct (Z.ltb_spec (2 * (M mod u)) u); [lia|].
        destruct (Z.ltb_spec u (2 * (M mod u))); [done|lia].
Qed.

Lemma shr_nonpos mrs e n : n <= 0 -> shr mrs e n = (mrs, e).
Proof. destruct n; [done|lia|done]. Qed.

(** *** Rounding to a double *)

Lemma fexp_eq x : fexp prec emax x = Z.max (x - 53) (-1074).
Proof. reflexivity. Qed.

Lemma pow2_pos k : 0 <= k -> 0 < 2 ^ k.
Proof. intros. apply Z.pow_pos_nonneg; lia. Qed.

Lemma pow2_le a b : 0 <= a <= b -> 2 ^ a <= 2 ^ b.
Proof. intros. apply Z.pow_le_mono_r; lia. Qed.

Lemma pow2_lt a b : 0 <= a < b -> 2 ^ a < 2 ^ b.
Proof. intros. apply Z.pow_lt_mono_r; lia. Qed.

(** The mantissa that rounding [M * 2^E] gives, at the exponent [c] of
    the result. *)
Lemma round_mantissa (M E : Z) :
  0 < M -> E <= fexp prec emax (Zdigits2 M + E) ->
  let c := fexp prec emax (Zdigits2 M + E) in
  let m := rne M (2 ^ (c - E)) in
  0 <= m <= 2 ^ 53 /\ (-1074 < c -> 2 ^ 52 <= m).
Proof.
  intros HM HE c m. subst c m. rewrite fexp_eq in *.
  set (d := Zdigits2 M) in *. set (c := Z.max (d + E - 53) (-1074)) in *.
  pose proof (Zdigits2_bounds M HM) as [Hlo Hhi]. fold d in Hlo, Hhi.
  pose proof (Zdigits2_pos M HM) as Hd. fold d in Hd.
  assert (Hu : 0 < 2 ^ (c - E)) by (apply pow2_pos; lia).
  split; [split|].
  - pose proof (rne_bounds M (2 ^ (c - E)) Hu) as [Hq _].
    pose proof (Z.div_pos M (2 ^ (c - E)) ltac:(lia) Hu). lia.
  - apply rne_le_multiple; [done|].
    rewrite <- Z.pow_add_r by lia.
    pose proof (pow2_le d (53 + (c - E)) ltac:(lia)). lia.
  - intros Hc. assert (Hn : c - E = d - 53) by lia.
    apply rne_ge_multiple; [done|].
    rewrite <- Z.pow_add_r by lia. by replace (52 + (c - E)) with (d - 1) by lia.
Qed.

Lemma round_aux_result (M E : Z) :
  0 < M -> E <= fexp prec emax (Zdigits2 M + E) ->
  let c := fexp prec emax (Zdigits2 M + E) in
  let m := rne M (2 ^ (c - E)) in
  let R := binary_round_aux prec emax false M E loc_Exact in
  nn R = true /\ valid_binary R = true /\
  vord R = Z.min (2 ^ 2098) (m * 2 ^ (c + 1074)).
Proof.
  intros HM HE c m R.
  destruct (round_mantissa M E HM HE) as [Hm Hm52]. fold c m in Hm, Hm52.
  assert (Hc : -1074 <= c) by (subst c; rewrite fexp_eq; lia).
  subst R. unfold binary_round_aux, shr_fexp. fold c.
  destruct (shr_exact M E (c - E) ltac:(lia) ltac:(lia)) as (mrs & -> & Hround).
  replace (E + (c - E)) with c by lia. rewrite Hround. fold m.
  assert (H2098 : 2 ^ 2098 = 2 ^ 53 * 2 ^ (971 + 1074)) by (by rewrite <- Z.pow_add_r).
  destruct (Z.eq_dec m 0) as [Hm0|Hm0].
  { rewrite Hm0. cbn [Zdigits2]. rewrite shr_nonpos by (rewrite fexp_eq; lia).
    cbn [shr_record_of_loc shr_m nn vord]. repeat split. }
  destruct (Z.eq_dec m (2 ^ 53)) as [Hm53|Hm53].
  { rewrite Hm53. change (Zdigits2 (2 ^ 53)) with 54. rewrite fexp_eq.
    replace (Z.max (54 + c - 53) (-1074) - c) with 1 by lia.
    change (shr (shr_record_of_loc (2 ^ 53) loc_Exact) c 1)
      with (Build_shr_record (2 ^ 52) false false, c + 1).
    cbn [shr_m]. change (2 ^ 52) with (Zpos (Z.to_pos (2 ^ 52))).
    change (emax - prec) with 971.
    destruct (Z.leb_spec (c + 1) 971) as [Hle|Hgt].
    - cbn [nn vord]. split; [done|]. split.
      + unfold valid_binary, bounded, canonical_mantissa. rewrite fexp_eq.
        change (Zpos (digits2_pos (Z.to_pos (2 ^ 52)))) with 53.
        change (emax - prec) with 971.
        apply andb_true_iff. split; [apply Z.eqb_eq|apply Z.leb_le]; lia.
      + change (Zpos (Z.to_pos (2 ^ 52))) with (2 ^ 52).
        replace (c + 1 + 1074) with (1 + (c + 1074)) by lia.
        rewrite (Z.pow_add_r 2 1) by lia. change (2 ^ 1) with 2.
        replace (2 ^ 52 * (2 * 2 ^ (c + 1074))) with (2 ^ 53 * 2 ^ (c + 1074))
          by (change (2 ^ 53) with (2 ^ 52 * 2); lia).
        pose proof (pow2_lt (c + 1074) (971 + 1074) ltac:(lia)).
        pose proof (pow2_pos (c + 1074) ltac:(lia)). nia.
    - cbn [nn vord]. repeat split.
      pose proof (pow2_le (971 + 1074) (c + 1074) ltac:(lia)).
      pose proof (pow2_pos (971 + 1074) ltac:(lia)). nia. }
  assert (Hdm : Zdigits2 m <= 53).
  { pose proof (Zdigits2_bounds m ltac:(lia)) as [Hlo _].
    pose proof (Zdigits2_pos m ltac:(lia)).
    assert (Zdigits2 m - 1 < 53); [|lia].
    apply (Z.pow_lt_mono_r_iff 2); lia. }
  rewrite shr_nonpos by (rewrite fexp_eq; lia).
  cbn [shr_record_of_loc shr_m].
  destruct m as [|p|p]; [done| |lia]. change (emax - prec) with 971.
  destruct (Z.leb_spec c 971) as [Hle|Hgt].
  - cbn [nn vord]. split; [done|]. split.
    + unfold valid_binary, bounded, canonical_mantissa. rewrite fexp_eq.
      change (emax - prec) with 971.
      apply andb_true_iff. split; [apply Z.eqb_eq|apply Z.leb_le; lia].
      change (Zpos (digits2_pos p)) with (Zdigits2 (Zpos p)).
      destruct (Z.eq_dec c (-1074)) as [->|Hc']; [lia|].
      specialize (Hm52 ltac:(lia)).
      rewrite (Zdigits2_unique (Zpos p) 53); [lia|lia|lia].
    + pose proof (pow2_le (c + 1074) (971 + 1074) ltac:(lia)).
      pose proof (pow2_pos (c + 1074) ltac:(lia)). nia.
  - cbn [nn vord]. repeat split. specialize (Hm52 ltac:(lia)).
    pose proof (pow2_le (972 + 1074) (c + 1074) ltac:(lia)).
    replace (2 ^ 2098) with (2 ^ 52 * 2 ^ (972 + 1074)) by (by rewrite <- Z.pow_add_r).
    pose proof (pow2_pos (972 + 1074) ltac:(lia)). nia.
Qed.

(** Rounding computes [rndv] of the exact value. *)
Lemma round_aux_rndv (M E : Z) :
  0 < M -> -2148 <= E -> E <= fexp prec emax (Zdigits2 M + E) ->
  let R := binary_round_aux prec emax false M E loc_Exact in
  nn R = true /\ valid_binary R = true /\ vord R = rndv (M * 2 ^ (E + 2148)).
Proof.
  intros HM HE Hc R. destruct (round_aux_result M E HM Hc) as (Hnn & Hv & Hord).
  split; [done|]. split; [done|]. fold R in Hord. rewrite Hord. clear Hord Hnn Hv R.
  rewrite fexp_eq in *. unfold rndv, ulp_exp.
  rewrite Zdigits2_mul_pow2 by lia.
  set (c := Z.max (Zdigits2 M + E - 53) (-1074)) in *.
  replace (Z.max (Zdigits2 M + (E + 2148) - 1127) 0) with (c + 1074) by lia.
  replace (c + 1074 + 1074) with ((c - E) + (E + 2148)) by lia.
  rewrite (Z.pow_add_r 2 (c - E)) by lia.
  rewrite rne_scale by (apply pow2_pos; lia). done.
Qed.

Lemma ulp_exp_nonneg W : 0 <= ulp_exp W.
Proof. unfold ulp_exp. lia. Qed.

(** Rounding is monotone. *)
Lemma rndv_mono (W1 W2 : Z) : 0 <= W1 <= W2 -> rndv W1 <= rndv W2.
Proof.
  intros [H1 H12]. unfold rndv. apply Z.min_le_compat_l.
  pose proof (Zdigits2_mono W1 W2 ltac:(lia)) as Hd.
  pose proof (ulp_exp_nonneg W1) as Hu1. pose proof (ulp_exp_nonneg W2) as Hu2.
  destruct (Z.eq_dec (ulp_exp W1) (ulp_exp W2)) as [Heq|Hne].
  - rewrite Heq. apply Z.mul_le_mono_nonneg_r; [apply Z.lt_le_incl, pow2_pos; lia|].
    apply rne_mono; [apply pow2_pos; lia|done].
  - assert (Hlt : ulp_exp W1 < ulp_exp W2) by (unfold ulp_exp in *; lia).
    assert (HD2 : ulp_exp W2 = Zdigits2 W2 - 1127) by (unfold ulp_exp in *; lia).
    assert (HW2 : 0 < W2) by (destruct W2; [simpl in HD2; unfold ulp_exp in *; simpl in *|..]; lia).
    pose proof (Zdigits2_bounds W2 HW2) as [Hlo2 _].
    set (D2 := Zdigits2 W2) in *.
    (* the power of two between the two values *)
    assert (HT1 : W1 <= 2 ^ (D2 - 1 - (ulp_exp W1 + 1074)) * 2 ^ (ulp_exp W1 + 1074)).
    { rewrite <- Z.pow_add_r by lia. replace (D2 - 1 - _ + _) with (D2 - 1) by lia.
      destruct (Z.eq_dec W1 0) as [->|Hne1]; [apply Z.lt_le_incl, pow2_pos; lia|].
      pose proof (Zdigits2_bounds W1 ltac:(lia)) as [_ Hhi1].
      pose proof (Zdigits2_pos W1 ltac:(lia)).
      pose proof (pow2_le (Zdigits2 W1) (D2 - 1) ltac:(unfold ulp_exp in *; lia)). lia. }
    assert (HT2 : 2 ^ 52 * 2 ^ (ulp_exp W2 + 1074) <= W2).
    { rewrite <- Z.pow_add_r by lia. by replace (52 + (ulp_exp W2 + 1074)) with (D2 - 1) by lia. }
    apply rne_le_multiple in HT1; [|apply pow2_pos; lia].
    apply rne_ge_multiple in HT2; [|apply pow2_pos; lia].
    pose proof (pow2_pos (ulp_exp W1) Hu1). pose proof (pow2_pos (ulp_exp W2) Hu2).
    assert (Hmid : 2 ^ (D2 - 1 - (ulp_exp W1 + 1074)) * 2 ^ ulp_exp W1 = 2 ^ 52 * 2 ^ ulp_exp W2).
    { rewrite <- !Z.pow_add_r by lia. f_equal. lia. }
    nia.
Qed.

(** Rounding keeps the integers up to 2^53. *)
Lemma rndv_exact (z : Z) : 0 <= z <= 2 ^ 53 -> rndv (z * 2 ^ 2148) = z * 2 ^ 1074.
Proof.
  intros [Hz Hz53]. destruct (Z.eq_dec z 0) as [->|Hne]; [done|].
  unfold rndv, ulp_exp. rewrite Zdigits2_mul_pow2 by lia.
  pose proof (Zdigits2_bounds z ltac:(lia)) as [Hlo Hhi].
  pose proof (Zdigits2_pos z ltac:(lia)) as Hd.
  set (d := Zdigits2 z) in *.
  assert (Hd54 : d <= 54).
  { assert (d - 1 < 54); [|lia]. apply (Z.pow_lt_mono_r_iff 2); [lia|lia|].
    pose proof (pow2_lt 53 54 ltac:(lia)). lia. }
  replace (Z.max (d + 2148 - 1127) 0) with (d + 1021) by lia.
  destruct (Z.eq_dec d 54) as [Hd'|Hd'].
  - (* z = 2^53 *)
    assert (z = 2 ^ 53) as -> by (rewrite Hd' in Hlo; change (54 - 1) with 53 in Hlo; lia).
    rewrite Hd'. vm_compute. reflexivity.
  - replace (z * 2 ^ 2148) with (z * 2 ^ (53 - d) * 2 ^ (d + 1021 + 1074)).
    2:{ rewrite <- Z.mul_assoc, <- Z.pow_add_r by lia. do 2 f_equal. lia. }
    rewrite rne_multiple by (apply pow2_pos; lia).
    rewrite <- Z.mul_assoc, <- Z.pow_add_r by lia.
    replace (53 - d + (d + 1021)) with 1074 by lia.
    apply Z.min_r.
    pose proof (pow2_lt 53 1024 ltac:(lia)).
    replace (2 ^ 2098) with (2 ^ 1024 * 2 ^ 1074) by (by rewrite <- Z.pow_add_r).
    pose proof (pow2_pos 1074 ltac:(lia)). nia.
Qed.

(** *** Comparing doubles *)

Lemma valid_finite s m e :
  valid_binary (S754_finite s m e) = true ->
  -1074 <= e <= 971 /\ Zpos m < 2 ^ 53 /\ (-1074 < e -> 2 ^ 52 <= Zpos m).
Proof.
  unfold valid_binary, bounded, canonical_mantissa. rewrite fexp_eq.
  change (emax - prec) with 971.
  intros [Hc He]%andb_true_iff. apply Z.eqb_eq in Hc. apply Z.leb_le in He.
  pose proof (digits2_pos_bounds m) as [Hlo Hhi].
  set (d := Zpos (digits2_pos m)) in *. assert (Hd : 0 < d) by done.
  split; [lia|]. split.
  - pose proof (pow2_le d 53 ltac:(lia)). lia.
  - intros He'. by replace (d - 1) with 52 in Hlo by lia.
Qed.

Lemma vord_nonneg x : nn x = true -> 0 <= vord x.
Proof.
  destruct x as [s|[]|  |[] m e]; try done. intros _. cbn [vord].
  destruct (Z.leb_spec 0 (e + 1074)).
  - pose proof (pow2_pos (e + 1074) ltac:(lia)). lia.
  - rewrite Z.pow_neg_r by lia. lia.
Qed.

(** On valid doubles that are not below zero, the comparison is that of
    the values. *)
Lemma compare_vord x y :
  valid_binary x = true -> valid_binary y = true -> nn x = true -> nn y = true ->
  SFcompare x y = Some (vord x ?= vord y).
Proof.
  intros Hvx Hvy Hx Hy.
  destruct x as [sx|[]| |[] mx ex]; try done; destruct y as [sy|[]| |[] my ey]; try done;
    cbn [SFcompare vord]; try (apply valid_finite in Hvx as (Hex & Hmx & Hnx));
    try (apply valid_finite in Hvy as (Hey & Hmy & Hny)).
  - f_equal. symmetry. apply Z.compare_lt_iff.
    pose proof (pow2_pos (ey + 1074) ltac:(lia)). lia.
  - f_equal. symmetry. apply Z.compare_gt_iff.
    pose proof (pow2_le (ey + 1074) (971 + 1074) ltac:(lia)).
    pose proof (pow2_pos (ey + 1074) ltac:(lia)).
    replace (2 ^ 2098) with (2 ^ 53 * 2 ^ (971 + 1074)) by (by rewrite <- Z.pow_add_r). nia.
  - f_equal. symmetry. apply Z.compare_gt_iff.
    pose proof (pow2_pos (ex + 1074) ltac:(lia)). lia.
  - f_equal. symmetry. apply Z.compare_lt_iff.
    pose proof (pow2_le (ex + 1074) (971 + 1074) ltac:(lia)).
    pose proof (pow2_pos (ex + 1074) ltac:(lia)).
    replace (2 ^ 2098) with (2 ^ 53 * 2 ^ (971 + 1074)) by (by rewrite <- Z.pow_add_r). nia.
  - f_equal. destruct (Z.compare_spec ex ey) as [->|Hlt|Hgt].
    + rewrite Pos.compare_cont_spec. cbn [Pos.switch_Eq].
      pose proof (pow2_pos (ey + 1074) ltac:(lia)).
      change (mx ?= my)%positive with (Zpos mx ?= Zpos my).
      symmetry. destruct (Z.compare_spec (Zpos mx) (Zpos my)) as [Heq|Hl|Hg].
      * rewrite Heq. apply Z.compare_refl.
      * apply Z.compare_lt_iff. nia.
      * apply Z.compare_gt_iff. nia.
    + symmetry. apply Z.compare_lt_iff. specialize (Hny ltac:(lia)).
      pose proof (pow2_le (ex + 1 + 1074) (ey + 1074) ltac:(lia)).
      pose proof (pow2_pos (ex + 1074) ltac:(lia)).
      replace (ex + 1 + 1074) with (1 + (ex + 1074)) in * by lia.
      rewrite (Z.pow_add_r 2 1) in * by lia. change (2 ^ 1) with 2 in *.
      change (2 ^ 53) with (2 ^ 52 * 2) in Hmx. nia.
    + symmetry. apply Z.compare_gt_iff. specialize (Hnx ltac:(lia)).
      pose proof (pow2_le (ey + 1 + 1074) (ex + 1074) ltac:(lia)).
      pose proof (pow2_pos (ey + 1074) ltac:(lia)).
      replace (ey + 1 + 1074) with (1 + (ey + 1074)) in * by lia.
      rewrite (Z.pow_add_r 2 1) in * by lia. change (2 ^ 1) with 2 in *.
      change (2 ^ 53) with (2 ^ 52 * 2) in Hmy. nia.
Qed.

(** [0 <= f] holds of the doubles that [nn] describes. *)
Lemma leb_zero (f : float) : PrimFloat.leb 0 f = nn (Prim2SF f).
Proof.
  rewrite leb_spec. change (Prim2SF 0) with (S754_zero false).
  by destruct (Prim2SF f) as [s|[]| |[] m e].
Qed.

Lemma leb_fv (a b : float) :
  PrimFloat.leb 0 a = true -> PrimFloat.leb 0 b = true ->
  PrimFloat.leb a b = (fv a <=? fv b) /\ PrimFloat.ltb a b = (fv a <? fv b).
Proof.
  rewrite !leb_zero. intros Ha Hb. rewrite leb_spec, ltb_spec. unfold SFleb, SFltb, fv.
  rewrite (compare_vord _ _ (Prim2SF_valid a) (Prim2SF_valid b) Ha Hb).
  unfold Z.leb, Z.ltb. by destruct (_ ?= _).
Qed.

(** What is above a double that is not below zero is not below zero. *)
Lemma leb_trans_zero (a b : float) :
  PrimFloat.leb 0 a = true -> PrimFloat.leb a b = true -> PrimFloat.leb 0 b = true.
Proof.
  rewrite !leb_zero, leb_spec. unfold SFleb.
  by destruct (Prim2SF a) as [sa|[]| |[] ma ea], (Prim2SF b) as [sb|[]| |[] mb eb].
Qed.

(** *** Squares and integers *)

(** The square of a double that is not below zero is the rounded square
    of its value. *)
Lemma square_fv (a : float) :
  PrimFloat.leb 0 a = true ->
  PrimFloat.leb 0 (a * a) = true /\ fv (a * a) = rndv (fv a * fv a).
Proof.
  rewrite !leb_zero. unfold fv. rewrite mul_spec. unfold SF64mul.
  pose proof (Prim2SF_valid a) as Hv.
  destruct (Prim2SF a) as [s|[]| |[] m e]; intros Hnn; try discriminate Hnn; clear Hnn.
  - destruct s; (split; [reflexivity|vm_compute; reflexivity]).
  - split; [reflexivity|vm_compute; reflexivity].
  - apply valid_finite in Hv as (He & Hm & Hn).
    cbn [SFmul xorb vord].
    assert (Hfexp : e + e <= fexp prec emax (Zdigits2 (Zpos (m * m)) + (e + e))).
    { rewrite fexp_eq. destruct (Z.leb_spec e (-537)); [lia|].
      specialize (Hn ltac:(lia)).
      pose proof (Zdigits2_bounds (Zpos (m * m)) ltac:(done)) as [_ Hhi].
      pose proof (Zdigits2_pos (Zpos (m * m)) ltac:(done)).
      assert (104 < Zdigits2 (Zpos (m * m))); [|lia].
      apply (Z.pow_lt_mono_r_iff 2); [lia|lia|].
      rewrite Pos2Z.inj_mul in Hhi |- *. change (2 ^ 104) with (2 ^ 52 * 2 ^ 52). nia. }
    destruct (round_aux_rndv (Zpos (m * m)) (e + e) ltac:(done) ltac:(lia) Hfexp)
      as (Hnn & _ & Hord).
    split; [done|]. rewrite Hord. f_equal.
    rewrite Pos2Z.inj_mul.
    replace (e + e + 2148) with ((e + 1074) + (e + 1074)) by lia.
    rewrite Z.pow_add_r by lia. lia.
Qed.

Lemma iter_xO (p d : positive) : Zpos (Pos.iter xO p d) = Zpos p * 2 ^ Zpos d.
Proof.
  induction d as [|d IH] using Pos.peano_ind.
  - cbn [Pos.iter]. rewrite (Pos2Z.inj_xO p). change (2 ^ 1) with 2. lia.
  - rewrite Pos.iter_succ, Pos2Z.inj_xO, IH, Pos2Z.inj_succ, Z.pow_succ_r by lia. lia.
Qed.

(** The double of a positive integer. *)
Lemma normalize_pos (p : positive) :
  let x := binary_normalize prec emax (Zpos p) 0 false in
  nn x = true /\ valid_binary x = true /\ vord x = rndv (Zpos p * 2 ^ 2148).
Proof.
  cbv zeta. cbn [binary_normalize]. unfold binary_round, shl_align.
  change (Zpos (digits2_pos p)) with (Zdigits2 (Zpos p)).
  pose proof (Zdigits2_pos (Zpos p) ltac:(done)) as Hd.
  set (c := fexp prec emax (Zdigits2 (Zpos p) + 0)).
  assert (Hc : c = Z.max (Zdigits2 (Zpos p) - 53) (-1074)).
  { subst c. rewrite fexp_eq. lia. }
  destruct (c - 0) as [|d|d] eqn:Hcd.
  - apply (round_aux_rndv (Zpos p) 0); [done|lia|]. fold c. lia.
  - apply (round_aux_rndv (Zpos p) 0); [done|lia|]. fold c. lia.
  - assert (Hdc : Zpos d = - c) by lia.
    pose proof (round_aux_rndv (Zpos (Pos.iter xO p d)) c ltac:(done) ltac:(lia)) as H.
    rewrite iter_xO, Zdigits2_mul_pow2, fexp_eq in H by lia.
    specialize (H ltac:(lia)). cbv zeta in H.
    rewrite <- Z.mul_assoc, <- Z.pow_add_r in H by lia.
    replace (Zpos d + (c + 2148)) with 2148 in H by lia.
    rewrite <- iter_xO in H. exact H.
Qed.

(** The double of an integer that is not below zero. *)
Lemma Z2F_fv (z : Z) :
  0 <= z ->
  PrimFloat.leb 0 (JS.Z2F z) = true /\ fv (JS.Z2F z) = rndv (z * 2 ^ 2148).
Proof.
  intros Hz. destruct z as [|p|p]; [by vm_compute| |lia].
  cbn [JS.Z2F]. unfold JS.P2F, fv. rewrite leb_zero.
  destruct (normalize_pos p) as (Hnn & Hv & Hord).
  rewrite Prim2SF_SF2Prim by done. done.
Qed.

(** The double of an integer below zero is below every double that is not
    below zero. *)
Lemma Z2F_negative (a : float) (z : Z) :
  z < 0 -> PrimFloat.leb 0 a = true -> PrimFloat.leb a (JS.Z2F z) = false.
Proof.
  intros Hz. destruct z as [|p|p]; [lia|lia|]. rewrite leb_zero. intros Ha.
  cbn [JS.Z2F]. unfold JS.P2F. rewrite leb_spec, opp_spec.
  destruct (normalize_pos p) as (Hnn & Hv & Hord).
  rewrite Prim2SF_SF2Prim by done.
  assert (Hpos : 0 < vord (binary_normalize prec emax (Zpos p) 0 false)).
  { rewrite Hord. pose proof (rndv_mono (1 * 2 ^ 2148) (Zpos p * 2 ^ 2148)) as Hmono.
    rewrite (rndv_exact 1) in Hmono by (split; [lia|apply Z.lt_le_incl, (pow2_lt 0 53); lia]).
    pose proof (pow2_pos 2148 ltac:(lia)). pose proof (pow2_pos 1074 ltac:(lia)).
    specialize (Hmono ltac:(nia)). lia. }
  destruct (binary_normalize prec emax (Zpos p) 0 false) as [s|[]| |[] m e]; try done;
    by destruct (Prim2SF a) as [sa|[]| |[] ma ea].
Qed.

End FloatOrder.

(** ** Threshold monotonicity *)

(** [classifiedBackground] is the branch condition of [classifyPixel]. *)
Lemma classifyPixel_background img settings st i :
  mode settings <> Mode.colorPicker ->
  classifyPixel settings (referenceColor img settings) st i =
  if classifiedBackground img settings (fst st) i
  then on_match settings i (JS.shl2 i)
         (colorDistanceSquared_u (aget (fst st) (JS.shl2 i)) (aget (fst st) (JS.shl2 i + 1))
            (aget (fst st) (JS.shl2 i + 2))
            (Color.r (referenceColor img settings)) (Color.g (referenceColor img settings))
            (Color.b (referenceColor img settings)))
         (effectiveThreshold settings) st
  else st.
Proof.
  intros Hm. unfold classifyPixel, classifiedBackground.
  destruct (mode settings); done.
Qed.

(** It reads colour bytes only, which phase 1 never changes: the test gives
    the same answer at any point of the job as on the input buffer. *)
Lemma classifiedBackground_same_rgb img settings d i :
  same_rgb (data img) d ->
  classifiedBackground img settings d i = classifiedBackground img settings (data img) i.
Proof.
  intros [_ H]. unfold classifiedBackground. pose proof (shl2_mod4 i) as H4.
  rewrite !H; [done| | |].
  - rewrite Z.add_mod, H4 by lia. done.
  - rewrite Z.add_mod, H4 by lia. done.
  - rewrite H4. done.
Qed.

Lemma colorDistanceSquared_nonneg r1 g1 b1 r2 g2 b2 :
  0 <= colorDistanceSquared r1 g1 b1 r2 g2 b2.
Proof.
  cbv [colorDistanceSquared SQUARED_COLOR_WEIGHTS].
  pose proof (Z.square_nonneg (r1 - r2)). pose proof (Z.square_nonneg (g1 - g2)).
  pose proof (Z.square_nonneg (b1 - b2)). nia.
Qed.

(** The test against a threshold passes against every threshold above
    it. *)
Lemma matches_mono (d : Z) (t1 t2 : JS.number) :
  exact_square t1 -> exact_square t2 -> nonneg t1 -> JS.nleb t1 t2 = true -> 0 <= d ->
  matches (Some d) t1 = true -> matches (Some d) t2 = true.
Proof.
  unfold nonneg, matches.
  destruct t1 as [a|f], t2 as [b|g]; cbn [exact_square JS.nleb JS.nltb JS.nmul JS.toF];
    intros Ha Hb H0 H12 Hd.
  - rewrite !Z.ltb_lt. apply Z.leb_le in H0, H12. nia.
  - (* integer below double *)
    apply Z.leb_le in H0. rewrite Z.ltb_lt. intros Hlt.
    destruct (FloatOrder.Z2F_fv a H0) as [Hna Hfa].
    destruct (FloatOrder.Z2F_fv d Hd) as [Hnd Hfd].
    pose proof (FloatOrder.leb_trans_zero _ _ Hna H12) as Hng.
    destruct (FloatOrder.square_fv g Hng) as [Hngg Hfgg].
    destruct (FloatOrder.leb_fv _ _ Hna Hng) as [Hle _]. rewrite H12 in Hle.
    destruct (FloatOrder.leb_fv _ _ Hnd Hngg) as [_ ->].
    symmetry in Hle. apply Z.leb_le in Hle. apply Z.ltb_lt.
    assert (Ha26 : a <= 2 ^ 26) by lia.
    assert (Ha53 : a * a <= 2 ^ 53) by (change (2 ^ 53) with (2 ^ 26 * 2 ^ 26 * 2); nia).
    rewrite FloatOrder.rndv_exact in Hfa by lia.
    rewrite FloatOrder.rndv_exact in Hfd by nia.
    rewrite Hfd, Hfgg.
    pose proof (FloatOrder.rndv_mono (fv (JS.Z2F a) * fv (JS.Z2F a)) (fv g * fv g)) as Hmono.
    pose proof (FloatOrder.pow2_pos 1074 ltac:(lia)) as H1074.
    specialize (Hmono ltac:(rewrite Hfa in *; nia)).
    rewrite Hfa in Hmono.
    replace (a * 2 ^ 1074 * (a * 2 ^ 1074)) with (a * a * 2 ^ 2148) in Hmono
      by (change 2148 with (1074 + 1074); rewrite Z.pow_add_r by lia; lia).
    rewrite FloatOrder.rndv_exact in Hmono by nia. nia.
  - (* double below integer *)
    change (JS.Z2F 0) with 0%float in H0. intros Hlt. apply Z.ltb_lt.
    destruct (Z.ltb_spec b 0) as [Hneg|Hb0].
    { by rewrite (FloatOrder.Z2F_negative f b Hneg H0) in H12. }
    destruct (FloatOrder.Z2F_fv b Hb0) as [Hnb Hfb].
    destruct (FloatOrder.Z2F_fv d Hd) as [Hnd Hfd].
    destruct (FloatOrder.square_fv f H0) as [Hnff Hfff].
    destruct (FloatOrder.leb_fv _ _ H0 Hnb) as [Hle _]. rewrite H12 in Hle.
    destruct (FloatOrder.leb_fv _ _ Hnd Hnff) as [_ Hlt']. rewrite Hlt in Hlt'.
    symmetry in Hle, Hlt'. apply Z.leb_le in Hle. apply Z.ltb_lt in Hlt'.
    assert (Hb26 : b <= 2 ^ 26) by lia.
    assert (Hb53 : b * b <= 2 ^ 53) by (change (2 ^ 53) with (2 ^ 26 * 2 ^ 26 * 2); nia).
    rewrite FloatOrder.rndv_exact in Hfb by lia.
    pose proof (FloatOrder.vord_nonneg (Prim2SF f)) as Hf0.
    rewrite <- FloatOrder.leb_zero in Hf0. specialize (Hf0 H0). fold (fv f) in Hf0.
    pose proof (FloatOrder.rndv_mono (fv f * fv f) (fv (JS.Z2F b) * fv (JS.Z2F b))) as Hmono.
    pose proof (FloatOrder.pow2_pos 1074 ltac:(lia)) as H1074.
    pose proof (FloatOrder.pow2_pos 2148 ltac:(lia)) as H2148.
    specialize (Hmono ltac:(rewrite Hfb in *; nia)).
    rewrite Hfb in Hmono.
    replace (b * 2 ^ 1074 * (b * 2 ^ 1074)) with (b * b * 2 ^ 2148) in Hmono
      by (change 2148 with (1074 + 1074); rewrite Z.pow_add_r by lia; lia).
    rewrite FloatOrder.rndv_exact in Hmono by nia.
    destruct (Z.ltb_spec d (b * b)) as [|Hge]; [done|]. exfalso.
    pose proof (FloatOrder.rndv_mono (b * b * 2 ^ 2148) (d * 2 ^ 2148) ltac:(nia)) as Hmono'.
    rewrite FloatOrder.rndv_exact in Hmono' by nia. lia.
  - (* two doubles *)
    change (JS.Z2F 0) with 0%float in H0. intros Hlt.
    destruct (FloatOrder.Z2F_fv d Hd) as [Hnd Hfd].
    pose proof (FloatOrder.leb_trans_zero _ _ H0 H12) as Hng.
    destruct (FloatOrder.square_fv f H0) as [Hnff Hfff].
    destruct (FloatOrder.square_fv g Hng) as [Hngg Hfgg].
    destruct (FloatOrder.leb_fv _ _ H0 Hng) as [Hle _]. rewrite H12 in Hle.
    destruct (FloatOrder.leb_fv _ _ Hnd Hnff) as [_ Hlt']. rewrite Hlt in Hlt'.
    destruct (FloatOrder.leb_fv _ _ Hnd Hngg) as [_ ->].
    symmetry in Hle, Hlt'. apply Z.leb_le in Hle. apply Z.ltb_lt in Hlt'. apply Z.ltb_lt.
    pose proof (FloatOrder.vord_nonneg (Prim2SF f)) as Hf0.
    rewrite <- FloatOrder.leb_zero in Hf0. specialize (Hf0 H0). fold (fv f) in Hf0.
    pose proof (FloatOrder.rndv_mono (fv f * fv f) (fv g * fv g) ltac:(nia)) as Hmono.
    lia.
Qed.

(** An [Int] whose square is exact passes the test exactly when the double
    of the same value does. *)
Lemma matches_Int_Dbl (d z : Z) :
  0 <= d -> 0 <= z <= 2 ^ 26 ->
  matches (Some d) (JS.Int z) = matches (Some d) (JS.Dbl (JS.Z2F z)).
Proof.
  intros Hd Hz. unfold matches. cbn [JS.nltb JS.nmul JS.toF].
  destruct (FloatOrder.Z2F_fv z ltac:(lia)) as [Hnz Hfz].
  destruct (FloatOrder.Z2F_fv d Hd) as [Hnd Hfd].
  destruct (FloatOrder.square_fv _ Hnz) as [Hnzz Hfzz].
  destruct (FloatOrder.leb_fv _ _ Hnd Hnzz) as [_ ->].
  assert (Hz53 : z * z <= 2 ^ 53) by (change (2 ^ 53) with (2 ^ 26 * 2 ^ 26 * 2); nia).
  pose proof (FloatOrder.pow2_pos 1074 ltac:(lia)) as H1074.
  pose proof (FloatOrder.pow2_pos 2148 ltac:(lia)) as H2148.
  rewrite FloatOrder.rndv_exact in Hfz by lia.
  rewrite Hfzz, Hfz, Hfd.
  replace (z * 2 ^ 1074 * (z * 2 ^ 1074)) with (z * z * 2 ^ 2148)
    by (change 2148 with (1074 + 1074); rewrite Z.pow_add_r by lia; lia).
  rewrite (FloatOrder.rndv_exact (z * z)) by nia.
  destruct (Z.ltb_spec d (z * z)) as [Hlt|Hge]; symmetry.
  - rewrite FloatOrder.rndv_exact by nia. apply Z.ltb_lt. nia.
  - apply Z.ltb_ge.
    pose proof (FloatOrder.rndv_mono (z * z * 2 ^ 2148) (d * 2 ^ 2148) ltac:(nia)) as Hmono.
    by rewrite FloatOrder.rndv_exact in Hmono by nia.
Qed.

Lemma filter_length_mono {A} (f g : A -> bool) (l : list A) :
  (forall x, f x = true -> g x = true) ->
  (length (List.filter f l) <= length (List.filter g l))%nat.
Proof.
  intros Hfg. induction l as [|x l IH]; simpl; [done|].
  destruct (f x) eqn:Hf.
  - rewrite (Hfg x Hf). simpl. lia.
  - destruct (g x); simpl; lia.
Qed.

(** [C7], as stated, fails: a threshold is compared by its square, and on
    the buffer of a white and a black pixel the threshold -10 classifies
    the white pixel as background where the larger threshold 0 classifies
    none. *)
Lemma threshold_negative_counterexample :
  JS.nleb (JS.Int (-10)) (JS.Int 0) = true /\
  backgroundCount (two_pixels 255) (manual_hard (-10)) = 1%nat /\
  backgroundCount (two_pixels 255) (manual_hard 0) = 0%nat /\
  ~ (backgroundCount (two_pixels 255) (manual_hard (-10)) <=
     backgroundCount (two_pixels 255) (manual_hard 0))%nat.
Proof. repeat split; try (vm_compute; reflexivity). vm_compute. lia. Qed.

(** [C7], amended: in manual mode, on a fixed buffer, raising the threshold
    from [t1] to [t2] with [0 <= t1 <= t2], all other settings equal, does
    not lower the number of pixels classified as background.  The thresholds
    are any two doubles, fractional ones and infinity included (a NaN is not
    below or above anything); written as [Int], a threshold has an exact
    square. *)
Theorem threshold_monotone (img : ImageData) (t1 t2 : JS.number) (autoT : JS.number)
    (colors : list SelectedColor.t) (edge : EdgeMode.t) (radius : Z)
    (magic : MagicSelectionState) :
  exact_square t1 -> exact_square t2 ->
  nonneg t1 -> JS.nleb t1 t2 = true ->
  (backgroundCount img (mkSettings Mode.manual t1 autoT colors edge radius magic) <=
   backgroundCount img (mkSettings Mode.manual t2 autoT colors edge radius magic))%nat.
Proof.
  intros He1 He2 H0 H12. unfold backgroundCount. apply filter_length_mono.
  intros i. unfold classifiedBackground, referenceColor, effectiveThreshold. simpl.
  unfold colorDistanceSquared_u. repeat case_match; try done.
  apply matches_mono; try done. apply colorDistanceSquared_nonneg.
Qed.

Lemma threshold_monotone_witness :
  (backgroundCount (two_pixels 255)
     (mkSettings Mode.manual (JS.Dbl 100.5) (JS.Int 0) [] EdgeMode.hard 2
        (mkMagicSelectionState false (JS.Int 32) None [])) <=
   backgroundCount (two_pixels 255)
     (mkSettings Mode.manual (JS.Int 766) (JS.Int 0) [] EdgeMode.hard 2
        (mkMagicSelectionState false (JS.Int 32) None [])))%nat.
Proof.
  apply (threshold_monotone (two_pixels 255) (JS.Dbl 100.5) (JS.Int 766)).
  - exact I.
  - simpl. lia.
  - reflexivity.
  - reflexivity.
Defined.

(** ** Cancellation *)

(** [C5] fails on a job of a single chunk with hard edges: a [cancel]
    handled during the job's only [await] (here: during every await) is
    never looked at, and the job posts [complete]. *)
Theorem cancel_in_last_await_lost (Math_exp : float -> float) :
  processImage Math_exp (fun _ => true) (two_pixels 255) (manual_hard 10) =
  ([progress 100; complete (mkImageData 2 1 [255; 255; 255; 0; 0; 0; 0; 255])], None).
Proof. vm_compute. reflexivity. Qed.

(** What follows delimits the failure. *)

Lemma on_match_mask settings i pixelIndex distSq limit st :
  is_Some (snd st) -> is_Some (snd (on_match settings i pixelIndex distSq limit st)).
Proof.
  intros [m Hm]. unfold on_match. rewrite Hm.
  destruct (useAdvancedEdge _); simpl; [eauto|].
  destruct (edgeMode settings); simpl; eauto.
Qed.

Lemma classifyChunk_mask settings dominantColor chunkStart chunkEnd st :
  is_Some (snd st) ->
  is_Some (snd (classifyChunk settings dominantColor chunkStart chunkEnd st)).
Proof.
  unfold classifyChunk. generalize (seqZ chunkStart (chunkEnd - chunkStart)).
  intros l. revert st. induction l as [|i l IH]; intros st Hst; simpl; [done|].
  apply IH. unfold classifyPixel.
  assert (Hpick : forall colors st r g b, is_Some (snd st) ->
            is_Some (snd (pickFirst settings i (JS.shl2 i) r g b colors st))).
  { clear. induction colors as [|c colors IHc]; intros st r g b Hst; simpl; [done|].
    destruct (matches _ _); [by apply on_match_mask|by apply IHc]. }
  destruct (mode settings); try (by apply Hpick);
    (destruct (matches _ _); [by apply on_match_mask|done]).
Qed.

Lemma only_progress_snoc out p : only_progress out -> only_progress (out ++ [progress p]).
Proof. intros [ps ->]. exists (ps ++ [p]). by rewrite fmap_app. Qed.

Lemma phase1_cancel_seen cancelAt settings dominantColor totalPixels starts : forall j,
  is_Some (jmask j) -> only_progress (posted j) ->
  isCancelled j = true \/
    (exists k, (yields j <= k < yields j + length starts)%nat /\ cancelAt k = true) ->
  match phase1 cancelAt settings dominantColor totalPixels starts j with
  | Stop j' => exists ps, posted j' = (progress <$> ps) ++ [cancelled]
  | Go j' => isCancelled j' = true /\ is_Some (jmask j') /\ only_progress (posted j')
  end.
Proof.
  induction starts as [|chunkStart starts IH]; intros j Hm Hp Hc; simpl.
  - destruct Hc as [Hc|(k & Hk & _)]; [done|simpl in Hk; lia].
  - destruct (isCancelled j) eqn:Hj.
    + simpl. destruct Hp as [ps ->]. by exists ps.
    + apply IH; simpl.
      * by apply classifyChunk_mask.
      * destruct (PrimFloat.leb _ _); [by apply only_progress_snoc|done].
      * destruct Hc as [Hc|(k & Hk & Hck)]; [done|].
        destruct (decide (k = yields j)) as [->|Hne]; [left; by rewrite Hck|].
        right. exists k. split; [simpl in Hk; lia|done].
Qed.

(** With an advanced edge mode (smooth, refine, decontaminate) the flag is
    looked at again after the last chunk: a [cancel] handled in any await
    of phase 1 ends the job with [cancelled], after progress reports only,
    and no [complete] is posted. *)
Theorem cancel_seen_advanced Math_exp cancelAt img settings k :
  useAdvancedEdge (edgeMode settings) = true ->
  (k < length (chunkStarts (width img * height img)))%nat ->
  cancelAt k = true ->
  exists ps, fst (processImage Math_exp cancelAt img settings) = (progress <$> ps) ++ [cancelled].
Proof.
  intros Hadv Hk Hck. unfold processImage.
  rewrite newAlphaMask_spec, Hadv.
  destruct (Z.ltb_spec (width img * height img) 0) as [Hneg|_]; cbn [andb].
  { apply chunkStarts_nonempty in Hk. lia. }
  pose proof (phase1_cancel_seen cancelAt settings (referenceColor img settings)
                (width img * height img) (chunkStarts (width img * height img))
                (mkJob (data img) (Some (replicate (Z.to_nat (width img * height img)) 255))
                   0%float false 0%nat [])) as H1.
  destruct (phase1 _ _ _ _ _ _) as [j1|j1].
  - apply H1; simpl; [eauto|by exists []|right; exists k; split; [lia|done]].
  - destruct H1 as (Hc1 & [m Hm1] & [ps Hp1]); simpl;
      [eauto|by exists []|right; exists k; split; [lia|done]|].
    unfold phase2. rewrite Hadv, Hm1, Hc1. simpl. rewrite Hp1. by exists ps.
Qed.

Lemma cancel_seen_advanced_witness :
  exists ps,
    fst (processImage (fun x => x) (fun k => Nat.eqb k 0) (two_pixels 255)
           (mkSettings Mode.manual (JS.Int 10) (JS.Int 0) [] EdgeMode.smooth 2
              (mkMagicSelectionState false (JS.Int 32) None []))) =
    (progress <$> ps) ++ [cancelled].
Proof.
  apply (cancel_seen_advanced _ _ _ _ 0%nat); [reflexivity|vm_compute; lia|reflexivity].
Defined.

(** Phase 1 with no [cancel] handled before its last await runs to its end,
    whatever is handled during the last await. *)
Lemma phase1_last_await cancelAt settings dominantColor totalPixels starts : forall j,
  isCancelled j = false -> only_progress (posted j) ->
  (forall k, (yields j <= k)%nat -> (S k < yields j + length starts)%nat -> cancelAt k = false) ->
  exists j', phase1 cancelAt settings dominantColor totalPixels starts j = Go j' /\
             only_progress (posted j').
Proof.
  induction starts as [|chunkStart starts IH]; intros j Hj Hp Hno; simpl.
  - exists j. done.
  - rewrite Hj. destruct starts as [|chunkStart' starts].
    + simpl. eexists. split; [reflexivity|]. simpl.
      destruct (PrimFloat.leb _ _); [by apply only_progress_snoc|done].
    + apply IH.
      * simpl. apply Hno; simpl; lia.
      * simpl. destruct (PrimFloat.leb _ _); [by apply only_progress_snoc|done].
      * simpl. intros k Hk1 Hk2. apply Hno; simpl in *; lia.
Qed.

(** With hard or feathered edges the flag is looked at only before a chunk:
    when no [cancel] is handled before the last await, the job posts
    [complete] and never [cancelled], whatever is handled during the last
    await. *)
Theorem cancel_lost_basic Math_exp cancelAt img settings :
  useAdvancedEdge (edgeMode settings) = false ->
  appliedRegions (magicSelection settings) = [] ->
  (forall k, (S k < length (chunkStarts (width img * height img)))%nat -> cancelAt k = false) ->
  exists ps out,
    fst (processImage Math_exp cancelAt img settings) = (progress <$> ps) ++ [complete out].
Proof.
  intros Hadv Hregions Hno. unfold processImage.
  rewrite newAlphaMask_spec, Hadv. cbn [andb].
  edestruct (phase1_last_await cancelAt settings) as (j1 & -> & [ps Hp1]).
  { reflexivity. }
  { by exists []. }
  { simpl. intros k _ Hk. by apply Hno. }
  unfold phase2. rewrite Hadv, Hregions. simpl. rewrite Hp1. eauto.
Qed.

Lemma cancel_lost_basic_witness :
  exists ps out,
    fst (processImage (fun x => x) (fun _ => true) (two_pixels 128) (manual_hard 10)) =
    (progress <$> ps) ++ [complete out].
Proof.
  apply cancel_lost_basic; [reflexivity|reflexivity|].
  intros k Hk. vm_compute in Hk. lia.
Defined.

Lemma phase1_cancel_before_last cancelAt settings dominantColor totalPixels starts : forall j,
  only_progress (posted j) ->
  (isCancelled j = true /\ starts <> []) \/
    (exists k, (yields j <= k)%nat /\ (S k < yields j + length starts)%nat /\
               cancelAt k = true) ->
  exists j' ps, phase1 cancelAt settings dominantColor totalPixels starts j = Stop j' /\
                posted j' = (progress <$> ps) ++ [cancelled].
Proof.
  induction starts as [|chunkStart starts IH]; intros j Hp Hc; simpl.
  - destruct Hc as [[_ Hne]|(k & Hk1 & Hk2 & _)]; [done|simpl in Hk2; lia].
  - destruct (isCancelled j) eqn:Hj.
    + destruct Hp as [ps Hps]. eexists. exists ps. split; [reflexivity|]. simpl. by rewrite Hps.
    + destruct Hc as [[Hc _]|(k & Hk1 & Hk2 & Hck)]; [done|].
      apply IH; simpl.
      * destruct (PrimFloat.leb _ _); [by apply only_progress_snoc|done].
      * destruct (decide (k = yields j)) as [->|Hne].
        -- left. rewrite Hck. split; [done|].
           destruct starts; [simpl in Hk2; lia|done].
        -- right. exists k. repeat split; [lia|simpl in Hk2; lia|done].
Qed.

(** Whatever the edge mode, a [cancel] handled during an await that is not
    the job's last is seen at the top of the next chunk: the job ends with
    [cancelled], after progress reports only, and posts no [complete]. *)
Theorem cancel_before_last_seen Math_exp cancelAt img settings k :
  (S k < length (chunkStarts (width img * height img)))%nat ->
  cancelAt k = true ->
  exists ps, fst (processImage Math_exp cancelAt img settings) = (progress <$> ps) ++ [cancelled].
Proof.
  intros Hk Hck. unfold processImage.
  assert (Hpos : 0 < width img * height img) by (apply (chunkStarts_nonempty _ (S k)), Hk).
  rewrite newAlphaMask_spec.
  destruct (Z.ltb_spec (width img * height img) 0) as [Hneg|_]; [lia|].
  rewrite andb_false_r.
  edestruct (phase1_cancel_before_last cancelAt settings) as (j1 & ps & -> & Hp1).
  { by exists []. }
  { right. exists k. simpl. repeat split; [lia|exact Hk|exact Hck]. }
  simpl. by exists ps.
Qed.

Lemma cancel_before_last_seen_witness :
  exists ps,
    fst (processImage (fun x => x) (fun _ => true) (mkImageData 1000 500 []) (manual_hard 10)) =
    (progress <$> ps) ++ [cancelled].
Proof.
  apply (cancel_before_last_seen _ _ _ _ 0%nat); [vm_compute; lia|reflexivity].
Defined.

(** ** magicSelect with a seed outside the buffer *)

(** The samples of a pixel whose row-major index [p] is outside the buffer
    are [undefined]. *)
Lemma sample_outside img p k :
  wf_image img -> - 2 ^ 29 <= p < 2 ^ 29 ->
  p < 0 \/ width img * height img <= p ->
  0 <= k < 4 ->
  aget (data img) (JS.shl2 p + k) = None.
Proof.
  intros (Hw & Hh & Hlen) Hp Hout Hk. rewrite shl2_small by done.
  apply aget_out_of_range. lia.
Qed.

Lemma seedColor_outside img x y :
  wf_image img -> - 2 ^ 29 <= y * width img + x < 2 ^ 29 ->
  y * width img + x < 0 \/ width img * height img <= y * width img + x ->
  seedColor img x y = Color.mk None None None.
Proof.
  intros Hwf Hp Hout. unfold seedColor.
  rewrite <- (Z.add_0_r (JS.shl2 _)) at 1.
  rewrite !sample_outside by (done || lia). done.
Qed.

(** A request whose seed has its row-major index [y * width + x] outside
    the buffer (a row outside the image, a position before the first pixel,
    any seed on a zero-size buffer) is answered with an empty region, with
    bounds {x, y, 1, 1}: the fill stops after one iteration. *)
Lemma magicSelect_outside (Math_exp : float -> float) (fuel : nat) (uuid : string)
    (cancelAt : nat -> bool) (img : ImageData) (x y : Z) (tolerance : JS.number) :
  wf_image img ->
  - 2 ^ 29 <= y * width img + x < 2 ^ 29 ->
  y * width img + x < 0 \/ width img * height img <= y * width img + x ->
  onmessage Math_exp (S fuel) uuid cancelAt (magicSelectMsg img x y tolerance) =
  Some [magicSelectResult
          (Region.mk uuid [] (mkBounds x y 1 1) 0 (Color.mk None None None) remove)].
Proof.
  intros Hwf Hp Hout. unfold onmessage, magicSelect.
  rewrite seedColor_outside by done.
  assert (Hstep : Flood.step img (Color.mk None None None) (toleranceThresholdSq tolerance)
                    (Flood.init img x y) =
                  Flood.reject [] (Flood.init img x y)).
  { unfold Flood.step. cbn [Flood.init Flood.stack].
    rewrite <- (Z.add_0_r (JS.shl2 _)) at 1.
    rewrite !sample_outside by (done || lia). done. }
  cbn [Flood.loop]. cbn [Flood.init Flood.stack]. 
  change (Flood.mkState [(x, y)] _ _ x x y y 0 0 0 0) with (Flood.init img x y).
  rewrite Hstep. 
  assert (Hloop : forall st, Flood.stack st = [] ->
            Flood.loop fuel img (Color.mk None None None) (toleranceThresholdSq tolerance) st = Some st).
  { intros st Hst. destruct fuel; simpl; by rewrite Hst. }
  rewrite Hloop by done.
  cbn [Flood.reject Flood.init Flood.maxX Flood.minX Flood.maxY Flood.minY Flood.count
       Flood.selected Flood.totalR Flood.totalG Flood.totalB Color.r Color.g Color.b].
  replace (x - x + 1) with 1 by lia. replace (y - y + 1) with 1 by lia.
  assert (Hmask : Flood.build_mask
                    (replicate (Z.to_nat (width img * height img)) 0) (width img) x x y y = [0]).
  { unfold Flood.build_mask, Flood.build_row.
    replace (x - x + 1) with 1 by lia. replace (y - y + 1) with 1 by lia.
    change (seqZ x 1) with [x]. change (seqZ y 1) with [y]. simpl.
    rewrite aget_out_of_range; [done|]. rewrite length_replicate.
    destruct Hwf as (Hw & Hh & _). lia. }
  rewrite Hmask. reflexivity.
Qed.

(** ** magicSelect with a seed inside the buffer *)

Module FloodFacts.
Import Flood FloodInv.

Lemma unvisited_insert visited : forall n,
  visited !! n = Some 0 -> S (unvisited (<[n:=1]> visited)) = unvisited visited.
Proof.
  unfold unvisited. induction visited as [|v visited IH]; intros n Hn; [done|].
  destruct n as [|n]; cbn -[Z.eqb] in *.
  - injection Hn as ->. done.
  - destruct (0 =? v); cbn -[Z.eqb]; rewrite <- (IH n Hn); done.
Qed.

Lemma unvisited_aset visited i :
  aget visited i = Some 0 -> S (unvisited (aset visited i 1)) = unvisited visited.
Proof.
  unfold aget, aset. destruct (i <? 0); [done|]. apply unvisited_insert.
Qed.

Section Fill.

Variable img : ImageData.
Hypothesis img_wf : wf_image img.
Hypothesis img_small : 4 * (width img * height img) < 2 ^ 31.

Let w := width img.
Let h := height img.

Local Abbreviation inside := (FloodInv.inside img).

Lemma index_inside x y : inside (x, y) -> 0 <= y * w + x < w * h.
Proof. unfold inside. simpl. intros [Hx Hy]. nia. Qed.

Lemma index_div_mod x y : inside (x, y) -> (y * w + x) mod w = x /\ (y * w + x) / w = y.
Proof.
  unfold inside. simpl. intros [Hx Hy]. split.
  - rewrite Z.add_comm, Z.mod_add by lia. apply Z.mod_small. lia.
  - rewrite Z.add_comm, Z.div_add by lia. rewrite Z.div_small by lia. lia.
Qed.

(** A visit of an index inside the buffer keeps the measure. *)
Lemma visit_inside nx ny (vs : list Z * list (Z * Z)) :
  inside (nx, ny) ->
  Z.of_nat (length (fst vs)) = w * h ->
  Forall inside (snd vs) ->
  let vs' := visit (ny * w + nx) nx ny vs in
  Z.of_nat (length (fst vs')) = w * h /\
  Forall inside (snd vs') /\
  (length (snd vs') + unvisited (fst vs') = length (snd vs) + unvisited (fst vs))%nat.
Proof.
  intros Hin Hlen Hstack. pose proof (index_inside nx ny Hin) as Hidx.
  unfold visit.
  destruct (aget_in_range (fst vs) (ny * w + nx)) as [v Hv]; [lia|].
  rewrite Hv. destruct (Z.eqb_spec v 0) as [->|Hne]; simpl.
  - rewrite length_aset. repeat split; [done|by constructor|].
    rewrite <- (unvisited_aset _ _ Hv). lia.
  - done.
Qed.

Lemma neighbours_inside x y (vs : list Z * list (Z * Z)) :
  inside (x, y) ->
  Z.of_nat (length (fst vs)) = w * h ->
  Forall inside (snd vs) ->
  let vs' := neighbours w h x y vs in
  Z.of_nat (length (fst vs')) = w * h /\
  Forall inside (snd vs') /\
  (length (snd vs') + unvisited (fst vs') = length (snd vs) + unvisited (fst vs))%nat.
Proof.
  intros Hin Hlen Hstack. unfold neighbours.
  assert (Hxy : 0 <= x < w /\ 0 <= y < h) by apply Hin.
  set (vs1 := if 0 <? x then visit (y * w + x - 1) (x - 1) y vs else vs).
  assert (H1 : Z.of_nat (length (fst vs1)) = w * h /\ Forall inside (snd vs1) /\
               (length (snd vs1) + unvisited (fst vs1) = length (snd vs) + unvisited (fst vs))%nat).
  { subst vs1. destruct (Z.ltb_spec 0 x); [|done].
    replace (y * w + x - 1) with (y * w + (x - 1)) by lia.
    apply visit_inside; try done. unfold inside; simpl; lia. }
  set (vs2 := if x <? w - 1 then visit (y * w + x + 1) (x + 1) y vs1 else vs1).
  assert (H2 : Z.of_nat (length (fst vs2)) = w * h /\ Forall inside (snd vs2) /\
               (length (snd vs2) + unvisited (fst vs2) = length (snd vs) + unvisited (fst vs))%nat).
  { subst vs2. destruct (Z.ltb_spec x (w - 1)); [|done].
    replace (y * w + x + 1) with (y * w + (x + 1)) by lia.
    destruct H1 as (? & ? & <-). apply visit_inside; try done. unfold inside; simpl; lia. }
  set (vs3 := if 0 <? y then visit (y * w + x - w) x (y - 1) vs2 else vs2).
  assert (H3 : Z.of_nat (length (fst vs3)) = w * h /\ Forall inside (snd vs3) /\
               (length (snd vs3) + unvisited (fst vs3) = length (snd vs) + unvisited (fst vs))%nat).
  { subst vs3. destruct (Z.ltb_spec 0 y); [|done].
    replace (y * w + x - w) with ((y - 1) * w + x) by lia.
    destruct H2 as (? & ? & <-). apply visit_inside; try done. unfold inside; simpl; lia. }
  destruct (Z.ltb_spec y (h - 1)); [|done].
  replace (y * w + x + w) with ((y + 1) * w + x) by lia.
  destruct H3 as (? & ? & <-). apply visit_inside; try done. unfold inside; simpl; lia.
Qed.

Variable seed : Color.t.
Variable thr : JS.number.

Local Abbreviation distSqAt := (FloodInv.distSqAt img seed).
Local Abbreviation accepted := (FloodInv.accepted img seed thr).
Local Abbreviation structural := (FloodInv.structural img).
Local Abbreviation semantic := (FloodInv.semantic img seed thr).
Local Abbreviation accept := (FloodInv.accept img).

(** The two outcomes of an iteration that pops a pixel inside the image. *)
Lemma step_cases st x y stack' :
  stack st = (x, y) :: stack' -> inside (x, y) ->
  (accepted (y * w + x) /\
   exists rv gv bv, step img seed thr st = accept x y stack' rv gv bv st) \/
  (step img seed thr st = reject stack' st).
Proof using img_wf img_small.
  intros Hstack Hin. pose proof (index_inside x y Hin) as Hp.
  destruct img_wf as (Hw & Hh & Hlen).
  unfold step. rewrite Hstack. fold w. rewrite shl2_small by lia.
  destruct (aget_in_range (data img) (4 * (y * w + x))) as [rv Hr]; [lia|].
  destruct (aget_in_range (data img) (4 * (y * w + x) + 1)) as [gv Hg]; [lia|].
  destruct (aget_in_range (data img) (4 * (y * w + x) + 2)) as [bv Hb]; [lia|].
  rewrite Hr, Hg, Hb.
  destruct (within _ _) eqn:Hwithin.
  - left. split.
    + unfold accepted, distSqAt. by rewrite Hr, Hg, Hb.
    + by exists rv, gv, bv.
  - by right.
Qed.

Lemma reject_structural st x y stack' :
  stack st = (x, y) :: stack' -> structural st ->
  structural (reject stack' st) /\ S (measure (reject stack' st)) = measure st.
Proof.
  intros Hstack (Hv & Hs & Hst). rewrite Hstack in Hst.
  apply Forall_cons in Hst as [_ Hst]. split; [done|].
  unfold measure. rewrite Hstack. done.
Qed.

Lemma accept_structural st x y stack' rv gv bv :
  stack st = (x, y) :: stack' -> structural st ->
  structural (accept x y stack' rv gv bv st) /\
  S (measure (accept x y stack' rv gv bv st)) = measure st.
Proof.
  intros Hstack (Hv & Hs & Hst). rewrite Hstack in Hst.
  apply Forall_cons in Hst as [Hin Hst].
  destruct (neighbours_inside x y (visited st, stack') Hin Hv Hst) as (Hv' & Hst' & Hm).
  unfold structural, measure, accept. simpl in *. fold w h.
  rewrite length_aset, Hstack. simpl. repeat split; try done. lia.
Qed.

Lemma step_structural st :
  structural st -> stack st <> [] ->
  structural (step img seed thr st) /\ S (measure (step img seed thr st)) = measure st.
Proof using img_wf img_small.
  intros Hst Hne. destruct (stack st) as [|[x y] stack'] eqn:Hstack; [done|].
  assert (Hin : inside (x, y)).
  { destruct Hst as (_ & _ & Hf). rewrite Hstack in Hf. by apply Forall_cons in Hf as [? _]. }
  destruct (step_cases st x y stack' Hstack Hin) as [(_ & rv & gv & bv & ->) | ->].
  - by apply accept_structural.
  - by apply (reject_structural st x y).
Qed.

(** Enough fuel runs the loop to an empty stack. *)
Lemma loop_structural fuel : forall st,
  structural st -> (measure st <= fuel)%nat ->
  exists st', loop fuel img seed thr st = Some st' /\ stack st' = [] /\ structural st'.
Proof using img_wf img_small.
  induction fuel as [|fuel IH]; intros st Hst Hm.
  - destruct (stack st) eqn:Hstack.
    + exists st. simpl. by rewrite Hstack.
    + unfold measure in Hm. rewrite Hstack in Hm. simpl in Hm. lia.
  - simpl. destruct (stack st) eqn:Hstack.
    + by exists st.
    + destruct (step_structural st Hst) as [Hst' Hm']; [by rewrite Hstack|].
      apply IH; [done|lia].
Qed.

Lemma reject_semantic st stack' : semantic st -> semantic (reject stack' st).
Proof. done. Qed.

Lemma aget_aset_one (sel : list Z) p q :
  aget sel q = Some 1 -> aget (aset sel p 1) q = Some 1.
Proof.
  intros Hq. destruct (decide (q = p)) as [->|Hne].
  - apply aget_aset_eq. by apply aget_Some_range in Hq.
  - by rewrite aget_aset_ne.
Qed.

Lemma accept_semantic st x y stack' rv gv bv :
  inside (x, y) -> accepted (y * w + x) -> structural st -> semantic st ->
  semantic (accept x y stack' rv gv bv st).
Proof.
  intros Hin Hacc (_ & Hs & _) (Hsel & (p1 & Hp1 & Hx1) & (p2 & Hp2 & Hx2) &
                                  (p3 & Hp3 & Hy3) & (p4 & Hp4 & Hy4)).
  pose proof (index_inside x y Hin) as Hp.
  destruct (index_div_mod x y Hin) as [Hmod Hdiv].
  assert (Hself : aget (aset (selected st) (y * w + x) 1) (y * w + x) = Some 1)
    by (apply aget_aset_eq; lia).
  fold w in Hsel, Hx1, Hx2, Hy3, Hy4.
  unfold semantic, accept. cbn [selected minX maxX minY maxY]. fold w. repeat split.
  - intros q v Hq. destruct (decide (q = y * w + x)) as [->|Hne].
    + rewrite Hself in Hq. injection Hq as <-. right.
      rewrite Hmod, Hdiv. repeat split; try done; zbool; lia.
    + rewrite aget_aset_ne in Hq by done.
      destruct (Hsel q v Hq) as [->|(-> & Ha & Hbx & Hby)]; [by left|right].
      repeat split; try done; zbool; lia.
  - destruct (Z.ltb_spec x (minX st)).
    + exists (y * w + x). done.
    + exists p1. split; [by apply aget_aset_one|done].
  - destruct (Z.ltb_spec (maxX st) x).
    + exists (y * w + x). done.
    + exists p2. split; [by apply aget_aset_one|done].
  - destruct (Z.ltb_spec y (minY st)).
    + exists (y * w + x). done.
    + exists p3. split; [by apply aget_aset_one|done].
  - destruct (Z.ltb_spec (maxY st) y).
    + exists (y * w + x). done.
    + exists p4. split; [by apply aget_aset_one|done].
Qed.

Lemma step_semantic st :
  structural st -> semantic st -> semantic (step img seed thr st).
Proof using img_wf img_small.
  intros Hst Hsem. destruct (stack st) as [|[x y] stack'] eqn:Hstack.
  { unfold step. by rewrite Hstack. }
  assert (Hin : inside (x, y)).
  { destruct Hst as (_ & _ & Hf). rewrite Hstack in Hf. by apply Forall_cons in Hf as [? _]. }
  destruct (step_cases st x y stack' Hstack Hin) as [(Hacc & rv & gv & bv & ->) | ->].
  - by apply accept_semantic.
  - by apply reject_semantic.
Qed.

Lemma loop_semantic fuel : forall st st',
  structural st -> semantic st ->
  loop fuel img seed thr st = Some st' -> semantic st'.
Proof using img_wf img_small.
  induction fuel as [|fuel IH]; intros st st' Hst Hsem; simpl.
  - destruct (stack st); [|done]. by intros [= <-].
  - destruct (stack st) eqn:Hstack; [by intros [= <-]|].
    apply IH; [|by apply step_semantic].
    apply step_structural; [done|by rewrite Hstack].
Qed.

(** *** The first iteration *)

Variable startX startY : Z.
Hypothesis start_inside : inside (startX, startY).
Hypothesis seed_is : seed = seedColor img startX startY.
Hypothesis seed_passes : JS.nleb (JS.Int 0) thr = true.

Lemma unvisited_replicate n : unvisited (replicate n 0) = n.
Proof. unfold unvisited. induction n as [|n IH]; simpl; [done|]. by rewrite IH. Qed.

Lemma init_structural :
  structural (init img startX startY) /\
  measure (init img startX startY) = Z.to_nat (w * h).
Proof using start_inside.
  pose proof (index_inside _ _ start_inside) as Hp.
  unfold structural, measure, init. cbn [visited selected stack]. fold w h.
  rewrite length_aset, !length_replicate. repeat split; try lia.
  - repeat constructor; apply start_inside.
  - simpl.
    rewrite <- (unvisited_replicate (Z.to_nat (w * h))) at 2.
    rewrite <- (unvisited_aset (replicate (Z.to_nat (w * h)) 0) (startY * w + startX)); [done|].
    apply aget_replicate. lia.
Qed.

Lemma colorDistanceSquared_self r g b : colorDistanceSquared r g b r g b = 0.
Proof. unfold colorDistanceSquared. simpl. lia. Qed.

Lemma seed_accepted : accepted (startY * w + startX).
Proof using img_wf img_small start_inside seed_is seed_passes.
  pose proof (index_inside _ _ start_inside) as Hp.
  destruct img_wf as (Hw & Hh & Hlen).
  unfold accepted, distSqAt. rewrite seed_is. unfold seedColor. fold w.
  rewrite shl2_small by lia. cbn [Color.r Color.g Color.b].
  destruct (aget_in_range (data img) (4 * (startY * w + startX))) as [rv ->]; [lia|].
  destruct (aget_in_range (data img) (4 * (startY * w + startX) + 1)) as [gv ->]; [lia|].
  destruct (aget_in_range (data img) (4 * (startY * w + startX) + 2)) as [bv ->]; [lia|].
  simpl. by rewrite colorDistanceSquared_self.
Qed.

(** The first iteration selects the seed. *)
Lemma first_step :
  semantic (step img seed thr (init img startX startY)).
Proof using img_wf img_small start_inside seed_is seed_passes.
  pose proof (index_inside _ _ start_inside) as Hp.
  destruct (index_div_mod _ _ start_inside) as [Hmod Hdiv].
  destruct (step_cases (init img startX startY) startX startY [] eq_refl start_inside)
    as [(_ & rv & gv & bv & ->) | Hrej].
  2:{ exfalso. pose proof seed_accepted as Hacc. unfold accepted in Hacc.
      revert Hrej. unfold step. cbn [init stack]. fold w.
      destruct img_wf as (Hw & Hh & Hlen). rewrite shl2_small by lia.
      destruct (aget_in_range (data img) (4 * (startY * w + startX))) as [rv Hr]; [lia|].
      destruct (aget_in_range (data img) (4 * (startY * w + startX) + 1)) as [gv Hg]; [lia|].
      destruct (aget_in_range (data img) (4 * (startY * w + startX) + 2)) as [bv Hb]; [lia|].
      rewrite Hr, Hg, Hb. unfold distSqAt in Hacc. rewrite Hr, Hg, Hb in Hacc.
      rewrite Hacc. unfold reject. intros [=]. }
  assert (Hself : aget (aset (replicate (Z.to_nat (w * h)) 0) (startY * w + startX) 1)
                    (startY * w + startX) = Some 1).
  { apply aget_aset_eq. rewrite length_replicate. lia. }
  unfold semantic, accept, init. cbn [selected minX maxX minY maxY]. fold w h.
  rewrite !Z.ltb_irrefl. repeat split.
  - intros q v Hq. destruct (decide (q = startY * w + startX)) as [->|Hne].
    + rewrite Hself in Hq. injection Hq as <-. right.
      rewrite Hmod, Hdiv. repeat split; try lia. apply seed_accepted.
    + rewrite aget_aset_ne in Hq by done. left.
      pose proof (aget_Some_range _ _ _ Hq) as Hr. rewrite length_replicate in Hr.
      rewrite aget_replicate in Hq by lia. by injection Hq.
  - by exists (startY * w + startX).
  - by exists (startY * w + startX).
  - by exists (startY * w + startX).
  - by exists (startY * w + startX).
Qed.

(** The fill from a seed inside the image: [w * h] iterations are enough,
    and the final state has both invariants. *)
Lemma loop_from_seed :
  exists st, loop (Z.to_nat (w * h)) img seed thr (init img startX startY) = Some st /\
             stack st = [] /\ structural st /\ semantic st.
Proof using img_wf img_small start_inside seed_is seed_passes.
  destruct init_structural as [Hst Hm].
  destruct (loop_structural (Z.to_nat (w * h)) _ Hst) as (st & Hloop & Hstack & Hst'); [lia|].
  exists st. split; [done|]. split; [done|]. split; [done|].
  pose proof (index_inside _ _ start_inside) as Hp.
  destruct (Z.to_nat (w * h)) as [|fuel] eqn:Hfuel; [lia|].
  simpl in Hloop. cbn [init stack] in Hloop.
  change (mkState [(startX, startY)] _ _ startX startX startY startY 0 0 0 0)
    with (init img startX startY) in Hloop.
  apply (loop_semantic fuel _ st) in Hloop; [done| |apply first_step].
  apply step_structural; [done|done].
Qed.

(** The running box lies inside the image. *)
Lemma box_inside st :
  structural st -> semantic st ->
  0 <= minX st <= maxX st /\ maxX st < w /\ 0 <= minY st <= maxY st /\ maxY st < h.
Proof using start_inside.
  intros (_ & Hs & _) (Hsel & (p1 & Hp1 & Hx1) & (p2 & Hp2 & Hx2) &
                       (p3 & Hp3 & Hy3) & (p4 & Hp4 & Hy4)).
  fold w in Hs, Hsel, Hx1, Hx2, Hy3, Hy4. fold h in Hs.
  assert (Hw : 0 < w) by (destruct start_inside; simpl in *; lia).
  assert (Hrange : forall p, aget (selected st) p = Some 1 ->
            0 <= p mod w < w /\ 0 <= p / w < h /\
            minX st <= p mod w <= maxX st /\ minY st <= p / w <= maxY st).
  { intros p Hp. pose proof (aget_Some_range _ _ _ Hp) as Hr.
    destruct (Hsel p 1 Hp) as [?|(_ & _ & Hbx & Hby)]; [done|].
    split; [by apply Z.mod_pos_bound|]. split; [|done]. split.
    - apply Z.div_pos; lia.
    - apply Z.div_lt_upper_bound; lia. }
  pose proof (Hrange p1 Hp1). pose proof (Hrange p2 Hp2).
  pose proof (Hrange p3 Hp3). pose proof (Hrange p4 Hp4). lia.
Qed.

End Fill.

(** *** The mask relative to the bounds *)

Lemma length_build_row sel src dst minX maxX mask :
  length (build_row sel src dst minX maxX mask) = length mask.
Proof.
  unfold build_row. generalize (seqZ minX (maxX - minX + 1)). intros l. revert mask.
  induction l as [|x l IH]; intros mask; simpl; [done|].
  rewrite IH. destruct (aget sel (src + x)) as [v|]; [|done].
  destruct (v =? 0); [done|apply length_aset].
Qed.

(** One row: the entries [dst + x] with [selected[src + x]] set become 1. *)
Lemma aget_build_row sel src dst minX maxX mask k :
  0 <= k < Z.of_nat (length mask) ->
  aget (build_row sel src dst minX maxX mask) k =
  if (minX <=? k - dst) && (k - dst <=? maxX) && is_set (aget sel (src + (k - dst)))
  then Some 1 else aget mask k.
Proof.
  intros Hk. unfold build_row.
  destruct (Z.le_gt_cases (maxX - minX + 1) 0) as [Hle|Hgt].
  { rewrite seqZ_nil by lia. simpl. zbool; try done; lia. }
  remember (Z.to_nat (maxX - minX + 1)) as n eqn:Hn.
  replace (maxX - minX + 1) with (Z.of_nat n) by lia.
  replace maxX with (minX + Z.of_nat n - 1) by lia. clear Hn Hgt maxX.
  induction n as [|n IH].
  { simpl. zbool; try done; lia. }
  rewrite seqZ_S, fold_left_app. cbn [fold_left].
  set (row := fold_left _ (seqZ minX (Z.of_nat n)) mask) in *.
  assert (Hlen : length row = length mask).
  { pose proof (length_build_row sel src dst minX (minX + Z.of_nat n - 1) mask) as Hl.
    unfold build_row in Hl. replace (minX + Z.of_nat n - 1 - minX + 1) with (Z.of_nat n) in Hl by lia.
    exact Hl. }
  destruct (decide (k - dst = minX + Z.of_nat n)) as [Heq|Hne].
  - rewrite Heq. replace (dst + (minX + Z.of_nat n)) with k by lia.
    destruct (aget sel (src + (minX + Z.of_nat n))) as [v|] eqn:Hv; simpl.
    + destruct (Z.eqb_spec v 0); simpl.
      * rewrite IH. rewrite Heq. zbool; try done; lia.
      * rewrite aget_aset_eq by lia. zbool; try done; lia.
    + rewrite IH. rewrite Heq. zbool; try done; lia.
  - assert (Hsame : aget (match aget sel (src + (minX + Z.of_nat n)) with
                          | Some v => if v =? 0 then row else aset row (dst + (minX + Z.of_nat n)) 1
                          | None => row
                          end) k = aget row k).
    { destruct (aget sel (src + (minX + Z.of_nat n))) as [v|]; [|done].
      destruct (v =? 0); [done|]. apply aget_aset_ne. lia. }
    rewrite Hsame, IH. zbool; try done; lia.
Qed.

Lemma length_build_rows sel w bw minX maxX minY rows : forall mask,
  length (fold_left
            (fun mask y => build_row sel (y * w) ((y - minY) * bw - minX) minX maxX mask)
            rows mask) = length mask.
Proof.
  induction rows as [|y rows IH]; intros mask; simpl; [done|].
  rewrite IH. apply length_build_row.
Qed.

(** Row and column of a mask index. *)
Lemma row_of_index bw k j :
  0 < bw -> (0 <= k - j * bw < bw <-> k / bw = j).
Proof.
  intros Hbw. pose proof (Z.div_mod k bw ltac:(lia)) as Hdm.
  pose proof (Z.mod_pos_bound k bw Hbw) as Hm. split.
  - intros Hk. symmetry. apply (Z.div_unique k bw j (k - j * bw)); lia.
  - intros <-. lia.
Qed.

(** The whole mask: entry [k] is 1 exactly when the pixel of column
    [minX + k mod bw] and row [minY + k / bw] is selected. *)
Lemma aget_build_mask sel w minX maxX minY maxY k :
  minX <= maxX -> minY <= maxY ->
  0 <= k < (maxX - minX + 1) * (maxY - minY + 1) ->
  aget (build_mask sel w minX maxX minY maxY) k =
  Some (if is_set (aget sel ((minY + k / (maxX - minX + 1)) * w
                              + (minX + k mod (maxX - minX + 1))))
        then 1 else 0).
Proof.
  intros HX HY Hk. unfold build_mask.
  set (bw := maxX - minX + 1) in *. set (bh := maxY - minY + 1) in *.
  assert (Hbw : 0 < bw) by lia.
  assert (Hrow : 0 <= k / bw < bh).
  { split; [apply Z.div_pos; lia|apply Z.div_lt_upper_bound; lia]. }
  set (mask0 := replicate (Z.to_nat (bw * bh)) 0).
  assert (H : forall m : nat, Z.of_nat m <= bh ->
            aget (fold_left
                    (fun mask y => build_row sel (y * w) ((y - minY) * bw - minX) minX maxX mask)
                    (seqZ minY (Z.of_nat m)) mask0) k =
            Some (if (k / bw <? Z.of_nat m) &&
                     is_set (aget sel ((minY + k / bw) * w + (minX + k mod bw)))
                  then 1 else 0)).
  { induction m as [|m IH]; intros Hm.
    - simpl. subst mask0. rewrite aget_replicate by lia. zbool; try done; lia.
    - rewrite seqZ_S, fold_left_app. cbn [fold_left].
      rewrite aget_build_row.
      2:{ rewrite length_build_rows. subst mask0. rewrite length_replicate. lia. }
      rewrite IH by lia.
      replace (minY + Z.of_nat m - minY) with (Z.of_nat m) by lia.
      pose proof (row_of_index bw k (Z.of_nat m) Hbw) as Hiff.
      pose proof (Z.div_mod k bw ltac:(lia)) as Hdm.
      pose proof (Z.mod_pos_bound k bw Hbw) as Hmod.
      assert (Hbw_eq : bw = maxX - minX + 1) by done.
      destruct (decide (k / bw = Z.of_nat m)) as [Heq|Hne].
      + assert (Hin : 0 <= k - Z.of_nat m * bw < bw) by (by apply Hiff).
        replace (k - (Z.of_nat m * bw - minX)) with (minX + k mod bw) by lia.
        rewrite Heq.
        match goal with |- context [is_set ?o] => destruct (is_set o) end;
          zbool; try done; lia.
      + assert (Hout : ~ (0 <= k - Z.of_nat m * bw < bw)) by (intros ?%Hiff; done).
        replace ((minX <=? k - (Z.of_nat m * bw - minX)) && (k - (Z.of_nat m * bw - minX) <=? maxX))
          with false by (zbool; try done; lia).
        simpl.
        match goal with |- context [is_set ?o] => destruct (is_set o) end;
          zbool; try done; lia. }
  specialize (H (Z.to_nat bh)). rewrite Z2Nat.id in H by lia.
  rewrite H by lia. zbool; try done; lia.
Qed.

Lemma length_build_mask sel w minX maxX minY maxY :
  length (build_mask sel w minX maxX minY maxY) =
  Z.to_nat ((maxX - minX + 1) * (maxY - minY + 1)).
Proof. unfold build_mask. by rewrite length_build_rows, length_replicate. Qed.

(** A selected pixel inside the box has its bit set in the mask, at the
    index of its column and row relative to the box. *)
Lemma mask_of_selected sel w minX maxX minY maxY p :
  0 < w ->
  aget sel p = Some 1 ->
  minX <= p mod w <= maxX -> minY <= p / w <= maxY ->
  let bw := maxX - minX + 1 in
  let k := (p / w - minY) * bw + (p mod w - minX) in
  aget (build_mask sel w minX maxX minY maxY) k = Some 1 /\
  k mod bw = p mod w - minX /\ k / bw = p / w - minY.
Proof.
  intros Hw Hp Hx Hy bw k.
  assert (Hbw : 0 < bw) by (subst bw; lia).
  assert (Hdiv : k / bw = p / w - minY).
  { symmetry. apply (Z.div_unique k bw _ (p mod w - minX)); subst k bw; lia. }
  assert (Hmod : k mod bw = p mod w - minX).
  { symmetry. apply (Z.mod_unique k bw (p / w - minY) _); subst k bw; lia. }
  split; [|done].
  rewrite aget_build_mask; [|lia|lia|subst k bw; nia].
  fold bw. rewrite Hdiv, Hmod.
  replace ((minY + (p / w - minY)) * w + (minX + (p mod w - minX))) with p.
  - by rewrite Hp.
  - pose proof (Z.div_mod p w ltac:(lia)). lia.
Qed.

End FloodFacts.



(** Every value of the tolerance slider (the integers 0 to 100) gives a
    cutoff that is a number: the condition on the tolerance under which the
    containment of the fill is stated. *)
Theorem slider_tolerance_passes (t : Z) :
  0 <= t <= 100 -> JS.nleb (JS.Int 0) (toleranceThresholdSq (JS.Int t)) = true.
Proof.
  intros Ht.
  assert (H : forallb (fun t => JS.nleb (JS.Int 0) (toleranceThresholdSq (JS.Int t)))
                (seqZ 0 101) = true) by (vm_compute; reflexivity).
  rewrite forallb_forall in H. apply H.
  apply list_elem_of_In, elem_of_seqZ. lia.
Qed.

Lemma slider_tolerance_passes_witness :
  JS.nleb (JS.Int 0) (toleranceThresholdSq (JS.Int 32)) = true.
Proof. apply slider_tolerance_passes. lia. Defined.

(** ** pixelCount and the mask *)

Module FloodCount.
Import Flood FloodInv.

Lemma selectedCount_insert sel : forall n,
  sel !! n = Some 0 -> selectedCount (<[n:=1]> sel) = S (selectedCount sel).
Proof.
  unfold selectedCount. induction sel as [|v sel IH]; intros n Hn; [done|].
  destruct n as [|n]; cbn -[Z.ltb] in *.
  - injection Hn as ->. done.
  - destruct (0 <? v); cbn -[Z.ltb]; rewrite <- (IH n Hn); done.
Qed.

Lemma selectedCount_aset sel i :
  aget sel i = Some 0 -> selectedCount (aset sel i 1) = S (selectedCount sel).
Proof.
  unfold aget, aset. destruct (i <? 0); [done|]. apply selectedCount_insert.
Qed.

Lemma selectedCount_replicate n : selectedCount (replicate n 0) = 0%nat.
Proof. unfold selectedCount. induction n as [|n IH]; simpl; done. Qed.

Section Count.

Variable img : ImageData.
Hypothesis img_wf : wf_image img.
Hypothesis img_small : 4 * (width img * height img) < 2 ^ 31.

Let w := width img.
Let h := height img.

Lemma visit_pending sel p nx ny vs :
  inside img (nx, ny) -> pending img sel p vs ->
  pending img sel p (visit (ny * w + nx) nx ny vs).
Proof.
  intros Hin (Hlen & Hst & Hnd & Hsel & Hp).
  pose proof (FloodFacts.index_inside img nx ny Hin) as Hidx. fold w h in Hidx, Hlen.
  unfold visit. destruct (aget (fst vs) (ny * w + nx)) as [v|] eqn:Hv.
  - destruct (Z.eqb_spec v 0) as [->|Hne]; [|done].
    assert (Hnew : ny * w + nx <> p) by congruence.
    split; [|split; [|split; [|split]]]; simpl.
    + by rewrite length_aset.
    + apply Forall_cons. split.
      * split; [done|]. unfold index; simpl; fold w. split; [|split].
        -- apply aget_aset_eq. lia.
        -- by apply Hsel.
        -- done.
      * eapply Forall_impl; [exact Hst|]. intros xy (? & ? & ? & ?).
        split; [done|]. split; [|done]. by apply FloodFacts.aget_aset_one.
    + apply NoDup_cons. split; [|done].
      intros Hmem. apply list_elem_of_fmap in Hmem as (xy & Hxy & Hmem).
      rewrite Forall_forall in Hst. destruct (Hst xy Hmem) as (_ & Hone & _).
      unfold index in Hxy, Hone. simpl in Hxy. fold w in Hxy, Hone. congruence.
    + intros q Hq. apply Hsel. destruct (decide (q = ny * w + nx)) as [->|Hneq].
      * rewrite aget_aset_eq in Hq by lia. done.
      * by rewrite aget_aset_ne in Hq.
    + by apply FloodFacts.aget_aset_one.
  - destruct (aget_in_range (fst vs) (ny * w + nx)) as [? Hsome]; [lia|congruence].
Qed.

Lemma neighbours_pending sel p x y vs :
  inside img (x, y) -> pending img sel p vs ->
  pending img sel p (neighbours w h x y vs).
Proof.
  intros [Hx Hy] Hvs. simpl in Hx, Hy. fold w h in Hx, Hy. unfold neighbours.
  assert (H1 : pending img sel p
                 (if 0 <? x then visit (y * w + x - 1) (x - 1) y vs else vs)).
  { destruct (Z.ltb_spec 0 x); [|done].
    replace (y * w + x - 1) with (y * w + (x - 1)) by lia.
    apply visit_pending; [|done]. unfold inside; simpl; fold w h; lia. }
  set (vs1 := if 0 <? x then _ else _) in *.
  assert (H2 : pending img sel p
                 (if x <? w - 1 then visit (y * w + x + 1) (x + 1) y vs1 else vs1)).
  { destruct (Z.ltb_spec x (w - 1)); [|done].
    replace (y * w + x + 1) with (y * w + (x + 1)) by lia.
    apply visit_pending; [|done]. unfold inside; simpl; fold w h; lia. }
  set (vs2 := if x <? w - 1 then _ else _) in *.
  assert (H3 : pending img sel p
                 (if 0 <? y then visit (y * w + x - w) x (y - 1) vs2 else vs2)).
  { destruct (Z.ltb_spec 0 y); [|done].
    replace (y * w + x - w) with ((y - 1) * w + x) by lia.
    apply visit_pending; [|done]. unfold inside; simpl; fold w h; lia. }
  set (vs3 := if 0 <? y then _ else _) in *.
  destruct (Z.ltb_spec y (h - 1)); [|done].
  replace (y * w + x + w) with ((y + 1) * w + x) by lia.
  apply visit_pending; [|done]. unfold inside; simpl; fold w h; lia.
Qed.

Lemma reject_counted st xy stack' :
  stack st = xy :: stack' -> counted img st -> counted img (reject stack' st).
Proof.
  intros Hstack (Hv & Hs & Hst & Hnd & Hsel & Hc). rewrite Hstack in Hst, Hnd.
  apply Forall_cons in Hst as [_ Hst]. rewrite fmap_cons in Hnd.
  apply NoDup_cons in Hnd as [_ Hnd]. done.
Qed.

Lemma accept_counted st x y stack' rv gv bv :
  stack st = (x, y) :: stack' -> counted img st ->
  counted img (accept img x y stack' rv gv bv st).
Proof.
  intros Hstack (Hv & Hs & Hst & Hnd & Hsel & Hc). rewrite Hstack in Hst, Hnd.
  apply Forall_cons in Hst as [(Hin & Hvis & Hzero) Hst]. rewrite fmap_cons in Hnd.
  apply NoDup_cons in Hnd as [Hnotin Hnd].
  unfold index in Hvis, Hzero, Hnotin. simpl in Hvis, Hzero, Hnotin.
  fold w in Hvis, Hzero, Hnotin.
  set (p := y * w + x) in *.
  assert (Hpend : pending img (selected st) p (visited st, stack')).
  { split; [done|]. split; [|done]. simpl.
    rewrite Forall_forall in Hst |- *. intros xy Hxy.
    destruct (Hst xy Hxy) as (? & ? & ?). split; [done|]. split; [done|]. split; [done|].
    intros Heq. apply Hnotin. apply list_elem_of_fmap. by exists xy. }
  apply (neighbours_pending _ _ x y) in Hpend; [|done].
  destruct Hpend as (Hv' & Hst' & Hnd' & Hsel' & Hp').
  pose proof (aget_Some_range _ _ _ Hzero) as Hrange.
  unfold counted, accept. cbn [visited selected stack count]. fold w h p.
  split; [|split; [|split; [|split; [|split]]]].
  - done.
  - by rewrite length_aset.
  - eapply Forall_impl; [exact Hst'|]. intros xy (? & ? & ? & ?).
    split; [done|]. split; [done|]. by rewrite aget_aset_ne.
  - done.
  - intros q Hq. destruct (decide (q = p)) as [->|Hne]; [congruence|].
    rewrite aget_aset_ne by done. by apply Hsel'.
  - rewrite selectedCount_aset by done. lia.
Qed.

Variable seed : Color.t.
Variable thr : JS.number.

Lemma step_counted st : counted img st -> counted img (step img seed thr st).
Proof using img_wf img_small.
  intros Hst. destruct (stack st) as [|[x y] stack'] eqn:Hstack.
  { unfold step. by rewrite Hstack. }
  assert (Hin : inside img (x, y)).
  { destruct Hst as (_ & _ & Hf & _). rewrite Hstack in Hf.
    apply Forall_cons in Hf as [(? & _) _]. done. }
  destruct (FloodFacts.step_cases img img_wf img_small seed thr st x y stack' Hstack Hin)
    as [(_ & rv & gv & bv & ->) | ->].
  - by apply accept_counted.
  - by apply (reject_counted st (x, y)).
Qed.

Lemma loop_counted fuel : forall st st',
  counted img st -> loop fuel img seed thr st = Some st' -> counted img st'.
Proof using img_wf img_small.
  induction fuel as [|fuel IH]; intros st st' Hst; simpl.
  - destruct (stack st); [|done]. by intros [= <-].
  - destruct (stack st) eqn:Hstack; [by intros [= <-]|].
    apply IH. by apply step_counted.
Qed.

Lemma init_counted startX startY :
  inside img (startX, startY) -> counted img (init img startX startY).
Proof.
  intros Hin. pose proof (FloodFacts.index_inside img _ _ Hin) as Hp. fold w h in Hp.
  unfold counted, init. cbn [visited selected stack count]. fold w h.
  rewrite length_aset, !length_replicate, selectedCount_replicate.
  split; [lia|]. split; [lia|]. split; [|split; [|split; [|done]]].
  - apply Forall_cons. split; [|done]. split; [done|]. unfold index. simpl. fold w. split.
    + apply aget_aset_eq. rewrite length_replicate. lia.
    + apply aget_replicate. lia.
  - apply NoDup_singleton.
  - intros q Hq. pose proof (aget_Some_range _ _ _ Hq) as Hr.
    rewrite length_aset, length_replicate in Hr. apply aget_replicate. lia.
Qed.

End Count.

End FloodCount.

Module MaskCount.
Import Flood FloodInv.

Lemma selectedCount_offset (full : list Z) : forall (l : list Z) (off : nat),
  (forall i, l !! i = full !! (off + i)%nat) ->
  selectedCount l = length (filter (fun k => is_pos (aget full k) = true)
                             (seqZ (Z.of_nat off) (Z.of_nat (length l)))).
Proof.
  induction l as [|x l IH]; intros off Hl; [done|].
  rewrite seqZ_cons by (simpl; lia). rewrite filter_cons.
  replace (Z.pred (Z.of_nat (length (x :: l)))) with (Z.of_nat (length l)) by (simpl; lia).
  replace (Z.succ (Z.of_nat off)) with (Z.of_nat (S off)) by lia.
  assert (IH' := IH (S off) ltac:(intros i; change (l !! i) with ((x :: l) !! S i); rewrite (Hl (S i)); f_equal; lia)).
  assert (Hx : aget full (Z.of_nat off) = Some x).
  { unfold aget. destruct (Z.ltb_spec (Z.of_nat off) 0); [lia|].
    rewrite Nat2Z.id. specialize (Hl 0%nat). rewrite Nat.add_0_r in Hl. by rewrite <- Hl. }
  unfold selectedCount in *. cbn -[Z.ltb].
  destruct (decide (is_pos (aget full (Z.of_nat off)) = true)) as [Hd|Hd];
    rewrite Hx in Hd; simpl in Hd; destruct (0 <? x); try done; simpl; by rewrite IH'.
Qed.

Lemma selectedCount_indices (l : list Z) : selectedCount l = length (indices l).
Proof. apply (selectedCount_offset l l 0). done. Qed.

(** A list without duplicates that maps one-to-one into another is not
    longer. *)
Lemma length_le_inj {A B : Type} (f : A -> B) (g : B -> A) (l : list A) (k : list B) :
  NoDup l -> (forall x, x ∈ l -> f x ∈ k /\ g (f x) = x) -> (length l <= length k)%nat.
Proof.
  intros Hnd Hf. rewrite <- (length_fmap f l). apply submseteq_length, NoDup_submseteq.
  - apply NoDup_fmap_2_strong; [|done]. intros x y Hx Hy Heq.
    destruct (Hf x Hx) as [_ <-], (Hf y Hy) as [_ <-]. by rewrite Heq.
  - intros y Hy. apply list_elem_of_fmap in Hy as (x & -> & Hx). by apply Hf.
Qed.

(** The mask relative to the box holds as many set entries as [selected],
    when the selected pixels lie in the box. *)
Lemma selectedCount_build_mask sel w h minX maxX minY maxY :
  Z.of_nat (length sel) = w * h ->
  0 <= minX <= maxX -> maxX < w -> 0 <= minY <= maxY -> maxY < h ->
  (forall p v, aget sel p = Some v ->
     v = 0 \/ (v = 1 /\ minX <= p mod w <= maxX /\ minY <= p / w <= maxY)) ->
  selectedCount (build_mask sel w minX maxX minY maxY) = selectedCount sel.
Proof.
  intros Hlen HX HXw HY HYh Hsel.
  set (mask := build_mask sel w minX maxX minY maxY).
  set (bw := maxX - minX + 1). set (bh := maxY - minY + 1).
  assert (Hbw : 0 < bw) by (subst bw; lia).
  assert (Hw : 0 < w) by lia.
  assert (Hmlen : Z.of_nat (length mask) = bw * bh).
  { subst mask. rewrite FloodFacts.length_build_mask. fold bw bh. nia. }
  rewrite !selectedCount_indices. unfold indices. rewrite Hmlen, Hlen.
  set (phi := fun k => (minY + k / bw) * w + (minX + k mod bw)).
  set (psi := fun p => (p / w - minY) * bw + (p mod w - minX)).
  apply Nat.le_antisymm.
  - apply (length_le_inj phi psi); [apply NoDup_filter, NoDup_seqZ|].
    intros k Hk. apply list_elem_of_filter in Hk as [Hpos Hk]. apply elem_of_seqZ in Hk.
    subst mask. rewrite FloodFacts.aget_build_mask in Hpos by (fold bw bh; lia).
    fold bw in Hpos. fold (phi k) in Hpos.
    destruct (aget sel (phi k)) as [v|] eqn:Hv; [|done].
    pose proof (aget_Some_range _ _ _ Hv) as Hr.
    destruct (Hsel _ _ Hv) as [->|(-> & Hbx & Hby)]; [done|].
    pose proof (Z.mod_pos_bound k bw Hbw) as Hmod.
    assert (Hdiv : 0 <= k / bw < bh).
    { split; [apply Z.div_pos; lia|apply Z.div_lt_upper_bound; lia]. }
    assert (Hpm : phi k mod w = minX + k mod bw).
    { symmetry. apply (Z.mod_unique _ w (minY + k / bw)); subst phi bw; simpl; lia. }
    assert (Hpd : phi k / w = minY + k / bw).
    { symmetry. apply (Z.div_unique _ w _ (minX + k mod bw)); subst phi bw; simpl; lia. }
    split.
    + apply list_elem_of_filter. split; [by rewrite Hv|]. apply elem_of_seqZ. lia.
    + unfold psi. rewrite Hpm, Hpd. pose proof (Z.div_mod k bw ltac:(lia)). lia.
  - apply (length_le_inj psi phi); [apply NoDup_filter, NoDup_seqZ|].
    intros p Hp. apply list_elem_of_filter in Hp as [Hpos Hp]. apply elem_of_seqZ in Hp.
    destruct (aget sel p) as [v|] eqn:Hv; [|done].
    destruct (Hsel _ _ Hv) as [->|(-> & Hbx & Hby)]; [done|].
    destruct (FloodFacts.mask_of_selected sel w minX maxX minY maxY p Hw Hv Hbx Hby)
      as (Hk & Hm & Hd).
    fold bw in Hk, Hm, Hd. fold (psi p) in Hk, Hm, Hd. fold mask in Hk.
    pose proof (aget_Some_range _ _ _ Hk) as Hr.
    split.
    + apply list_elem_of_filter. split; [by rewrite Hk|]. apply elem_of_seqZ. lia.
    + unfold phi. rewrite Hm, Hd. pose proof (Z.div_mod p w ltac:(lia)). lia.
Qed.

End MaskCount.

(** [pixelCount] of the region [magicSelect] returns, for a seed inside the
    image and a tolerance that is a number, is the number of pixels set in
    its mask, as [countPixelsInRLE] counts them from [maskRLE], and is at
    least 1: the seed pixel is always selected. *)
Theorem magicSelect_pixelCount (uuid : string) (img : ImageData) (startX startY : Z)
    (tolerance : JS.number) :
  wf_image img ->
  4 * (width img * height img) < 2 ^ 31 ->
  0 <= startX < width img -> 0 <= startY < height img ->
  JS.nleb (JS.Int 0) (toleranceThresholdSq tolerance) = true ->
  exists region,
    (forall extra : nat,
       magicSelect (Z.to_nat (width img * height img) + extra) uuid img startX startY
         tolerance = Some region) /\
    0 < Region.pixelCount region /\
    Region.pixelCount region = RLE.countPixelsInRLE (Region.maskRLE region).
Proof.
  intros Hwf Hsmall Hx Hy Hpass.
  set (thr := toleranceThresholdSq tolerance) in *.
  set (seed := seedColor img startX startY).
  assert (Hin : FloodInv.inside img (startX, startY)) by done.
  destruct (FloodFacts.loop_from_seed img Hwf Hsmall seed thr startX startY Hin eq_refl Hpass)
    as (st & Hloop & _ & Hst & Hsem).
  pose proof (FloodCount.loop_counted img Hwf Hsmall seed thr _ _ _
                (FloodCount.init_counted img startX startY Hin) Hloop)
    as (_ & Hslen & _ & _ & _ & Hcount).
  destruct (FloodFacts.box_inside img seed thr startX startY Hin st Hst Hsem)
    as (HbX & HbX' & HbY & HbY').
  destruct Hsem as (Hsel & (p1 & Hp1 & _) & _).
  set (mask := Flood.build_mask (Flood.selected st) (width img) (Flood.minX st)
                 (Flood.maxX st) (Flood.minY st) (Flood.maxY st)).
  assert (Hmask : FloodInv.selectedCount mask = FloodInv.selectedCount (Flood.selected st)).
  { apply (MaskCount.selectedCount_build_mask _ _ (height img)); try done.
    intros p v Hv. destruct (Hsel p v Hv) as [?|(? & _ & ? & ?)]; [by left|by right]. }
  assert (Hmlen : Z.of_nat (length mask) < 2 ^ 32).
  { subst mask. rewrite FloodFacts.length_build_mask. nia. }
  eexists. split; [|split].
  - intros extra. apply magicSelect_more. unfold magicSelect.
    change (seedColor img startX startY) with seed.
    change (toleranceThresholdSq tolerance) with thr.
    rewrite Hloop. reflexivity.
  - cbn [Region.pixelCount]. rewrite Hcount, MaskCount.selectedCount_indices.
    assert (Hmem : p1 ∈ FloodInv.indices (Flood.selected st)).
    { apply list_elem_of_filter. split; [by rewrite Hp1|].
      apply elem_of_seqZ. pose proof (aget_Some_range _ _ _ Hp1). lia. }
    destruct (FloodInv.indices _); [by apply elem_of_nil in Hmem|simpl; lia].
  - cbn [Region.pixelCount Region.maskRLE]. fold mask.
    rewrite RLEFacts.encodeMaskToRLE_no_wrap by done.
    rewrite RLEFacts.count_encode_loop. fold (FloodInv.selectedCount mask).
    rewrite Hmask, Hcount. lia.
Qed.

Lemma magicSelect_pixelCount_witness :
  exists region,
    (forall extra : nat,
       magicSelect (Z.to_nat (4 * 4) + extra) "u" (scenario_image (fun _ => 255)) 0 0
         (JS.Int 10) = Some region) /\
    0 < Region.pixelCount region /\
    Region.pixelCount region = RLE.countPixelsInRLE (Region.maskRLE region).
Proof.
  apply (magicSelect_pixelCount "u" (scenario_image (fun _ => 255)) 0 0 (JS.Int 10)).
  - unfold wf_image. simpl. lia.
  - simpl. lia.
  - simpl. lia.
  - simpl. lia.
  - vm_compute. reflexivity.
Defined.

(** ** What magicSelect selects *)

Module FloodComponent.
Import Flood FloodInv.







Section Component.

Variable img : ImageData.
Hypothesis img_wf : wf_image img.
Hypothesis img_small : 4 * (width img * height img) < 2 ^ 31.

Let w := width img.
Let h := height img.




Variable seed : Color.t.
Variable thr : JS.number.
Variable start : Z * Z.









Lemma connected_inside a :
  inside img start -> connected img seed thr start a -> inside img a.
Proof. intros Hs. by destruct 1. Qed.


End Component.

End FloodComponent.



(** ** magicSelect always returns *)

Module FloodTermination.
Import Flood FloodInv.

Section AnySeed.

Variable img : ImageData.
Hypothesis img_wf : wf_image img.
Hypothesis img_small : 4 * (width img * height img + width img + 1) < 2 ^ 31.
Variable seed : Color.t.
Variable thr : JS.number.

Let w := width img.
Let h := height img.

Local Abbreviation in_buffer := (FloodInv.in_buffer img).
Local Abbreviation weight := (FloodInv.weight img).
Local Abbreviation potential := (FloodInv.potential img).
Local Abbreviation no_wrap := (FloodInv.no_wrap img).
Local Abbreviation bounded := (FloodInv.bounded img).
Local Abbreviation potential_of := (FloodInv.potential_of img).

Lemma visit_potential nx ny (vs : list Z * list (Z * Z)) :
  Z.of_nat (length (fst vs)) = w * h ->
  no_wrap (nx, ny) -> Forall no_wrap (snd vs) ->
  let vs' := visit (ny * w + nx) nx ny vs in
  Z.of_nat (length (fst vs')) = w * h /\ Forall no_wrap (snd vs') /\
  (potential (fst vs') (snd vs') <= potential (fst vs) (snd vs) + 1)%nat.
Proof.
  intros Hlen Hn Hstack. unfold visit, potential.
  destruct (aget (fst vs) (ny * w + nx)) as [v|] eqn:Hv.
  - pose proof (aget_Some_range _ _ _ Hv) as Hr.
    destruct (Z.eqb_spec v 0) as [->|Hne]; simpl.
    + rewrite length_aset. repeat split; [done|by constructor|].
      rewrite <- (FloodFacts.unvisited_aset _ _ Hv). unfold weight, in_buffer. simpl. fold w h.
      destruct (Z.leb_spec 0 (ny * w + nx)), (Z.ltb_spec (ny * w + nx) (w * h)); simpl; lia.
    + repeat split; [done|done|lia].
  - simpl. rewrite length_aset. repeat split; [done|by constructor|].
    assert (Hout : ny * w + nx < 0 \/ Z.of_nat (length (fst vs)) <= ny * w + nx).
    { destruct (decide (0 <= ny * w + nx < Z.of_nat (length (fst vs)))) as [Hin|Hout]; [|lia].
      destruct (aget_in_range _ _ Hin) as [? Hsome]. congruence. }
    rewrite aset_out_of_range by done. unfold weight, in_buffer. simpl. fold w h.
    destruct (Z.leb_spec 0 (ny * w + nx)), (Z.ltb_spec (ny * w + nx) (w * h)); simpl; lia.
Qed.

Lemma neighbours_potential x y (vs : list Z * list (Z * Z)) :
  0 <= y * w + x < w * h ->
  Z.of_nat (length (fst vs)) = w * h -> Forall no_wrap (snd vs) ->
  let vs' := neighbours w h x y vs in
  Z.of_nat (length (fst vs')) = w * h /\ Forall no_wrap (snd vs') /\
  (potential (fst vs') (snd vs') <= potential (fst vs) (snd vs) + 4)%nat.
Proof using img_wf img_small.
  intros Hp Hlen Hstack. destruct img_wf as (Hw & Hh & _). fold w h in Hw, Hh.
  assert (Hs : 4 * (w * h + w + 1) < 2 ^ 31) by done.
  unfold neighbours.
  set (vs1 := if 0 <? x then visit (y * w + x - 1) (x - 1) y vs else vs).
  assert (H1 : Z.of_nat (length (fst vs1)) = w * h /\ Forall no_wrap (snd vs1) /\
               (potential (fst vs1) (snd vs1) <= potential (fst vs) (snd vs) + 1)%nat).
  { subst vs1. destruct (0 <? x); [|repeat split; [done|done|lia]].
    replace (y * w + x - 1) with (y * w + (x - 1)) by lia.
    apply visit_potential; try done. unfold no_wrap; simpl; lia. }
  destruct H1 as (L1 & F1 & P1).
  set (vs2 := if x <? w - 1 then visit (y * w + x + 1) (x + 1) y vs1 else vs1).
  assert (H2 : Z.of_nat (length (fst vs2)) = w * h /\ Forall no_wrap (snd vs2) /\
               (potential (fst vs2) (snd vs2) <= potential (fst vs1) (snd vs1) + 1)%nat).
  { subst vs2. destruct (x <? w - 1); [|repeat split; [done|done|lia]].
    replace (y * w + x + 1) with (y * w + (x + 1)) by lia.
    apply visit_potential; try done. unfold no_wrap; simpl; lia. }
  destruct H2 as (L2 & F2 & P2).
  set (vs3 := if 0 <? y then visit (y * w + x - w) x (y - 1) vs2 else vs2).
  assert (H3 : Z.of_nat (length (fst vs3)) = w * h /\ Forall no_wrap (snd vs3) /\
               (potential (fst vs3) (snd vs3) <= potential (fst vs2) (snd vs2) + 1)%nat).
  { subst vs3. destruct (0 <? y); [|repeat split; [done|done|lia]].
    replace (y * w + x - w) with ((y - 1) * w + x) by lia.
    apply visit_potential; try done. unfold no_wrap; simpl; lia. }
  destruct H3 as (L3 & F3 & P3).
  destruct (y <? h - 1); [|repeat split; [done|done|lia]].
  replace (y * w + x + w) with ((y + 1) * w + x) by lia.
  destruct (visit_potential x (y + 1) vs3 L3) as (L4 & F4 & P4); [unfold no_wrap; simpl; lia|done|].
  repeat split; [done|done|lia].
Qed.

(** Every iteration lowers the potential. *)
Lemma step_potential st :
  bounded st -> stack st <> [] ->
  bounded (step img seed thr st) /\
  (potential_of (step img seed thr st) < potential_of st)%nat.
Proof using img_wf img_small.
  intros [Hlen Hstack] Hne. destruct (stack st) as [|[x y] stack'] eqn:Hst; [done|].
  apply Forall_cons in Hstack as [Hxy Hstack']. unfold no_wrap in Hxy. simpl in Hxy.
  pose proof img_wf as (Hw & Hh & Hdata). fold w h in Hw, Hh, Hdata.
  assert (Hreject : bounded (reject stack' st) /\
                    (potential_of (reject stack' st) < potential_of st)%nat).
  { split; [done|]. unfold potential_of, potential. rewrite Hst. simpl.
    unfold weight. destruct (in_buffer (x, y)); lia. }
  unfold step. rewrite Hst. fold w h. rewrite shl2_small by done.
  destruct (aget (data img) (4 * (y * w + x))) as [rv|] eqn:Hr; [|done].
  destruct (aget (data img) (4 * (y * w + x) + 1)) as [gv|]; [|done].
  destruct (aget (data img) (4 * (y * w + x) + 2)) as [bv|]; [|done].
  destruct (within _ _); [|done].
  pose proof (aget_Some_range _ _ _ Hr) as Hrange.
  assert (Hp : 0 <= y * w + x < w * h) by lia.
  destruct (neighbours_potential x y (visited st, stack') Hp Hlen Hstack') as (L & F & P).
  split; [done|]. unfold potential_of. cbn [visited stack].
  unfold potential in P |- *. rewrite Hst. simpl in P |- *.
  unfold weight at 2. unfold in_buffer. simpl. fold w h.
  destruct (Z.leb_spec 0 (y * w + x)), (Z.ltb_spec (y * w + x) (w * h)); simpl; lia.
Qed.

Lemma loop_terminates fuel : forall st,
  bounded st -> (potential_of st <= fuel)%nat ->
  exists st', loop fuel img seed thr st = Some st'.
Proof using img_wf img_small.
  induction fuel as [|fuel IH]; intros st Hst Hm.
  - destruct (stack st) as [|xy stack'] eqn:Hstack.
    + exists st. simpl. by rewrite Hstack.
    + unfold potential_of, potential in Hm. rewrite Hstack in Hm. simpl in Hm.
      unfold weight in Hm. destruct (in_buffer xy); lia.
  - simpl. destruct (stack st) eqn:Hstack.
    + by exists st.
    + destruct (step_potential st Hst) as [Hst' Hm']; [by rewrite Hstack|].
      apply IH; [done|lia].
Qed.

Lemma init_bounded startX startY :
  - 2 ^ 29 <= startY * w + startX < 2 ^ 29 ->
  bounded (init img startX startY) /\
  (potential_of (init img startX startY) <= 5 * Z.to_nat (w * h) + 5)%nat.
Proof using img_wf.
  intros Hp. destruct img_wf as (Hw & Hh & _). fold w h in Hw, Hh.
  unfold bounded, potential_of, potential, init. cbn [visited stack]. fold w h.
  rewrite length_aset, length_replicate. split.
  - split; [nia|]. apply Forall_cons_2; [exact Hp|apply Forall_nil_2].
  - simpl. unfold weight.
    assert (Hu : (unvisited
                    (aset (replicate (Z.to_nat (w * h)) 0%Z) (startY * w + startX)%Z 1%Z)
                  <= Z.to_nat (w * h))%nat).
    { destruct (decide (0 <= startY * w + startX < w * h)) as [Hin|Hout].
      - pose proof (FloodFacts.unvisited_aset (replicate (Z.to_nat (w * h)) 0)
                      (startY * w + startX)) as Hd.
        rewrite FloodFacts.unvisited_replicate in Hd.
        rewrite aget_replicate in Hd by lia. specialize (Hd eq_refl). lia.
      - rewrite aset_out_of_range by (rewrite length_replicate; lia).
        by rewrite FloodFacts.unvisited_replicate. }
    destruct (in_buffer _); lia.
Qed.

End AnySeed.

End FloodTermination.

(** [magicSelect] returns a region for every seed, inside the image or not,
    within [5 * width * height + 5] iterations. *)
Lemma magicSelect_returns (uuid : string) (img : ImageData) (x y : Z) (tolerance : JS.number) :
  wf_image img ->
  4 * (width img * height img + width img + 1) < 2 ^ 31 ->
  - 2 ^ 29 <= y * width img + x < 2 ^ 29 ->
  exists region, forall extra : nat,
    magicSelect (5 * Z.to_nat (width img * height img) + 5 + extra) uuid img x y tolerance =
    Some region.
Proof.
  intros Hwf Hsmall Hp.
  destruct (FloodTermination.init_bounded img Hwf x y Hp) as [Hb Hm].
  destruct (FloodTermination.loop_terminates img Hwf Hsmall (seedColor img x y)
              (toleranceThresholdSq tolerance) _ _ Hb Hm) as [st Hloop].
  eexists. intros extra. apply magicSelect_more. unfold magicSelect.
  rewrite Hloop. reflexivity.
Qed.

(** [C4], amended: every [magicSelect] request on a well-formed buffer,
    with the seed inside or outside the buffer bounds, and also on a
    zero-size buffer, is answered with one [magicSelectResult] and no
    [error]; [5 * width * height + 5] iterations of the fill are enough.
    When the seed's row-major index [y * width + x] is outside the buffer,
    the region is empty, with bounds {x, y, 1, 1}.  The buffer and the
    seed's index are small enough for [<< 2] not to wrap. *)
Theorem magicSelect_no_error (Math_exp : float -> float) (uuid : string)
    (cancelAt : nat -> bool) (img : ImageData) (x y : Z) (tolerance : JS.number) :
  wf_image img ->
  4 * (width img * height img + width img + 1) < 2 ^ 31 ->
  - 2 ^ 29 <= y * width img + x < 2 ^ 29 ->
  (exists region, forall extra : nat,
     onmessage Math_exp (5 * Z.to_nat (width img * height img) + 5 + extra) uuid cancelAt
       (magicSelectMsg img x y tolerance) = Some [magicSelectResult region]) /\
  (y * width img + x < 0 \/ width img * height img <= y * width img + x ->
   forall fuel : nat,
     onmessage Math_exp (S fuel) uuid cancelAt (magicSelectMsg img x y tolerance) =
     Some [magicSelectResult
             (Region.mk uuid [] (mkBounds x y 1 1) 0 (Color.mk None None None) remove)]).
Proof.
  intros Hwf Hsmall Hp. split.
  - destruct (magicSelect_returns uuid img x y tolerance Hwf Hsmall Hp) as [region Hr].
    exists region. intros extra. unfold onmessage. by rewrite Hr.
  - intros Hout fuel. by apply magicSelect_outside.
Qed.

Lemma magicSelect_no_error_witness :
  (exists region, forall extra : nat,
     onmessage (fun x => x) (5 * Z.to_nat (4 * 4) + 5 + extra) "u" (fun _ => false)
       (magicSelectMsg (scenario_image (fun _ => 255)) 10 10 (JS.Int 10)) =
     Some [magicSelectResult region]) /\
  (forall fuel : nat,
     onmessage (fun x => x) (S fuel) "u" (fun _ => false)
       (magicSelectMsg (scenario_image (fun _ => 255)) 10 10 (JS.Int 10)) =
     Some [magicSelectResult
             (Region.mk "u" [] (mkBounds 10 10 1 1) 0 (Color.mk None None None) remove)]).
Proof.
  destruct (magicSelect_no_error (fun x => x) "u" (fun _ => false)
              (scenario_image (fun _ => 255)) 10 10 (JS.Int 10)) as [H1 H2].
  - unfold wf_image. simpl. lia.
  - simpl. lia.
  - simpl. lia.
  - split; [exact H1|]. apply H2. simpl. lia.
Defined.

(** [C4], as stated, fails: seeded at (10,10) on the 4x4 buffer of the
    scenario, outside the buffer bounds, the worker answers with a
    [magicSelectResult], not with an [error]. *)
Lemma magicSelect_outside_counterexample :
  ~ (0 <= 10 < width (scenario_image (fun _ => 255))) /\
  onmessage (fun x => x) 100 "u" (fun _ => false)
    (magicSelectMsg (scenario_image (fun _ => 255)) 10 10 (JS.Int 10)) =
  Some [magicSelectResult
          (Region.mk "u" [] (mkBounds 10 10 1 1) 0 (Color.mk None None None) remove)].
Proof. split; [simpl; lia|vm_compute; reflexivity]. Qed.

(** ** processImage with hard or feathered edges *)

Module BasicModes.

Section Basic.

Variable img : ImageData.
Hypothesis img_wf : wf_image img.
Hypothesis img_small : 4 * (width img * height img) < 2 ^ 31.
Variable settings : ProcessingSettings.
Hypothesis basic : useAdvancedEdge (edgeMode settings) = false.
Hypothesis not_picker : mode settings <> Mode.colorPicker.

Let total := width img * height img.

(** What the loop body does to the buffer, for one pixel. *)
Lemma classifyPixel_basic d m i :
  classifyPixel settings (referenceColor img settings) (d, m) i =
  (if classifiedBackground img settings d i
   then aset d (JS.shl2 i + 3)
          (matchedAlpha settings (referenceDistSq img settings d i) (effectiveThreshold settings))
   else d, m).
Proof using basic not_picker.
  rewrite (classifyPixel_background img) by done. cbn [fst].
  destruct (classifiedBackground img settings d i); [|done].
  unfold on_match, matchedAlpha, referenceDistSq. rewrite basic. cbn [fst snd].
  destruct (edgeMode settings); done.
Qed.

Lemma classifyPixel_upTo d m i :
  0 <= i < total -> classifiedUpTo img settings i d ->
  exists d', classifyPixel settings (referenceColor img settings) (d, m) i = (d', m) /\
             classifiedUpTo img settings (i + 1) d'.
Proof using img_wf img_small basic not_picker.
  intros Hi [Hrgb Halpha]. rewrite classifyPixel_basic. eexists. split; [reflexivity|].
  destruct img_wf as (Hw & Hh & Hlen). fold total in Halpha, Hlen.
  pose proof (classifiedBackground_same_rgb img settings d i Hrgb) as Hcls.
  assert (Hdist : referenceDistSq img settings d i = referenceDistSq img settings (data img) i).
  { destruct Hrgb as [_ H]. unfold referenceDistSq. pose proof (shl2_mod4 i) as H4.
    rewrite !H; [done| | |].
    - rewrite Z.add_mod, H4 by lia. done.
    - rewrite Z.add_mod, H4 by lia. done.
    - rewrite H4. done. }
  rewrite Hcls, Hdist. rewrite shl2_small by (fold total in img_small; lia).
  destruct (classifiedBackground img settings (data img) i) eqn:Hc.
  - split.
    + destruct Hrgb as [Hl H]. split; [by rewrite length_aset|].
      intros k Hk. rewrite aget_aset_ne; [by apply H|]. intros <-.
      rewrite Z.add_mod, Z.mul_comm, Z.mod_mul in Hk by lia. done.
    + intros p Hp. fold total in Hp. destruct (decide (p = i)) as [->|Hne].
      * rewrite aget_aset_eq.
        -- destruct (Z.ltb_spec i (i + 1)); [|lia]. unfold basicAlpha. by rewrite Hc.
        -- destruct Hrgb as [Hl _]. rewrite Hl. lia.
      * rewrite aget_aset_ne by lia. rewrite Halpha by done.
        destruct (Z.ltb_spec p i), (Z.ltb_spec p (i + 1)); try done; lia.
  - split; [done|]. intros p Hp. fold total in Hp. rewrite Halpha by done.
    destruct (decide (p = i)) as [->|Hne].
    + destruct (Z.ltb_spec i i), (Z.ltb_spec i (i + 1)); try lia.
      unfold basicAlpha. by rewrite Hc.
    + destruct (Z.ltb_spec p i), (Z.ltb_spec p (i + 1)); try done; lia.
Qed.

Lemma classifyChunk_upTo (n : nat) : forall a d m,
  0 <= a -> a + Z.of_nat n <= total -> classifiedUpTo img settings a d ->
  exists d', fold_left (classifyPixel settings (referenceColor img settings))
               (seqZ a (Z.of_nat n)) (d, m) = (d', m) /\
             classifiedUpTo img settings (a + Z.of_nat n) d'.
Proof using img_wf img_small basic not_picker.
  induction n as [|n IH]; intros a d m Ha Hn Hd.
  - exists d. split; [done|]. by rewrite Z.add_0_r.
  - rewrite seqZ_S, fold_left_app.
    destruct (IH a d m Ha ltac:(lia) Hd) as (d1 & -> & Hd1). cbn [fold_left].
    destruct (classifyPixel_upTo d1 m (a + Z.of_nat n)) as (d2 & -> & Hd2); [lia|done|].
    exists d2. split; [done|]. by replace (a + Z.of_nat (S n)) with (a + Z.of_nat n + 1) by lia.
Qed.

(** Phase 1 from chunk [c] on: when it runs to its end, every pixel has
    been classified. *)
Lemma phase1_upTo cancelAt (n : nat) : forall c j,
  0 <= c -> chunkSize * c <= total + chunkSize - 1 ->
  total <= chunkSize * (c + Z.of_nat n) ->
  (n <> O -> chunkSize * (c + Z.of_nat n - 1) < total) ->
  classifiedUpTo img settings (Z.min (chunkSize * c) total) (jdata j) ->
  no_complete (posted j) ->
  match phase1 cancelAt settings (referenceColor img settings) total
          ((fun k => chunkSize * k) <$> seqZ c (Z.of_nat n)) j with
  | Stop j' => no_complete (posted j')
  | Go j' => classifiedUpTo img settings total (jdata j') /\ no_complete (posted j')
  end.
Proof using img_wf img_small basic not_picker.
  unfold chunkSize. induction n as [|n IH]; intros c j Hc Hlow Hhigh Hlast Hd Hout.
  - simpl. split; [|done]. by replace (Z.min (250000 * c) total) with total in Hd by lia.
  - rewrite seqZ_cons by lia. rewrite fmap_cons. cbn [phase1].
    destruct (isCancelled j).
    { simpl. by apply no_complete_snoc. }
    replace (Z.pred (Z.of_nat (S n))) with (Z.of_nat n) by lia.
    assert (Hstart : 250000 * c < total) by (specialize (Hlast ltac:(done)); lia).
    replace (Z.min (250000 * c) total) with (250000 * c) in Hd by lia.
    unfold classifyChunk, chunkSize.
    set (chunkEnd := Z.min (250000 * c + 250000) total).
    destruct (classifyChunk_upTo (Z.to_nat (chunkEnd - 250000 * c)) (250000 * c) (jdata j) (jmask j))
      as (d' & Hfold & Hd'); [lia|subst chunkEnd; lia|done|].
    rewrite Z2Nat.id in Hfold, Hd' by (subst chunkEnd; lia).
    rewrite Hfold. cbn [fst snd].
    replace (250000 * c + (chunkEnd - 250000 * c)) with chunkEnd in Hd' by lia.
    apply IH; cbn [jdata posted]; try lia.
    + by replace (Z.min (250000 * Z.succ c) total) with chunkEnd by (subst chunkEnd; lia).
    + destruct (PrimFloat.leb _ _); [|done]. by apply no_complete_snoc.
Qed.

End Basic.

End BasicModes.

(** The strict test never passes against a limit of 0. *)
Lemma matches_zero r1 g1 b1 r2 g2 b2 :
  matches (colorDistanceSquared_u r1 g1 b1 r2 g2 b2) (JS.Int 0) = false.
Proof.
  unfold matches, colorDistanceSquared_u.
  destruct r1, g1, b1, r2, g2, b2; try done. simpl. apply Z.ltb_ge.
  apply colorDistanceSquared_nonneg.
Qed.

(** The buffer posted with [complete] by a job with hard or feathered
    edges in auto or manual mode, without applied regions. *)
Lemma processImage_basic_data Math_exp cancelAt img settings out :
  wf_image img -> 4 * (width img * height img) < 2 ^ 31 ->
  useAdvancedEdge (edgeMode settings) = false ->
  mode settings <> Mode.colorPicker ->
  appliedRegions (magicSelection settings) = [] ->
  complete out ∈ fst (processImage Math_exp cancelAt img settings) ->
  width out = width img /\ height out = height img /\
  classifiedUpTo img settings (width img * height img) (data out).
Proof.
  intros Hwf Hsmall Hbasic Hmode Hregions. unfold processImage.
  rewrite newAlphaMask_spec, Hbasic, Hregions. cbn [andb]. unfold chunkStarts.
  set (total := width img * height img) in *.
  assert (Htotal : 0 <= total) by (destruct Hwf as (? & ? & _); subst total; nia).
  set (n := (total + chunkSize - 1) / chunkSize).
  pose proof (Z.div_mod (total + chunkSize - 1) chunkSize ltac:(done)) as Hdm.
  pose proof (Z.mod_pos_bound (total + chunkSize - 1) chunkSize ltac:(done)) as Hmod.
  fold n in Hdm. unfold chunkSize in Hdm, Hmod.
  assert (Hn : 0 <= n) by (subst n; apply Z.div_pos; unfold chunkSize; lia).
  rewrite <- (Z2Nat.id n Hn).
  pose proof (BasicModes.phase1_upTo img Hwf Hsmall settings Hbasic Hmode cancelAt (Z.to_nat n) 0
                (mkJob (data img) None 0%float false 0%nat [])) as H1.
  fold total in H1. unfold chunkSize in H1 |- *.
  destruct (phase1 _ _ _ _ _ _) as [j1|j1].
  - intros Hin. exfalso. revert Hin. apply H1; cbn [jdata posted]; try lia.
    + split; [done|]. intros p Hp. by destruct (Z.ltb_spec p (Z.min (250000 * 0) total)); [lia|].
    + intros ? ?%elem_of_nil. done.
  - destruct H1 as [Hd Hout]; cbn [jdata posted]; try lia.
    + split; [done|]. intros p Hp. by destruct (Z.ltb_spec p (Z.min (250000 * 0) total)); [lia|].
    + intros ? ?%elem_of_nil. done.
    + unfold phase2. rewrite Hbasic. cbn [stampRegions fst].
      intros Hin. apply elem_of_app in Hin as [Hin|Hin]; [by apply Hout in Hin|].
      apply list_elem_of_singleton in Hin. injection Hin as ->. done.
Qed.

(** With hard or feathered edges, in auto or manual mode and without
    applied regions, the buffer posted with [complete] has the dimensions
    and the colour bytes of the input; the alpha byte of a pixel is the
    stored value (0 with hard edges, the falloff of its distance with
    feathered edges) when its squared distance to the dominant colour is
    below the squared threshold, and the input's alpha byte otherwise. *)
Theorem processImage_basic (Math_exp : float -> float) (cancelAt : nat -> bool)
    (img : ImageData) (settings : ProcessingSettings) (out : ImageData) :
  wf_image img -> 4 * (width img * height img) < 2 ^ 31 ->
  useAdvancedEdge (edgeMode settings) = false ->
  mode settings <> Mode.colorPicker ->
  appliedRegions (magicSelection settings) = [] ->
  complete out ∈ fst (processImage Math_exp cancelAt img settings) ->
  width out = width img /\ height out = height img /\
  length (data out) = length (data img) /\
  (forall i, i mod 4 <> 3 -> aget (data out) i = aget (data img) i) /\
  (forall p, 0 <= p < width img * height img ->
     aget (data out) (4 * p + 3) = basicAlpha img settings p).
Proof.
  intros Hwf Hsmall Hbasic Hmode Hregions Hin.
  destruct (processImage_basic_data _ _ _ _ _ Hwf Hsmall Hbasic Hmode Hregions Hin)
    as (Hw & Hh & [Hl Hrgb] & Halpha).
  repeat split; try done.
  intros p Hp. rewrite Halpha by done. by destruct (Z.ltb_spec p (width img * height img)); [|lia].
Qed.

Lemma processImage_basic_witness :
  exists out,
    width out = 2 /\ height out = 1 /\
    length (data out) = 8%nat /\
    (forall i, i mod 4 <> 3 -> aget (data out) i = aget (data (two_pixels 128)) i) /\
    (forall p, 0 <= p < 2 * 1 ->
       aget (data out) (4 * p + 3) = basicAlpha (two_pixels 128) (manual_hard 10) p).
Proof.
  eexists.
  apply (processImage_basic (fun x => x) (fun _ => false) (two_pixels 128) (manual_hard 10)).
  - unfold wf_image. simpl. lia.
  - simpl. lia.
  - reflexivity.
  - discriminate.
  - reflexivity.
  - vm_compute. apply list_elem_of_further, list_elem_of_here.
Defined.

(** ** Edge processing *)

Module EdgeFacts.

Lemma pixels_spec w h y x : (y, x) ∈ pixels w h <-> 0 <= y < h /\ 0 <= x < w.
Proof.
  unfold pixels. rewrite list_elem_of_bind. split.
  - intros (y' & Hin & Hy%elem_of_seqZ). apply list_elem_of_bind in Hin as (x' & Hin & Hx%elem_of_seqZ).
    apply list_elem_of_singleton in Hin. injection Hin as -> ->. lia.
  - intros [Hy Hx]. exists y. split; [|apply elem_of_seqZ; lia].
    apply list_elem_of_bind. exists x. split; [apply list_elem_of_here|apply elem_of_seqZ; lia].
Qed.

Lemma pixel_index_inj w y x y' x' :
  0 <= x < w -> 0 <= x' < w -> y * w + x = y' * w + x' -> y = y' /\ x = x'.
Proof. intros Hx Hx' Heq. assert (y = y') by nia. subst. lia. Qed.

Section PixelFold.

Context {A : Type}.
Variable idx : A -> Z.
Variable g : list Z -> A -> list Z.
Hypothesis g_spec : forall acc a, exists v, g acc a = aset acc (idx a) v.

Lemma length_pixel_fold L : forall init, length (fold_left g L init) = length init.
Proof using g_spec.
  induction L as [|a L IH]; intros init; simpl; [done|].
  rewrite IH. destruct (g_spec init a) as [v ->]. apply length_aset.
Qed.

Lemma pixel_fold_frame L q : forall init,
  (forall a, a ∈ L -> idx a <> q) -> aget (fold_left g L init) q = aget init q.
Proof using g_spec.
  induction L as [|a L IH]; intros init Hq; simpl; [done|].
  rewrite IH by (intros b Hb; apply Hq; by apply list_elem_of_further).
  destruct (g_spec init a) as [v ->]. apply aget_aset_ne. apply Hq, list_elem_of_here.
Qed.

Lemma pixel_fold_at `{EqDecision A} L a va : forall init,
  (forall acc, g acc a = aset acc (idx a) va) ->
  a ∈ L -> (forall b, b ∈ L -> idx b = idx a -> b = a) ->
  0 <= idx a < Z.of_nat (length init) ->
  aget (fold_left g L init) (idx a) = Some va.
Proof using g_spec.
  induction L as [|b L IH]; intros init Hg Ha Hinj Hr; [by apply elem_of_nil in Ha|].
  simpl. destruct (decide (a ∈ L)) as [Hin|Hout].
  - apply IH; [done|done| |].
    + intros c Hc. apply Hinj. by apply list_elem_of_further.
    + destruct (g_spec init b) as [v ->]. by rewrite length_aset.
  - apply elem_of_cons in Ha as [->|Ha]; [|done].
    rewrite pixel_fold_frame.
    + rewrite Hg. by apply aget_aset_eq.
    + intros c Hc Heq. apply Hout. rewrite <- (Hinj c); [done| |done].
      by apply list_elem_of_further.
Qed.

End PixelFold.

(** A loop over the pixels that stores one value per pixel: the value
    stored for a pixel is what the result holds there. *)
Lemma pixel_loop (w h : Z) (g : list Z -> Z * Z -> list Z) init x y v :
  (forall acc yx, exists u, g acc yx = aset acc (fst yx * w + snd yx) u) ->
  (forall acc, g acc (y, x) = aset acc (y * w + x) v) ->
  Z.of_nat (length init) = w * h ->
  0 <= x < w -> 0 <= y < h ->
  aget (fold_left g (pixels w h) init) (y * w + x) = Some v.
Proof.
  intros Hg Hv Hlen Hx Hy.
  apply (pixel_fold_at (fun yx => fst yx * w + snd yx) g Hg (pixels w h) (y, x)).
  - done.
  - by apply pixels_spec.
  - intros [y' x'] Hin%pixels_spec Heq. simpl in Heq.
    destruct (pixel_index_inj w y' x' y x) as [-> ->]; [lia|lia|done|done].
  - simpl. nia.
Qed.

(** An array of the image's size is determined by its pixels. *)
Lemma pixel_ext (w h : Z) (a1 a2 : list Z) :
  0 <= w -> Z.of_nat (length a1) = w * h -> Z.of_nat (length a2) = w * h ->
  (forall x y, 0 <= x < w -> 0 <= y < h -> aget a1 (y * w + x) = aget a2 (y * w + x)) ->
  a1 = a2.
Proof.
  intros Hw H1 H2 H. apply aget_ext; [lia|]. intros i Hi.
  assert (Hw' : 0 < w) by (destruct (decide (w = 0)) as [->|]; lia).
  pose proof (Z.div_mod i w ltac:(lia)) as Hdm.
  pose proof (Z.mod_pos_bound i w Hw') as Hmod.
  replace i with (i / w * w + i mod w) by lia. apply H; [done|].
  split; [apply Z.div_pos; lia|]. apply Z.div_lt_upper_bound; [done|]. lia.
Qed.

(** *** smoothEdges *)

Section Smooth.

Variable Math_exp : float -> float.

Lemma smoothEdges_stores mask w h r :
  exists g,
    smoothEdges Math_exp mask w h r =
      fold_left g (pixels w h) (replicate (Z.to_nat (w * h)) 0) /\
    (forall acc yx, exists u, g acc yx = aset acc (fst yx * w + snd yx) u) /\
    (forall acc x y, flat_at mask w h x y ->
       g acc (y, x) = aset acc (y * w + x) (default 0 (aget mask (y * w + x)))).
Proof.
  unfold smoothEdges.
  match goal with |- context [fold_left ?g _ _] => exists g end.
  split; [done|]. split.
  - intros acc [y x]. cbv beta iota zeta. cbn [fst snd].
    destruct (negb _); [by eexists|]. destruct (fold_left _ _ _). by eexists.
  - intros acc x y (H1 & H2 & H3 & H4). cbv beta iota zeta.
    replace (negb _) with true; [done|]. symmetry. apply negb_true_iff.
    repeat (apply orb_false_iff; split).
    + destruct (Z.ltb_spec 0 x); [|done]. by rewrite (bool_decide_eq_true_2 _ (H1 ltac:(done))).
    + destruct (Z.ltb_spec x (w - 1)); [|done]. by rewrite (bool_decide_eq_true_2 _ (H2 ltac:(done))).
    + destruct (Z.ltb_spec 0 y); [|done]. by rewrite (bool_decide_eq_true_2 _ (H3 ltac:(done))).
    + destruct (Z.ltb_spec y (h - 1)); [|done]. by rewrite (bool_decide_eq_true_2 _ (H4 ltac:(done))).
Qed.

Lemma length_smoothEdges mask w h r :
  0 <= w * h -> Z.of_nat (length (smoothEdges Math_exp mask w h r)) = w * h.
Proof.
  intros Hwh. destruct (smoothEdges_stores mask w h r) as (g & -> & Hg & _).
  rewrite (length_pixel_fold _ g Hg), length_replicate. lia.
Qed.

Lemma smoothEdges_flat_at mask w h r x y :
  0 <= x < w -> 0 <= y < h -> flat_at mask w h x y ->
  aget (smoothEdges Math_exp mask w h r) (y * w + x) = Some (default 0 (aget mask (y * w + x))).
Proof.
  intros Hx Hy Hflat. destruct (smoothEdges_stores mask w h r) as (g & -> & Hg & Hv).
  apply pixel_loop; try done.
  - intros acc. by apply Hv.
  - rewrite length_replicate. nia.
Qed.

End Smooth.

(** [smoothEdges] returns a mask of the image's size, and leaves a pixel
    as it is when the 4-neighbours it has inside the image hold the same
    value: only pixels with a differing neighbour are blurred. *)
Theorem smoothEdges_flat (Math_exp : float -> float) (mask : list Z) (w h r x y : Z) :
  Z.of_nat (length mask) = w * h -> 0 <= x < w -> 0 <= y < h ->
  flat_at mask w h x y ->
  Z.of_nat (length (smoothEdges Math_exp mask w h r)) = w * h /\
  aget (smoothEdges Math_exp mask w h r) (y * w + x) = aget mask (y * w + x).
Proof.
  intros Hlen Hx Hy Hflat. split; [apply length_smoothEdges; lia|].
  rewrite smoothEdges_flat_at by done.
  destruct (aget_in_range mask (y * w + x)) as [v ->]; [nia|done].
Qed.

Lemma smoothEdges_flat_witness :
  Z.of_nat (length (smoothEdges (fun x => x) [255; 255; 255; 0] 2 2 2)) = 2 * 2 /\
  aget (smoothEdges (fun x => x) [255; 255; 255; 0] 2 2 2) (0 * 2 + 0) =
  aget [255; 255; 255; 0] (0 * 2 + 0).
Proof.
  apply smoothEdges_flat; [done|lia|lia|].
  unfold flat_at. simpl. repeat split; intros; (done || lia).
Defined.

Lemma flat_at_replicate n c w h x y :
  Z.of_nat n = w * h -> 0 <= x < w -> 0 <= y < h -> flat_at (replicate n c) w h x y.
Proof.
  intros Hn Hx Hy. unfold flat_at. cbv zeta.
  rewrite (aget_replicate n c (y * w + x)) by nia.
  repeat split; intros; apply aget_replicate; nia.
Qed.

Lemma smoothEdges_uniform Math_exp c w h r :
  0 <= w -> 0 <= h ->
  smoothEdges Math_exp (replicate (Z.to_nat (w * h)) c) w h r = replicate (Z.to_nat (w * h)) c.
Proof.
  intros Hw Hh. apply (pixel_ext w h); [done| |rewrite length_replicate; nia|].
  - apply length_smoothEdges. nia.
  - intros x y Hx Hy. rewrite smoothEdges_flat_at; try done.
    + by rewrite aget_replicate by nia.
    + apply flat_at_replicate; [nia|done|done].
Qed.



(** *** refineEdges *)

Lemma disk_range w h er x y n :
  n ∈ disk w h er x y -> exists nx ny, n = ny * w + nx /\ 0 <= nx < w /\ 0 <= ny < h.
Proof.
  unfold disk. intros (dy & Hin & _)%list_elem_of_bind.
  apply list_elem_of_bind in Hin as (dx & Hin & _).
  destruct (_ <? _); [by apply elem_of_nil in Hin|].
  destruct (Z.ltb_spec (x + dx) 0), (Z.leb_spec w (x + dx)),
           (Z.ltb_spec (y + dy) 0), (Z.leb_spec h (y + dy)); simpl in Hin;
    try by apply elem_of_nil in Hin.
  apply list_elem_of_singleton in Hin. exists (x + dx), (y + dy). lia.
Qed.

Lemma morph_stores op src w h er :
  exists g,
    morph op src w h er = fold_left g (pixels w h) (replicate (Z.to_nat (w * h)) 0) /\
    (forall acc yx, exists u, g acc yx = aset acc (fst yx * w + snd yx) u) /\
    (forall acc x y,
       g acc (y, x) =
       aset acc (y * w + x)
         (default 0 (fold_left (fun a n => op a (aget src n)) (disk w h er x y)
                       (aget src (y * w + x))))).
Proof.
  unfold morph.
  match goal with |- context [fold_left ?g (_ ≫= _) _] => exists g end.
  split; [done|]. split; [|done]. intros acc [y x]. by eexists.
Qed.

Lemma morph_uniform op c w h er :
  (op (Some c) (Some c) = Some c) -> 0 <= w -> 0 <= h ->
  morph op (replicate (Z.to_nat (w * h)) c) w h er = replicate (Z.to_nat (w * h)) c.
Proof.
  intros Hop Hw Hh. set (n := Z.to_nat (w * h)).
  destruct (morph_stores op (replicate n c) w h er) as (g & Hm & Hg & Hv).
  apply (pixel_ext w h); [done| |rewrite length_replicate; subst n; nia|].
  - rewrite Hm, (length_pixel_fold _ g Hg), length_replicate. subst n. nia.
  - intros x y Hx Hy. rewrite Hm, (aget_replicate n c) by (subst n; nia).
    apply pixel_loop; try done; [|rewrite length_replicate; subst n; nia].
    intros acc. rewrite Hv. f_equal.
    rewrite (aget_replicate n c) by (subst n; nia).
    assert (H : forall l, (forall k, k ∈ l -> aget (replicate n c) k = Some c) ->
              fold_left (fun a k => op a (aget (replicate n c) k)) l (Some c) = Some c).
    { induction l as [|k l IH]; intros Hl; simpl; [done|].
      rewrite (Hl k) by apply list_elem_of_here. rewrite Hop.
      apply IH. intros k' Hk'. apply Hl. by apply list_elem_of_further. }
    rewrite H; [done|]. intros k (nx & ny & -> & Hnx & Hny)%disk_range.
    apply aget_replicate. subst n. nia.
Qed.

Lemma refineEdges_replicate (c w h r : Z) :
  0 <= w -> 0 <= h ->
  refineEdges (replicate (Z.to_nat (w * h)) c) w h r = replicate (Z.to_nat (w * h)) c.
Proof.
  intros Hw Hh. unfold refineEdges.
  rewrite !morph_uniform; try done; [|simpl; by rewrite Z.max_id|simpl; by rewrite Z.min_id].
  set (n := Z.to_nat (w * h)).
  match goal with |- fold_left ?g _ _ = _ => set (body := g) end.
  assert (Hg : forall acc yx, exists u, body acc yx = aset acc (fst yx * w + snd yx) u).
  { intros acc [y x]. subst body. cbv beta iota zeta. cbn [fst snd].
    destruct (_ && _); by eexists. }
  change (fold_left body (pixels w h) (replicate n 0) = replicate n c).
  apply (pixel_ext w h); [done| |rewrite length_replicate; subst n; nia|].
  - rewrite (length_pixel_fold _ body Hg), length_replicate. subst n. nia.
  - intros x y Hx Hy. rewrite (aget_replicate n c) by (subst n; nia).
    apply pixel_loop; try done; [|rewrite length_replicate; subst n; nia].
    intros acc. subst body. cbv beta iota zeta.
    rewrite (aget_replicate n c (y * w + x)) by (subst n; nia).
    destruct ((0 <? x) && (x <? w - 1) && (0 <? y) && (y <? h - 1)) eqn:Hint; [|done].
    apply andb_true_iff in Hint as [Hint Hy2]. apply andb_true_iff in Hint as [Hint Hy1].
    apply andb_true_iff in Hint as [Hx1 Hx2].
    apply Z.ltb_lt in Hx1, Hx2, Hy1, Hy2.
    rewrite !(aget_replicate n c) by (subst n; nia).
    rewrite !bool_decide_eq_true_2 by done. done.
Qed.

(** [refineEdges] leaves a mask that holds one value everywhere as it is:
    erosion, dilation and the final blur of edges change nothing where
    there is no edge. *)
Theorem refineEdges_uniform (c w h r : Z) :
  0 <= c <= 255 -> 0 <= w -> 0 <= h ->
  refineEdges (replicate (Z.to_nat (w * h)) c) w h r = replicate (Z.to_nat (w * h)) c.
Proof. intros _. apply refineEdges_replicate. Qed.

Lemma refineEdges_uniform_witness :
  refineEdges (replicate (Z.to_nat (3 * 2)) 255) 3 2 2 = replicate (Z.to_nat (3 * 2)) 255.
Proof. apply refineEdges_uniform; lia. Defined.

(** *** decontaminateEdges *)

Lemma fold_left_keeps {A} (g : list Z -> A -> list Z) (L : list A) (j : Z) :
  (forall acc a, a ∈ L -> aget (g acc a) j = aget acc j) ->
  forall init, aget (fold_left g L init) j = aget init j.
Proof.
  induction L as [|a L IH]; intros Hg init; simpl; [done|].
  rewrite IH; [apply Hg, list_elem_of_here|].
  intros acc b Hb. apply Hg. by apply list_elem_of_further.
Qed.

Lemma fold_left_length {A} (g : list Z -> A -> list Z) (L : list A) :
  (forall acc a, length (g acc a) = length acc) ->
  forall init, length (fold_left g L init) = length init.
Proof.
  intros Hg. induction L as [|a L IH]; intros init; simpl; [done|]. by rewrite IH, Hg.
Qed.

Lemma length_decontaminatePixel mask w h bg er d yx :
  length (decontaminatePixel mask w h bg er d yx) = length d.
Proof.
  unfold decontaminatePixel. destruct yx as [y x]. repeat (case_match; try done).
  all: try by rewrite !length_aset.
Qed.

(** The pixels the loop skips. *)
Lemma decontaminatePixel_skip mask w h bg er d x y :
  aget mask (y * w + x) = Some 0 \/
  (aget mask (y * w + x) = Some 255 /\ isEdgePixel mask x y w h = false) ->
  decontaminatePixel mask w h bg er d (y, x) = d.
Proof.
  intros H. unfold decontaminatePixel.
  destruct (bool_decide_reflect (aget mask (y * w + x) = Some 0)) as [|Hn0]; [done|].
  destruct H as [H|[H He]]; [done|]. rewrite He.
  by rewrite (bool_decide_eq_true_2 _ H).
Qed.

(** A pixel's step writes, if at all, the three colour bytes of that pixel. *)
Lemma decontaminatePixel_writes mask w h bg er d x y j :
  j <> JS.shl2 (y * w + x) -> j <> JS.shl2 (y * w + x) + 1 -> j <> JS.shl2 (y * w + x) + 2 ->
  aget (decontaminatePixel mask w h bg er d (y, x)) j = aget d j.
Proof.
  intros H0 H1 H2. unfold decontaminatePixel.
  repeat (case_match; try done); by rewrite !aget_aset_ne by congruence.
Qed.

Lemma isEdgePixel_opaque n w h x y :
  Z.of_nat n = w * h -> 0 <= x < w -> 0 <= y < h ->
  isEdgePixel (replicate n 255) x y w h = false.
Proof.
  intros Hn Hx Hy. unfold isEdgePixel.
  rewrite (aget_replicate n 255 (y * w + x)) by nia.
  rewrite bool_decide_eq_true_2 by (by right).
  destruct (Z.ltb_spec 0 y), (Z.ltb_spec y (h - 1)), (Z.ltb_spec 0 x), (Z.ltb_spec x (w - 1));
    rewrite ?(aget_replicate n 255) by nia; done.
Qed.

(** Nothing is recoloured under a mask that is opaque everywhere. *)
Lemma decontaminateEdges_opaque d n w h bg r :
  Z.of_nat n = w * h -> decontaminateEdges d (replicate n 255) w h bg r = d.
Proof.
  intros Hn. unfold decontaminateEdges. fold (pixels w h).
  assert (H : forall L, (forall yx, yx ∈ L -> yx ∈ pixels w h) -> forall acc,
            fold_left (decontaminatePixel (replicate n 255) w h bg (Z.max 1 (Z.min r 10))) L acc
            = acc).
  { induction L as [|[y x] L IH]; intros HL acc; cbn [fold_left]; [done|].
    destruct (proj1 (pixels_spec w h y x) (HL _ (list_elem_of_here _ _))) as [Hy Hx].
    rewrite decontaminatePixel_skip.
    - apply IH. intros yx Hyx. by apply HL, list_elem_of_further.
    - right. split; [apply aget_replicate; nia|by apply isEdgePixel_opaque]. }
  by apply H.
Qed.

(** [decontaminateEdges] never touches the alpha channel, and recolours
    only pixels that the mask holds as partly transparent or as an edge: a
    pixel the mask holds as fully transparent, or as opaque away from an
    edge, keeps its colour. *)
Theorem decontaminateEdges_keeps (imageData alphaMask : list Z) (w h : Z)
    (bgColor : Color.t) (radius x y : Z) :
  w * h <= 2 ^ 29 -> 0 <= x < w -> 0 <= y < h ->
  length (decontaminateEdges imageData alphaMask w h bgColor radius) = length imageData /\
  aget (decontaminateEdges imageData alphaMask w h bgColor radius) (4 * (y * w + x) + 3) =
    aget imageData (4 * (y * w + x) + 3) /\
  (aget alphaMask (y * w + x) = Some 0 \/
   (aget alphaMask (y * w + x) = Some 255 /\ isEdgePixel alphaMask x y w h = false) ->
   forall c, 0 <= c < 3 ->
     aget (decontaminateEdges imageData alphaMask w h bgColor radius) (4 * (y * w + x) + c) =
     aget imageData (4 * (y * w + x) + c)).
Proof.
  intros Hsz Hx Hy. unfold decontaminateEdges.
  fold (pixels w h). split; [|split].
  - apply fold_left_length. intros. apply length_decontaminatePixel.
  - apply fold_left_keeps. intros acc [y' x'] [Hy' Hx']%pixels_spec.
    apply decontaminatePixel_writes; rewrite shl2_small by nia; lia.
  - intros Hkeep c Hc. apply fold_left_keeps. intros acc [y' x'] [Hy' Hx']%pixels_spec.
    destruct (decide (y' * w + x' = y * w + x)) as [Heq|Hne].
    + apply pixel_index_inj in Heq as [-> ->]; [|lia|lia].
      by rewrite decontaminatePixel_skip.
    + apply decontaminatePixel_writes; rewrite shl2_small by nia; lia.
Qed.

Lemma decontaminateEdges_keeps_witness :
  length (decontaminateEdges [10; 20; 30; 255; 40; 50; 60; 0] [255; 0] 2 1
            (Color.mk (Some 0) (Some 0) (Some 0)) 2) =
    length [10; 20; 30; 255; 40; 50; 60; 0] /\
  aget (decontaminateEdges [10; 20; 30; 255; 40; 50; 60; 0] [255; 0] 2 1
          (Color.mk (Some 0) (Some 0) (Some 0)) 2) (4 * (0 * 2 + 1) + 3) =
    aget [10; 20; 30; 255; 40; 50; 60; 0] (4 * (0 * 2 + 1) + 3) /\
  (aget [255; 0] (0 * 2 + 1) = Some 0 \/
   (aget [255; 0] (0 * 2 + 1) = Some 255 /\ isEdgePixel [255; 0] 1 0 2 1 = false) ->
   forall c, 0 <= c < 3 ->
     aget (decontaminateEdges [10; 20; 30; 255; 40; 50; 60; 0] [255; 0] 2 1
             (Color.mk (Some 0) (Some 0) (Some 0)) 2) (4 * (0 * 2 + 1) + c) =
     aget [10; 20; 30; 255; 40; 50; 60; 0] (4 * (0 * 2 + 1) + c)).
Proof. apply decontaminateEdges_keeps; lia. Defined.

End EdgeFacts.

(** ** processImage when nothing matches *)

Module Unmatched.

Section Unmatched.

Variable settings : ProcessingSettings.
Hypothesis nothing : matches_nothing settings.

Lemma classifyPixel_unmatched dominantColor st i :
  classifyPixel settings dominantColor st i = st.
Proof using nothing.
  unfold classifyPixel. unfold matches_nothing in nothing.
  destruct (mode settings); try by rewrite nothing, matches_zero.
  by rewrite nothing.
Qed.

Lemma classifyChunk_unmatched dominantColor a b st :
  classifyChunk settings dominantColor a b st = st.
Proof using nothing.
  unfold classifyChunk. induction (seqZ a (b - a)) as [|i l IH]; simpl; [done|].
  by rewrite classifyPixel_unmatched.
Qed.

(** Phase 1 hands on the buffer and the mask it was given. *)
Lemma phase1_unmatched cancelAt dominantColor total starts : forall j,
  no_complete (posted j) ->
  match phase1 cancelAt settings dominantColor total starts j with
  | Stop j' => no_complete (posted j')
  | Go j' => jdata j' = jdata j /\ jmask j' = jmask j /\ no_complete (posted j')
  end.
Proof using nothing.
  induction starts as [|c starts IH]; intros j Hout; cbn [phase1]; [done|].
  destruct (isCancelled j); [by apply no_complete_snoc|].
  rewrite classifyChunk_unmatched. cbn [fst snd].
  match goal with |- context [phase1 _ _ _ _ _ ?j1] => specialize (IH j1) end.
  cbn [posted jdata jmask] in IH. apply IH.
  destruct (PrimFloat.leb _ _); [|done]. by apply no_complete_snoc.
Qed.

End Unmatched.

(** The buffer after [applyMask] with a mask that is 255 everywhere. *)
Lemma applyMask_opaque n total d :
  0 <= total -> 4 * total < 2 ^ 31 -> Z.of_nat n = total ->
  Z.of_nat (length d) = 4 * total ->
  length (applyMask (replicate n 255) total d) = length d /\
  (forall i, i mod 4 <> 3 -> aget (applyMask (replicate n 255) total d) i = aget d i) /\
  (forall p, 0 <= p < total ->
     aget (applyMask (replicate n 255) total d) (4 * p + 3) = Some 255).
Proof.
  intros Htotal Hsmall Hn Hlen. unfold applyMask.
  match goal with |- context [fold_left ?f _ _] => set (g := f) end.
  assert (Hg : forall acc i, exists v, g acc i = aset acc (JS.shl2 i + 3) v) by (by eexists).
  split; [|split].
  - apply (EdgeFacts.length_pixel_fold _ g Hg).
  - intros i Hi. apply (EdgeFacts.pixel_fold_frame _ g Hg). intros p _ <-.
    by rewrite shl2_alpha_index in Hi.
  - intros p Hp. rewrite <- (shl2_small p) by lia.
    apply (EdgeFacts.pixel_fold_at (fun i => JS.shl2 i + 3) g Hg).
    + intros acc. subst g. cbv beta. by rewrite aget_replicate by lia.
    + apply elem_of_seqZ. lia.
    + intros q Hq%elem_of_seqZ. rewrite !shl2_small by lia. lia.
    + rewrite shl2_small by lia. lia.
Qed.

End Unmatched.

(** When nothing matches and no region is applied, a job with hard or
    feathered edges posts, with [complete], the image it was given. *)
Theorem processImage_unmatched (Math_exp : float -> float) (cancelAt : nat -> bool)
    (img : ImageData) (settings : ProcessingSettings) (out : ImageData) :
  useAdvancedEdge (edgeMode settings) = false ->
  matches_nothing settings ->
  appliedRegions (magicSelection settings) = [] ->
  complete out ∈ fst (processImage Math_exp cancelAt img settings) ->
  out = img.
Proof.
  intros Hbasic Hnothing Hregions. unfold processImage.
  rewrite newAlphaMask_spec, Hbasic, Hregions. cbn [andb].
  match goal with |- context [phase1 ?c ?s ?d ?t ?l ?j] =>
    pose proof (Unmatched.phase1_unmatched s Hnothing c d t l j) as H1 end.
  destruct (phase1 _ _ _ _ _ _) as [j1|j1].
  - intros Hin. exfalso. revert Hin. apply H1. intros ? ?%elem_of_nil. done.
  - destruct H1 as (Hd & _ & Hout); [intros ? ?%elem_of_nil; done|].
    unfold phase2. rewrite Hbasic. cbn [stampRegions fst].
    intros Hin. apply elem_of_app in Hin as [Hin|Hin]; [by apply Hout in Hin|].
    apply list_elem_of_singleton in Hin. injection Hin as ->.
    rewrite Hd. by destruct img.
Qed.

Lemma processImage_unmatched_witness :
  mkImageData 2 1 [255; 255; 255; 255; 0; 0; 0; 128] = two_pixels 128.
Proof.
  apply (processImage_unmatched (fun x => x) (fun _ => false) (two_pixels 128)
           (manual_edge EdgeMode.feathered 0)).
  - reflexivity.
  - reflexivity.
  - reflexivity.
  - vm_compute. apply list_elem_of_further, list_elem_of_here.
Defined.

(** When nothing matches and no region is applied, a job with smooth,
    refined or decontaminated edges posts, with [complete], the colour
    bytes of the input with every pixel opaque: the alpha channel of the
    input is overwritten with 255. *)
Theorem processImage_unmatched_advanced (Math_exp : float -> float) (cancelAt : nat -> bool)
    (img : ImageData) (settings : ProcessingSettings) (out : ImageData) :
  wf_image img -> 4 * (width img * height img) < 2 ^ 31 ->
  useAdvancedEdge (edgeMode settings) = true ->
  matches_nothing settings ->
  appliedRegions (magicSelection settings) = [] ->
  complete out ∈ fst (processImage Math_exp cancelAt img settings) ->
  width out = width img /\ height out = height img /\
  length (data out) = length (data img) /\
  (forall i, i mod 4 <> 3 -> aget (data out) i = aget (data img) i) /\
  (forall p, 0 <= p < width img * height img -> aget (data out) (4 * p + 3) = Some 255).
Proof.
  intros (Hw & Hh & Hlen) Hsmall Hadv Hnothing Hregions. unfold processImage.
  rewrite newAlphaMask_spec, Hadv, Hregions.
  set (total := width img * height img) in *.
  assert (Htotal : 0 <= total) by (subst total; nia).
  destruct (Z.ltb_spec total 0) as [Hneg|_]; [lia|]. cbn [andb].
  match goal with |- context [phase1 ?c ?s ?d ?t ?l ?j] =>
    pose proof (Unmatched.phase1_unmatched s Hnothing c d t l j) as H1 end.
  destruct (phase1 _ _ _ _ _ _) as [j1|j1].
  { intros Hin. exfalso. revert Hin. apply H1. intros ? ?%elem_of_nil. done. }
  destruct H1 as (Hd & Hm & Hout); [intros ? ?%elem_of_nil; done|].
  cbn [jdata jmask] in Hd, Hm.
  unfold phase2. rewrite Hadv, Hm.
  destruct (isCancelled j1) eqn:Hc.
  { cbn [fst posted post]. intros Hin. exfalso. revert Hin. by apply no_complete_snoc. }
  cbn [isCancelled post]. rewrite Hc. cbn [jdata posted post stampRegions fst].
  fold total. rewrite Hd.
  set (opaque := replicate (Z.to_nat total) 255).
  assert (Hmask :
    match edgeMode settings with
    | EdgeMode.smooth => smoothEdges Math_exp opaque (width img) (height img) (featherRadius settings)
    | EdgeMode.refine => refineEdges opaque (width img) (height img) (featherRadius settings)
    | EdgeMode.decontaminate =>
        smoothEdges Math_exp opaque (width img) (height img) (Z.max 1 (featherRadius settings / 2))
    | _ => opaque
    end = opaque).
  { subst opaque total. destruct (edgeMode settings); try done.
    - by apply EdgeFacts.smoothEdges_uniform.
    - by apply EdgeFacts.smoothEdges_uniform.
    - by apply EdgeFacts.refineEdges_replicate. }
  rewrite Hmask.
  destruct (Unmatched.applyMask_opaque (Z.to_nat total) total (data img))
    as (Hal & Hargb & Haalpha); [done|done|lia|done|].
  fold opaque in Hal, Hargb, Haalpha.
  set (masked := applyMask opaque total (data img)) in *.
  intros Hin. apply elem_of_app in Hin as [Hin|Hin].
  { exfalso. revert Hin. apply no_complete_snoc; [|done]. apply no_complete_snoc; [|done].
    by apply no_complete_snoc. }
  apply list_elem_of_singleton in Hin. injection Hin as ->. cbn [width height data].
  split; [done|]. split; [done|].
  assert (Hdec : forall bg,
    decontaminateEdges masked opaque (width img) (height img) bg (featherRadius settings) = masked).
  { intros bg. apply EdgeFacts.decontaminateEdges_opaque. subst total. lia. }
  destruct (edgeMode settings); try done; rewrite ?Hdec; repeat split; try done.
Qed.

Lemma processImage_unmatched_advanced_witness :
  exists out,
    width out = 2 /\ height out = 1 /\
    length (data out) = 8%nat /\
    (forall i, i mod 4 <> 3 -> aget (data out) i = aget (data (two_pixels 128)) i) /\
    (forall p, 0 <= p < 2 * 1 -> aget (data out) (4 * p + 3) = Some 255).
Proof.
  eexists.
  apply (processImage_unmatched_advanced (fun x => x) (fun _ => false) (two_pixels 128)
           (manual_edge EdgeMode.decontaminate 0)).
  - unfold wf_image. simpl. lia.
  - simpl. lia.
  - reflexivity.
  - reflexivity.
  - reflexivity.
  - vm_compute. do 4 apply list_elem_of_further. apply list_elem_of_here.
Defined.

(** ** Applied regions *)

Module StampFacts.

Section Stamp.

Variable mask : list Z.
Variable width maskWidth x0 y0 v : Z.

Let body (data : list Z) (l : Z * Z) : list Z :=
  let '(localY, localX) := l in
  let globalY := y0 + localY in
  let rowOffset := globalY * width in
  let maskRowOffset := localY * maskWidth in
  if gt_u (aget mask (maskRowOffset + localX)) 0 then
    let pixelIndex := JS.shl2 (rowOffset + x0 + localX) + 3 in
    aset data pixelIndex v
  else data.

Let hits (l : Z * Z) (j : Z) : Prop :=
  gt_u (aget mask (fst l * maskWidth + snd l)) 0 = true /\
  j = JS.shl2 ((y0 + fst l) * width + x0 + snd l) + 3.

Lemma length_stamp L : forall d, length (fold_left body L d) = length d.
Proof.
  induction L as [|[ly lx] L IH]; intros d; cbn [fold_left]; [done|].
  rewrite IH. unfold body. destruct (gt_u _ _); [apply length_aset|done].
Qed.

(** Every store writes [v]: a byte that holds [v] keeps it. *)
Lemma stamp_keeps_value L j : forall d,
  aget d j = Some v -> aget (fold_left body L d) j = Some v.
Proof.
  induction L as [|[ly lx] L IH]; intros d Hd; cbn [fold_left]; [done|].
  apply IH. unfold body. destruct (gt_u _ _); [|done].
  match goal with |- aget (aset _ ?p _) _ = _ => destruct (decide (p = j)) as [Heq|Hne] end.
  - rewrite Heq. apply aget_aset_eq. by apply aget_Some_range in Hd.
  - by rewrite aget_aset_ne.
Qed.

Lemma stamp_hit L j : forall d,
  0 <= j < Z.of_nat (length d) ->
  (exists l, l ∈ L /\ hits l j) -> aget (fold_left body L d) j = Some v.
Proof.
  induction L as [|[ly lx] L IH]; intros d Hj (l & Hl & Hhit); [by apply elem_of_nil in Hl|].
  cbn [fold_left]. apply elem_of_cons in Hl as [->|Hl].
  - apply stamp_keeps_value. destruct Hhit as [Hset Hidx]. cbn [fst snd] in Hset, Hidx.
    unfold body. rewrite Hset. subst j. by apply aget_aset_eq.
  - apply IH; [|by exists l].
    unfold body. destruct (gt_u _ _); [by rewrite length_aset|done].
Qed.

Lemma stamp_miss L j : forall d,
  (forall l, l ∈ L -> ~ hits l j) -> aget (fold_left body L d) j = aget d j.
Proof.
  induction L as [|[ly lx] L IH]; intros d Hmiss; cbn [fold_left]; [done|].
  rewrite IH by (intros l Hl; apply Hmiss; by apply list_elem_of_further).
  unfold body. destruct (gt_u _ _) eqn:Hset; [|done].
  apply aget_aset_ne. intros Heq. apply (Hmiss (ly, lx)); [apply list_elem_of_here|].
  split; [done|]. by rewrite <- Heq.
Qed.

End Stamp.

Lemma box_spec h w y x :
  (y, x) ∈ (localY ← seqZ 0 h; localX ← seqZ 0 w; [(localY, localX)]) <->
  0 <= y < h /\ 0 <= x < w.
Proof. apply EdgeFacts.pixels_spec. Qed.

(** One region. *)
Lemma stampRegion_spec w d region d' j :
  stampRegion w d region = Some d' ->
  length d' = length d /\
  (0 <= j < Z.of_nat (length d) -> stamps w region j -> aget d' j = Some (stampValue region)) /\
  (~ stamps w region j -> aget d' j = aget d j).
Proof.
  unfold stampRegion, stamps, stampValue.
  destruct (RLE.decodeMaskFromRLE _ _) as [mask|] eqn:Hdec; [|done].
  intros [= <-]. split; [apply length_stamp|]. split.
  - intros Hj (mask' & lx & ly & [= <-] & Hx & Hy & Hset & Hidx).
    apply stamp_hit; [done|]. exists (ly, lx). split; [by apply box_spec|done].
  - intros Hno. apply stamp_miss. intros [ly lx] [Hy Hx]%box_spec [Hset Hidx].
    apply Hno. by exists mask, lx, ly.
Qed.

Lemma stampRegions_length w regions : forall d d',
  stampRegions w regions d = Some d' -> length d' = length d.
Proof.
  induction regions as [|r regions IH]; intros d d'; cbn [stampRegions]; [by intros [= <-]|].
  destruct (stampRegion w d r) as [d1|] eqn:H1; [|done].
  intros Hrest. rewrite (IH _ _ Hrest).
  by destruct (stampRegion_spec w d r d1 0 H1) as [-> _].
Qed.

Lemma stampRegions_miss w regions j : forall d d',
  stampRegions w regions d = Some d' ->
  (forall r, r ∈ regions -> ~ stamps w r j) -> aget d' j = aget d j.
Proof.
  induction regions as [|r regions IH]; intros d d'; cbn [stampRegions]; [by intros [= <-]|].
  destruct (stampRegion w d r) as [d1|] eqn:H1; [|done].
  intros Hrest Hno. rewrite (IH _ _ Hrest) by (intros r' Hr'; apply Hno; by apply list_elem_of_further).
  destruct (stampRegion_spec w d r d1 j H1) as (_ & _ & Hmiss).
  apply Hmiss, Hno, list_elem_of_here.
Qed.

Lemma stampRegions_last w before region after j : forall d d',
  stampRegions w (before ++ region :: after) d = Some d' ->
  0 <= j < Z.of_nat (length d) ->
  stamps w region j -> (forall r, r ∈ after -> ~ stamps w r j) ->
  aget d' j = Some (stampValue region).
Proof.
  induction before as [|r before IH]; intros d d'; cbn [app stampRegions].
  - destruct (stampRegion w d region) as [d1|] eqn:H1; [|done].
    intros Hrest Hj Hhit Hno. rewrite (stampRegions_miss _ _ _ _ _ Hrest Hno).
    destruct (stampRegion_spec w d region d1 j H1) as (_ & Hat & _). by apply Hat.
  - destruct (stampRegion w d r) as [d1|] eqn:H1; [|done].
    intros Hrest Hj. apply (IH _ _ Hrest).
    destruct (stampRegion_spec w d r d1 j H1) as (-> & _). done.
Qed.

(** A region of negative area makes the loop raise. *)
Lemma stampRegions_outcome w regions : forall d,
  is_Some (stampRegions w regions d) <-> areas_ok regions = true.
Proof.
  induction regions as [|r regions IH]; intros d; cbn [stampRegions areas_ok forallb].
  - split; [done|by eexists].
  - unfold stampRegion at 1, RLE.decodeMaskFromRLE, Uint8Array_new.
    rewrite andb_true_iff, Z.leb_le.
    destruct (Z.ltb_spec (bwidth (Region.bounds r) * bheight (Region.bounds r)) 0).
    + split; [by intros [? [=]]|lia].
    + rewrite IH. split; [by split|by intros [_ ?]].
Qed.

(** The length of the buffer through phases 1 and 2. *)
Lemma phases_length Math_exp cancelAt img settings :
  match phase1 cancelAt settings (referenceColor img settings) (width img * height img)
          (chunkStarts (width img * height img))
          (mkJob (data img)
             (if useAdvancedEdge (edgeMode settings)
              then Some (replicate (Z.to_nat (width img * height img)) 255) else None)
             0%float false 0%nat []) with
  | Stop j => no_complete (posted j)
  | Go j =>
      match phase2 Math_exp img settings (referenceColor img settings) j with
      | Stop j => no_complete (posted j)
      | Go j => length (jdata j) = length (data img) /\ no_complete (posted j)
      end
  end.
Proof.
  set (P := fun d : list Z => length d = length (data img)).
  assert (Hst : stable (fun _ _ => True) P).
  { intros d p v Hd _. unfold P. by rewrite length_aset. }
  assert (Hjs : job_store (edgeMode settings) (fun _ _ => True)) by done.
  match goal with |- context [phase1 ?c ?s ?d ?t ?l ?j] =>
    pose proof (phase1_writes _ P Hst s Hjs c d t l j) as H1 end.
  destruct (phase1 _ _ _ _ _ _) as [j1|j1]; cbn [flow_ok] in H1.
  { apply H1; [done|]. intros ? ?%elem_of_nil. done. }
  destruct H1 as [HP1 Hout1]; [done|intros ? ?%elem_of_nil; done|].
  unfold phase2.
  destruct (useAdvancedEdge (edgeMode settings)) eqn:Hadv; [|done].
  destruct (jmask j1) as [alphaMask|]; [|done].
  destruct (isCancelled j1) eqn:Hc; [by apply no_complete_snoc|].
  cbn [isCancelled post]. rewrite Hc. cbn [jdata posted post].
  split.
  - assert (Hhard : edgeMode settings <> EdgeMode.hard) by (by destruct (edgeMode settings)).
    match goal with |- context [applyMask ?m ?t ?d] =>
      pose proof (applyMask_writes _ P Hst settings Hjs m t d Hhard HP1) as Ha end.
    destruct (edgeMode settings); try done.
    unfold decontaminateEdges. rewrite EdgeFacts.fold_left_length; [done|].
    intros. apply EdgeFacts.length_decontaminatePixel.
  - repeat apply no_complete_snoc; done.
Qed.

End StampFacts.

(** The applied regions are stamped in order onto the alpha channel, after
    classification and edge processing: in the buffer posted with
    [complete], a byte that a region stamps holds that region's value (255
    for [keep], 0 for [remove]) unless a later region stamps it too. *)
Theorem processImage_region_wins (Math_exp : float -> float) (cancelAt : nat -> bool)
    (img : ImageData) (settings : ProcessingSettings) (out : ImageData)
    (before after : list MagicRegion) (region : MagicRegion) (j : Z) :
  appliedRegions (magicSelection settings) = before ++ region :: after ->
  complete out ∈ fst (processImage Math_exp cancelAt img settings) ->
  0 <= j < Z.of_nat (length (data img)) ->
  stamps (width img) region j ->
  (forall r, r ∈ after -> ~ stamps (width img) r j) ->
  aget (data out) j = Some (stampValue region).
Proof.
  intros Hregions Hin Hj Hhit Hno. revert Hin. unfold processImage.
  rewrite newAlphaMask_spec.
  destruct (_ && _); [by intros ?%elem_of_nil|].
  pose proof (StampFacts.phases_length Math_exp cancelAt img settings) as Hph.
  destruct (phase1 _ _ _ _ _ _) as [j1|j1]; [intros Hin; by apply Hph in Hin|].
  destruct (phase2 _ _ _ _ _) as [j2|j2]; [intros Hin; by apply Hph in Hin|].
  destruct Hph as [Hlen Hout]. rewrite Hregions.
  destruct (stampRegions _ _ _) as [d|] eqn:Hs; cbn [fst]; [|intros Hin; by apply Hout in Hin].
  intros Hin. apply elem_of_app in Hin as [Hin|Hin]; [by apply Hout in Hin|].
  apply list_elem_of_singleton in Hin. injection Hin as ->. cbn [data].
  apply (StampFacts.stampRegions_last _ _ _ _ _ _ _ Hs); [by rewrite Hlen|done|done].
Qed.

Lemma processImage_region_wins_witness :
  exists out, aget (data out) 3 = Some (stampValue (one_pixel 0 0 remove)).
Proof.
  eexists.
  apply (processImage_region_wins (fun x => x) (fun _ => false) (two_pixels 128)
           (manual_regions [one_pixel 0 0 keep; one_pixel 0 0 remove])
           _ [one_pixel 0 0 keep] [] (one_pixel 0 0 remove) 3).
  - reflexivity.
  - vm_compute. apply list_elem_of_further, list_elem_of_here.
  - simpl. lia.
  - exists [1], 0, 0. repeat split; (reflexivity || lia).
  - intros r Hr. by apply elem_of_nil in Hr.
Defined.

(** With no [cancel] handled, what the handler posts for a [process]
    message depends on the allocations of the job: the alpha mask of
    [width * height] entries of the smooth, refined and decontaminated
    edges, and the mask of [bounds.width * bounds.height] entries of each
    applied region.  When no size is negative, the handler posts what the
    job posts, and that includes [complete].  Otherwise [new Uint8Array]
    raises: the job has posted no [complete], and the handler adds an
    [error]. *)
Theorem process_outcome (Math_exp : float -> float) (fuel : nat) (uuid : string)
    (cancelAt : nat -> bool) (img : ImageData) (settings : ProcessingSettings) :
  (forall k, cancelAt k = false) ->
  if allocations_ok img settings
  then
    onmessage Math_exp fuel uuid cancelAt (process img settings) =
      Some (fst (processImage Math_exp cancelAt img settings)) /\
    exists out, complete out ∈ fst (processImage Math_exp cancelAt img settings)
  else
    no_complete (fst (processImage Math_exp cancelAt img settings)) /\
    onmessage Math_exp fuel uuid cancelAt (process img settings) =
      Some (fst (processImage Math_exp cancelAt img settings) ++ [error RangeError_message]).
Proof.
  intros Hno. unfold allocations_ok, onmessage, processImage.
  rewrite newAlphaMask_spec.
  destruct (_ && (_ <? 0)); cbn [negb andb].
  { split; [|done]. intros ? ?%elem_of_nil. done. }
  pose proof (StampFacts.phases_length Math_exp cancelAt img settings) as Hph.
  match goal with |- context [phase1 ?c ?s ?d ?t ?l ?j] =>
    destruct (phase1_no_cancel c s d t l j Hno eq_refl) as (j1 & H1 & Hc1) end.
  rewrite H1 in Hph |- *.
  assert (H2 : exists j2, phase2 Math_exp img settings (referenceColor img settings) j1 = Go j2).
  { unfold phase2. destruct (useAdvancedEdge _), (jmask j1); rewrite ?Hc1; simpl;
      rewrite ?Hc1; eauto. }
  destruct H2 as (j2 & H2). rewrite H2 in Hph |- *. destruct Hph as [_ Hout].
  pose proof (StampFacts.stampRegions_outcome (width img)
                (appliedRegions (magicSelection settings)) (jdata j2)) as Hs.
  destruct (stampRegions _ _ _) as [d|]; destruct (areas_ok _); cbn [fst snd].
  - split; [done|]. eexists. apply elem_of_app. right. by apply list_elem_of_singleton.
  - destruct Hs as [Hs _]. by specialize (Hs ltac:(by eexists)).
  - destruct Hs as [_ Hs]. by destruct (Hs ltac:(done)).
  - done.
Qed.

Lemma process_outcome_witness :
  no_complete
    (fst (processImage (fun x => x) (fun _ => false) (mkImageData (-2) 3 [])
            (manual_edge EdgeMode.smooth 10))) /\
  onmessage (fun x => x) 0 "u" (fun _ => false)
    (process (mkImageData (-2) 3 []) (manual_edge EdgeMode.smooth 10)) =
    Some (fst (processImage (fun x => x) (fun _ => false) (mkImageData (-2) 3 [])
                 (manual_edge EdgeMode.smooth 10))
          ++ [error RangeError_message]).
Proof.
  apply (process_outcome (fun x => x) 0 "u" (fun _ => false) (mkImageData (-2) 3 [])
           (manual_edge EdgeMode.smooth 10)).
  done.
Defined.

(** ** Dominant colour of solid corners *)

Module DominantFacts.

Lemma corner_solid img r g b x0 y0 n :
  corners_solid img r g b ->
  0 <= x0 -> x0 + n <= width img -> 0 <= y0 -> y0 + n <= height img ->
  (x0 + n <= sampleSize img \/ width img - sampleSize img <= x0) ->
  (y0 + n <= sampleSize img \/ height img - sampleSize img <= y0) ->
  Forall (fun s => s = Color.mk (Some r) (Some g) (Some b)) (Dominant.corner img x0 y0 n).
Proof.
  intros Hc Hx0 Hx1 Hy0 Hy1 Hx Hy. apply Forall_forall. intros s Hs.
  unfold Dominant.corner in Hs.
  apply list_elem_of_bind in Hs as (y & Hs & Hiny%elem_of_seqZ).
  apply list_elem_of_bind in Hs as (x & Hs & Hinx%elem_of_seqZ).
  apply list_elem_of_singleton in Hs. subst s.
  destruct (Hc x y) as (-> & -> & ->); [lia|lia|lia|lia|done].
Qed.

Lemma corner_nonempty img x0 y0 n : 0 < n -> Dominant.corner img x0 y0 n <> [].
Proof.
  intros Hn. unfold Dominant.corner. rewrite (seqZ_cons y0) by done.
  rewrite (seqZ_cons x0) by done. done.
Qed.

Lemma Forall_eq_replicate {A} (l : list A) c :
  Forall (fun s => s = c) l -> l = replicate (length l) c.
Proof. induction 1 as [|s l -> _ IH]; simpl; [done|]. by rewrite <- IH. Qed.

Ltac entry_eq :=
  repeat match goal with
         | |- _ :: _ = _ :: _ => f_equal
         | |- (_, _) = (_, _) => f_equal
         | |- Dominant.mkEntry _ _ _ _ = Dominant.mkEntry _ _ _ _ => f_equal
         | |- Some _ = Some _ => f_equal
         end; lia.

Section Fold.

Variables r g b : Z.

Let c := Color.mk (Some r) (Some g) (Some b).
Let k : Dominant.key := (Dominant.quantize (Some r), Dominant.quantize (Some g),
                         Dominant.quantize (Some b)).
Let f (colorMap : list (Dominant.key * Dominant.entry)) (sample : Color.t) :=
  let k := (Dominant.quantize (Color.r sample), Dominant.quantize (Color.g sample),
            Dominant.quantize (Color.b sample)) in
  Dominant.upsert k sample colorMap.

(** The colour map after [m] more samples of one colour. *)
Lemma colorMap_more (m : nat) : forall n sr sg sb,
  fold_left f (replicate m c) [(k, Dominant.mkEntry n (Some sr) (Some sg) (Some sb))] =
  [(k, Dominant.mkEntry (n + Z.of_nat m) (Some (sr + Z.of_nat m * r))
         (Some (sg + Z.of_nat m * g)) (Some (sb + Z.of_nat m * b)))].
Proof.
  induction m as [|m IH]; intros n sr sg sb.
  - cbn [replicate fold_left]. change (Z.of_nat 0) with 0. entry_eq.
  - cbn [replicate fold_left]. unfold f at 2. cbn [Color.r Color.g Color.b c Dominant.upsert].
    fold k. unfold Dominant.key_eqb. rewrite bool_decide_eq_true_2 by done.
    cbn [Dominant.ecount Dominant.er Dominant.eg Dominant.eb Dominant.add_u].
    rewrite IH, Nat2Z.inj_succ. entry_eq.
Qed.

Lemma colorMap_solid (m : nat) :
  (0 < m)%nat ->
  fold_left f (replicate m c) [] =
  [(k, Dominant.mkEntry (Z.of_nat m) (Some (Z.of_nat m * r)) (Some (Z.of_nat m * g))
         (Some (Z.of_nat m * b)))].
Proof.
  destruct m as [|m]; [lia|]. intros _. cbn [replicate fold_left]. unfold f at 2.
  cbn [Color.r Color.g Color.b c Dominant.upsert]. fold k.
  rewrite colorMap_more, Nat2Z.inj_succ. entry_eq.
Qed.

End Fold.

Lemma round_div_mul n v : 0 < n -> JS.round_div (n * v) n = v.
Proof.
  intros Hn. unfold JS.round_div.
  replace (2 * (n * v) + n) with (v * (2 * n) + n) by lia.
  rewrite Z.div_add_l by lia. rewrite Z.div_small; lia.
Qed.

Lemma detectDominantColor_corners_aux img r g b :
  10 <= width img -> 10 <= height img -> corners_solid img r g b ->
  detectDominantColor img = Color.mk (Some r) (Some g) (Some b).
Proof.
  intros Hw Hh Hc. unfold detectDominantColor. fold (sampleSize img).
  set (s := sampleSize img).
  assert (Hs : 1 <= s <= 20 /\ s <= width img /\ s <= height img).
  { subst s. unfold sampleSize.
    pose proof (Z.div_le_mono 10 (Z.min (width img) (height img)) 10 ltac:(lia) ltac:(lia)) as H1.
    change (10 / 10) with 1 in H1.
    pose proof (Z.div_le_upper_bound (Z.min (width img) (height img)) 10
                  (Z.min (width img) (height img)) ltac:(lia) ltac:(lia)) as H2.
    lia. }
  match goal with |- context [fold_left _ ?l []] => set (samples := l) end.
  assert (Hall : Forall (fun x => x = Color.mk (Some r) (Some g) (Some b)) samples).
  { subst samples. repeat apply Forall_app_2; apply corner_solid; try done; fold s; lia. }
  assert (Hne : (0 < length samples)%nat).
  { subst samples. rewrite length_app.
    pose proof (corner_nonempty img 0 0 s ltac:(lia)) as Hne.
    destruct (Dominant.corner img 0 0 s); [done|]. simpl. lia. }
  rewrite (Forall_eq_replicate _ _ Hall), colorMap_solid by done.
  cbn [fold_left fst snd Dominant.ecount Dominant.er Dominant.eg Dominant.eb Dominant.average].
  destruct (Z.ltb_spec 0 (Z.of_nat (length samples))); [|lia].
  cbn [snd]. by rewrite !round_div_mul by lia.
Qed.

End DominantFacts.

(** An image narrower or shorter than 10 pixels has no corner samples:
    its dominant colour is reported as white, whatever it holds. *)
Theorem detectDominantColor_small (img : ImageData) :
  Z.min (width img) (height img) < 10 ->
  detectDominantColor img = Color.mk (Some 255) (Some 255) (Some 255).
Proof.
  intros Hmin. unfold detectDominantColor.
  assert (Hs : Z.min 20 (Z.min (width img) (height img) / 10) <= 0).
  { pose proof (Z.div_lt_upper_bound (Z.min (width img) (height img)) 10 1 ltac:(lia) ltac:(lia)).
    lia. }
  unfold Dominant.corner. rewrite !seqZ_nil by done. done.
Qed.

Lemma detectDominantColor_small_witness :
  detectDominantColor (two_pixels 128) = Color.mk (Some 255) (Some 255) (Some 255).
Proof. apply detectDominantColor_small. simpl. lia. Defined.

(** When the image is at least 10 pixels wide and high and its four
    corner blocks hold one colour, that colour is the dominant colour,
    whatever the rest of the image holds. *)
Theorem detectDominantColor_corners (img : ImageData) (r g b : Z) :
  10 <= width img -> 10 <= height img -> corners_solid img r g b ->
  detectDominantColor img = Color.mk (Some r) (Some g) (Some b).
Proof. apply DominantFacts.detectDominantColor_corners_aux. Qed.

Lemma detectDominantColor_corners_witness :
  detectDominantColor (solid_image 10 10 7 8 9) = Color.mk (Some 7) (Some 8) (Some 9).
Proof.
  apply detectDominantColor_corners; [simpl; lia|simpl; lia|].
  intros x y Hx Hy Hx' Hy'. unfold sampleSize in Hx', Hy'. simpl in Hx, Hy, Hx', Hy'.
  change (20 `min` ((10 `min` 10) `div` 10)) with 1 in Hx', Hy'.
  assert (Hxs : x = 0 \/ x = 9) by lia. assert (Hys : y = 0 \/ y = 9) by lia.
  destruct Hxs as [-> | ->], Hys as [-> | ->]; repeat split; reflexivity.
Defined.

Module ThresholdFacts.

Lemma solid_corners img r g b : solid img r g b -> corners_solid img r g b.
Proof. intros H x y Hx Hy _ _. by apply H. Qed.

(** A pixel of a solid image, by its number. *)
Lemma solid_pixel img r g b p :
  0 < width img -> solid img r g b -> 0 <= p < width img * height img ->
  aget (data img) (p * 4) = Some r /\ aget (data img) (p * 4 + 1) = Some g /\
  aget (data img) (p * 4 + 2) = Some b.
Proof.
  intros Hw Hs Hp. set (w := width img) in *.
  pose proof (Z.div_mod p w ltac:(lia)) as Hdm.
  pose proof (Z.mod_pos_bound p w Hw) as Hmod.
  destruct (Hs (p mod w) (p / w)) as (H0 & H1 & H2).
  - done.
  - split; [apply Z.div_pos; lia|]. apply Z.div_lt_upper_bound; [done|]. fold w. nia.
  - unfold has_color in *. cbv zeta in *. fold w in H0, H1, H2.
    replace ((p / w * w + p mod w) * 4) with (p * 4) in H0, H1, H2 by lia. done.
Qed.

Lemma colorDistance_self r g b :
  colorDistance (Some r) (Some g) (Some b) (Some r) (Some g) (Some b) = 0%float.
Proof.
  unfold colorDistance, colorDistanceSquared_u.
  assert (colorDistanceSquared r g b r g b = 0) as ->
    by (unfold colorDistanceSquared; simpl; lia).
  reflexivity.
Qed.

(** [n] increments of the first bin. *)
Lemma bump_first {A} (F : list Z * Z -> A -> list Z * Z) (l : list A) : forall v tl cnt,
  (forall acc a, a ∈ l -> F acc a = (Otsu.bump (fst acc) (Some 0), snd acc + 1)) ->
  0 <= v -> v + Z.of_nat (length l) < 2 ^ 32 ->
  fold_left F l (v :: tl, cnt) = ((v + Z.of_nat (length l)) :: tl, cnt + Z.of_nat (length l)).
Proof.
  induction l as [|a l IH]; intros v tl cnt HF Hv Hlen.
  - simpl. by rewrite !Z.add_0_r.
  - cbn [fold_left]. rewrite HF by apply list_elem_of_here. cbn [fst snd].
    change (Otsu.bump (v :: tl) (Some 0)) with (JS.ToUint32 (v + 1) :: tl).
    unfold JS.ToUint32. rewrite Z.mod_small by (cbn [length] in Hlen; lia).
    rewrite IH.
    + cbn [length]. f_equal; [f_equal|]; lia.
    + intros acc b Hb. apply HF. by apply list_elem_of_further.
    + lia.
    + cbn [length] in Hlen. lia.
Qed.

Lemma step_broke histogram sampledPixels sumTotal l : forall st,
  Otsu.broke st = true ->
  fold_left (Otsu.step histogram sampledPixels sumTotal) l st = st.
Proof.
  induction l as [|t l IH]; intros st Hb; cbn [fold_left]; [done|].
  unfold Otsu.step at 2. rewrite Hb. by apply IH.
Qed.

Lemma fold_left_cons {A B} (f : A -> B -> A) b l a :
  fold_left f (b :: l) a = fold_left f l (f a b).
Proof. reflexivity. Qed.

Lemma step_first_bin n tl sumTotal :
  0 < n ->
  Otsu.step (n :: tl) n sumTotal (Otsu.mkState 0 0 0%float 0 false) 0 =
  Otsu.mkState 0 n 0%float 0 true.
Proof.
  intros Hn. assert (Hneq : (n =? 0) = false) by (apply Z.eqb_neq; lia).
  unfold Otsu.step. cbn [Otsu.broke Otsu.weightBackground Otsu.sumBackground
                         Otsu.maxVariance Otsu.optimalBin].
  rewrite aget_cons_0. change (default 0 (Some n)) with n.
  rewrite Z.add_0_l, Hneq, Z.sub_diag. reflexivity.
Qed.

(** The search on a histogram with every sample in the first bin stops
    at the first bin. *)
Lemma search_first_bin n tl sumTotal :
  0 < n ->
  fold_left (Otsu.step (n :: tl) n sumTotal) (seqZ 0 Otsu.histogramBins)
    (Otsu.mkState 0 0 0%float 0 false) =
  Otsu.mkState 0 n 0%float 0 true.
Proof.
  intros Hn. unfold Otsu.histogramBins. rewrite seqZ_cons by lia.
  rewrite fold_left_cons, step_first_bin by done. by apply step_broke.
Qed.

Lemma calculateAutoThreshold_solid_aux img r g b :
  wf_image img -> 10 <= width img -> 10 <= height img ->
  Z.of_nat (length (data img)) < 2 ^ 32 ->
  solid img r g b ->
  calculateAutoThreshold img = (20%float, Color.mk (Some r) (Some g) (Some b)).
Proof.
  intros (_ & _ & Hlen) Hw Hh Hsmall Hs. unfold calculateAutoThreshold.
  rewrite (DominantFacts.detectDominantColor_corners_aux img r g b Hw Hh (solid_corners _ _ _ _ Hs)).
  cbn [Color.r Color.g Color.b].
  set (len := Z.of_nat (length (data img))) in *.
  assert (Hpos : 400 <= len) by nia.
  change (replicate (Z.to_nat Otsu.histogramBins) 0) with (0 :: replicate 255 0).
  match goal with |- context [fold_left ?F (Otsu.sampled len) _] =>
    rewrite (bump_first F (Otsu.sampled len) 0 (replicate 255 0) 0) end.
  - set (n := Z.of_nat (length (Otsu.sampled len))).
    assert (Hn : 0 < n).
    { subst n. unfold Otsu.sampled. rewrite length_fmap, length_seqZ.
      pose proof (Z.div_le_mono 16 (len + 15) 16 ltac:(lia) ltac:(lia)) as H1.
      change (16 / 16) with 1 in H1. lia. }
    rewrite !Z.add_0_l. f_equal. by rewrite search_first_bin.
  - intros acc i Hi. cbn [fst snd]. f_equal. f_equal.
    unfold Otsu.sampled in Hi. apply list_elem_of_fmap in Hi as (k & -> & Hk%elem_of_seqZ).
    pose proof (Z.mul_div_le (len + 15) 16 ltac:(lia)) as Hdiv.
    destruct (solid_pixel img r g b (4 * k) ltac:(lia) Hs) as (-> & -> & ->); [lia|].
    rewrite colorDistance_self. reflexivity.
  - done.
  - unfold Otsu.sampled. rewrite length_fmap, length_seqZ.
    pose proof (Z.div_lt_upper_bound (len + 15) 16 (2 ^ 32) ltac:(lia) ltac:(lia)) as H1.
    pose proof (Z.div_pos (len + 15) 16 ltac:(lia) ltac:(lia)). lia.
Qed.

End ThresholdFacts.

(** An image of one colour, at least 10 pixels wide and high, gets the
    lowest threshold, 20, and its colour as the dominant colour. *)
Theorem calculateAutoThreshold_solid (img : ImageData) (r g b : Z) :
  wf_image img -> 10 <= width img -> 10 <= height img ->
  Z.of_nat (length (data img)) < 2 ^ 32 ->
  solid img r g b ->
  calculateAutoThreshold img = (20%float, Color.mk (Some r) (Some g) (Some b)).
Proof. apply ThresholdFacts.calculateAutoThreshold_solid_aux. Qed.

Lemma calculateAutoThreshold_solid_witness :
  calculateAutoThreshold (solid_image 10 10 7 8 9) =
  (20%float, Color.mk (Some 7) (Some 8) (Some 9)).
Proof.
  apply calculateAutoThreshold_solid.
  - unfold wf_image. simpl. lia.
  - simpl. lia.
  - simpl. lia.
  - simpl. lia.
  - intros x y Hx Hy. simpl in Hx, Hy.
    assert (Hxs : x = 0 \/ x = 1 \/ x = 2 \/ x = 3 \/ x = 4 \/ x = 5 \/ x = 6 \/ x = 7 \/
                  x = 8 \/ x = 9) by lia.
    assert (Hys : y = 0 \/ y = 1 \/ y = 2 \/ y = 3 \/ y = 4 \/ y = 5 \/ y = 6 \/ y = 7 \/
                  y = 8 \/ y = 9) by lia.
    clear Hx Hy.
    repeat match goal with H : _ \/ _ |- _ => destruct H as [H|H] end;
      subst; repeat split; reflexivity.
Defined.

(** ** processImage in colour-picker mode *)

Module PickerModes.

Section Picker.

Variable img : ImageData.
Hypothesis img_wf : wf_image img.
Hypothesis img_small : 4 * (width img * height img) < 2 ^ 31.
Variable settings : ProcessingSettings.
Hypothesis basic : useAdvancedEdge (edgeMode settings) = false.
Hypothesis picker : mode settings = Mode.colorPicker.

Let total := width img * height img.

Lemma on_match_basic i distSq limit d m :
  on_match settings i (JS.shl2 i) distSq limit (d, m) =
  (aset d (JS.shl2 i + 3) (matchedAlpha settings distSq limit), m).
Proof using basic.
  unfold on_match, matchedAlpha. rewrite basic. cbn [fst snd].
  destruct (edgeMode settings); done.
Qed.

(** The inner loop stops at the first colour that matches. *)
Lemma pickFirst_find i d m colors :
  pickFirst settings i (JS.shl2 i) (aget d (JS.shl2 i)) (aget d (JS.shl2 i + 1))
    (aget d (JS.shl2 i + 2)) colors (d, m) =
  (match List.find (fun selected => matches (selectedDistSq d i selected)
                                      (SelectedColor.tolerance selected)) colors with
   | Some selected =>
       aset d (JS.shl2 i + 3)
         (matchedAlpha settings (selectedDistSq d i selected) (SelectedColor.tolerance selected))
   | None => d
   end, m).
Proof using basic.
  induction colors as [|selected colors IH]; cbn [pickFirst List.find]; [done|].
  fold (selectedDistSq d i selected).
  destruct (matches _ _); [apply on_match_basic|apply IH].
Qed.

Lemma classifyPixel_picker dominantColor d m i :
  classifyPixel settings dominantColor (d, m) i =
  (match pickedColor settings d i with
   | Some selected =>
       aset d (JS.shl2 i + 3)
         (matchedAlpha settings (selectedDistSq d i selected) (SelectedColor.tolerance selected))
   | None => d
   end, m).
Proof using basic picker.
  unfold classifyPixel. rewrite picker. cbn [fst]. apply pickFirst_find.
Qed.

(** The tests read colour bytes only, which phase 1 never changes. *)
Lemma selectedDistSq_same_rgb d i selected :
  same_rgb (data img) d -> selectedDistSq d i selected = selectedDistSq (data img) i selected.
Proof.
  intros [_ H]. unfold selectedDistSq. pose proof (shl2_mod4 i) as H4.
  rewrite !H; [done| | |].
  - rewrite Z.add_mod, H4 by lia. done.
  - rewrite Z.add_mod, H4 by lia. done.
  - rewrite H4. done.
Qed.

Lemma pickedColor_same_rgb d i :
  same_rgb (data img) d -> pickedColor settings d i = pickedColor settings (data img) i.
Proof.
  intros Hrgb. unfold pickedColor.
  induction (selectedColors settings) as [|selected colors IH]; cbn [List.find]; [done|].
  by rewrite (selectedDistSq_same_rgb d i selected Hrgb), IH.
Qed.

Lemma classifyPixel_picked dominantColor d m i :
  0 <= i < total -> pickedUpTo img settings i d ->
  exists d', classifyPixel settings dominantColor (d, m) i = (d', m) /\
             pickedUpTo img settings (i + 1) d'.
Proof using img_wf img_small basic picker.
  intros Hi [Hrgb Halpha]. rewrite classifyPixel_picker. eexists. split; [reflexivity|].
  destruct img_wf as (Hw & Hh & Hlen). fold total in Halpha, Hlen.
  rewrite (pickedColor_same_rgb d i Hrgb).
  rewrite shl2_small by (fold total in img_small; lia).
  destruct (pickedColor settings (data img) i) as [selected|] eqn:Hc.
  - rewrite (selectedDistSq_same_rgb d i selected Hrgb). split.
    + destruct Hrgb as [Hl H]. split; [by rewrite length_aset|].
      intros k Hk. rewrite aget_aset_ne; [by apply H|]. intros <-.
      rewrite Z.add_mod, Z.mul_comm, Z.mod_mul in Hk by lia. done.
    + intros p Hp. fold total in Hp. destruct (decide (p = i)) as [->|Hne].
      * rewrite aget_aset_eq.
        -- destruct (Z.ltb_spec i (i + 1)); [|lia]. unfold pickerAlpha. by rewrite Hc.
        -- destruct Hrgb as [Hl _]. rewrite Hl. lia.
      * rewrite aget_aset_ne by lia. rewrite Halpha by done.
        destruct (Z.ltb_spec p i), (Z.ltb_spec p (i + 1)); try done; lia.
  - split; [done|]. intros p Hp. fold total in Hp. rewrite Halpha by done.
    destruct (decide (p = i)) as [->|Hne].
    + destruct (Z.ltb_spec i i), (Z.ltb_spec i (i + 1)); try lia.
      unfold pickerAlpha. by rewrite Hc.
    + destruct (Z.ltb_spec p i), (Z.ltb_spec p (i + 1)); try done; lia.
Qed.

Lemma classifyChunk_picked dominantColor (n : nat) : forall a d m,
  0 <= a -> a + Z.of_nat n <= total -> pickedUpTo img settings a d ->
  exists d', fold_left (classifyPixel settings dominantColor)
               (seqZ a (Z.of_nat n)) (d, m) = (d', m) /\
             pickedUpTo img settings (a + Z.of_nat n) d'.
Proof using img_wf img_small basic picker.
  induction n as [|n IH]; intros a d m Ha Hn Hd.
  - exists d. split; [done|]. by rewrite Z.add_0_r.
  - rewrite seqZ_S, fold_left_app.
    destruct (IH a d m Ha ltac:(lia) Hd) as (d1 & -> & Hd1). cbn [fold_left].
    destruct (classifyPixel_picked dominantColor d1 m (a + Z.of_nat n)) as (d2 & -> & Hd2);
      [lia|done|].
    exists d2. split; [done|]. by replace (a + Z.of_nat (S n)) with (a + Z.of_nat n + 1) by lia.
Qed.

Lemma phase1_picked cancelAt dominantColor (n : nat) : forall c j,
  0 <= c -> chunkSize * c <= total + chunkSize - 1 ->
  total <= chunkSize * (c + Z.of_nat n) ->
  (n <> O -> chunkSize * (c + Z.of_nat n - 1) < total) ->
  pickedUpTo img settings (Z.min (chunkSize * c) total) (jdata j) ->
  no_complete (posted j) ->
  match phase1 cancelAt settings dominantColor total
          ((fun k => chunkSize * k) <$> seqZ c (Z.of_nat n)) j with
  | Stop j' => no_complete (posted j')
  | Go j' => pickedUpTo img settings total (jdata j') /\ no_complete (posted j')
  end.
Proof using img_wf img_small basic picker.
  unfold chunkSize. induction n as [|n IH]; intros c j Hc Hlow Hhigh Hlast Hd Hout.
  - simpl. split; [|done]. by replace (Z.min (250000 * c) total) with total in Hd by lia.
  - rewrite seqZ_cons by lia. rewrite fmap_cons. cbn [phase1].
    destruct (isCancelled j).
    { simpl. by apply no_complete_snoc. }
    replace (Z.pred (Z.of_nat (S n))) with (Z.of_nat n) by lia.
    assert (Hstart : 250000 * c < total) by (specialize (Hlast ltac:(done)); lia).
    replace (Z.min (250000 * c) total) with (250000 * c) in Hd by lia.
    unfold classifyChunk, chunkSize.
    set (chunkEnd := Z.min (250000 * c + 250000) total).
    destruct (classifyChunk_picked dominantColor (Z.to_nat (chunkEnd - 250000 * c)) (250000 * c)
                (jdata j) (jmask j))
      as (d' & Hfold & Hd'); [lia|subst chunkEnd; lia|done|].
    rewrite Z2Nat.id in Hfold, Hd' by (subst chunkEnd; lia).
    rewrite Hfold. cbn [fst snd].
    replace (250000 * c + (chunkEnd - 250000 * c)) with chunkEnd in Hd' by lia.
    apply IH; cbn [jdata posted]; try lia.
    + by replace (Z.min (250000 * Z.succ c) total) with chunkEnd by (subst chunkEnd; lia).
    + destruct (PrimFloat.leb _ _); [|done]. by apply no_complete_snoc.
Qed.

End Picker.

End PickerModes.

(** With hard or feathered edges, in colour-picker mode and without
    applied regions, the buffer posted with [complete] has the dimensions
    and the colour bytes of the input; the alpha byte of a pixel within
    tolerance of a selected colour is the value stored for the first such
    colour of the list (0 with hard edges, the falloff of the distance to
    that colour with feathered edges); the alpha byte of any other pixel is
    the input's. *)
Theorem processImage_picker (Math_exp : float -> float) (cancelAt : nat -> bool)
    (img : ImageData) (settings : ProcessingSettings) (out : ImageData) :
  wf_image img -> 4 * (width img * height img) < 2 ^ 31 ->
  useAdvancedEdge (edgeMode settings) = false ->
  mode settings = Mode.colorPicker ->
  appliedRegions (magicSelection settings) = [] ->
  complete out ∈ fst (processImage Math_exp cancelAt img settings) ->
  width out = width img /\ height out = height img /\
  length (data out) = length (data img) /\
  (forall i, i mod 4 <> 3 -> aget (data out) i = aget (data img) i) /\
  (forall p, 0 <= p < width img * height img ->
     aget (data out) (4 * p + 3) = pickerAlpha img settings p).
Proof.
  intros Hwf Hsmall Hbasic Hmode Hregions. unfold processImage.
  rewrite newAlphaMask_spec, Hbasic, Hregions. cbn [andb]. unfold chunkStarts.
  set (total := width img * height img) in *.
  assert (Htotal : 0 <= total) by (destruct Hwf as (? & ? & _); subst total; nia).
  set (n := (total + chunkSize - 1) / chunkSize).
  pose proof (Z.div_mod (total + chunkSize - 1) chunkSize ltac:(done)) as Hdm.
  pose proof (Z.mod_pos_bound (total + chunkSize - 1) chunkSize ltac:(done)) as Hmod.
  fold n in Hdm. unfold chunkSize in Hdm, Hmod.
  assert (Hn : 0 <= n) by (subst n; apply Z.div_pos; unfold chunkSize; lia).
  rewrite <- (Z2Nat.id n Hn).
  pose proof (PickerModes.phase1_picked img Hwf Hsmall settings Hbasic Hmode cancelAt
                (referenceColor img settings) (Z.to_nat n) 0
                (mkJob (data img) None 0%float false 0%nat [])) as H1.
  fold total in H1. unfold chunkSize in H1 |- *.
  destruct (phase1 _ _ _ _ _ _) as [j1|j1].
  - intros Hin. exfalso. revert Hin. apply H1; cbn [jdata posted]; try lia.
    + split; [done|]. intros p Hp. by destruct (Z.ltb_spec p (Z.min (250000 * 0) total)); [lia|].
    + intros ? ?%elem_of_nil. done.
  - destruct H1 as [[[Hl Hrgb] Halpha] Hout]; cbn [jdata posted]; try lia.
    + split; [done|]. intros p Hp. by destruct (Z.ltb_spec p (Z.min (250000 * 0) total)); [lia|].
    + intros ? ?%elem_of_nil. done.
    + unfold phase2. rewrite Hbasic. cbn [stampRegions fst].
      intros Hin. apply elem_of_app in Hin as [Hin|Hin]; [by apply Hout in Hin|].
      apply list_elem_of_singleton in Hin. injection Hin as ->. cbn [width height data].
      repeat split; try done.
      intros p Hp. rewrite Halpha by done. by destruct (Z.ltb_spec p total); [|lia].
Qed.

Lemma processImage_picker_witness :
  exists out,
    width out = 2 /\ height out = 1 /\
    length (data out) = 8%nat /\
    (forall i, i mod 4 <> 3 -> aget (data out) i = aget (data (two_pixels 128)) i) /\
    (forall p, 0 <= p < 2 * 1 ->
       aget (data out) (4 * p + 3) =
       pickerAlpha (two_pixels 128)
         (picker_hard [SelectedColor.mk "a" 0 0 0 (JS.Int 10);
                       SelectedColor.mk "b" 255 255 255 (JS.Int 10)]) p).
Proof.
  eexists.
  apply (processImage_picker (fun x => x) (fun _ => false) (two_pixels 128)
           (picker_hard [SelectedColor.mk "a" 0 0 0 (JS.Int 10);
                         SelectedColor.mk "b" 255 255 255 (JS.Int 10)])).
  - unfold wf_image. simpl. lia.
  - simpl. lia.
  - reflexivity.
  - reflexivity.
  - reflexivity.
  - vm_compute. apply list_elem_of_further, list_elem_of_here.
Defined.

(** ** The size of an encoding *)

Module SizeFacts.

(** Runs of positive length with a gap between them: at most one array
    entry for each mask entry, and one more. *)
Lemma canonical_length size rle : forall lo,
  canonical lo size rle -> lo <= size + 1 -> Z.of_nat (length rle) <= size + 1 - lo.
Proof.
  induction rle as [| |s l rle IH] using MaskFacts.pair_ind; intros lo; cbn [canonical].
  - simpl. lia.
  - done.
  - intros (Hs & Hl & He & Hc) Hlo. specialize (IH _ Hc ltac:(lia)).
    cbn [length]. lia.
Qed.

End SizeFacts.

(** The encoding of a mask never takes more than four bytes for each mask
    entry, and four more: the runs have a gap between them, so a mask of
    [n] entries has at most [(n + 1) / 2] runs of eight bytes.  The
    compression ratio of [getCompressionRatio] can fall to about a quarter,
    and no further. *)
Theorem encodeMaskToRLE_size (mask : list Z) (width height : Z) :
  Z.of_nat (length mask) = width * height -> width * height < 2 ^ 32 ->
  MaskUtils.getRLEMemorySize (RLE.encodeMaskToRLE mask) <=
  4 * (MaskUtils.getRawMaskMemorySize width height + 1).
Proof.
  intros Hlen Hsmall. unfold MaskUtils.getRLEMemorySize, MaskUtils.getRawMaskMemorySize.
  pose proof (MaskFacts.encodeMaskToRLE_canonical_aux mask ltac:(lia)) as Hc.
  apply SizeFacts.canonical_length in Hc; lia.
Qed.

Lemma encodeMaskToRLE_size_witness :
  MaskUtils.getRLEMemorySize (RLE.encodeMaskToRLE [1; 0; 1; 0; 1]) <=
  4 * (MaskUtils.getRawMaskMemorySize 5 1 + 1).
Proof. apply encodeMaskToRLE_size; simpl; lia. Defined.
